(** * Plane slicing of a triangle mesh: the [Slicer] component

    A shallow embedding of the slicing code of [Slicer]
    ("EXY SLICE VER 3.js"): [sliceMesh], [getVertexData], [getSideOfPlane],
    [addTriangle], [splitTriangle], [interpolateVertex] and [generateCap].

    Numbers.  JavaScript numbers are read as exact rationals ([Q]); equality
    of computed coordinates is [Qeq].  [Math.sqrt] has no rational value in
    general and is a variable of the development ([Math_sqrt]): nothing
    proved here depends on what it returns.

    State.  The six arrays that [sliceMesh] allocates and its helpers push
    to are threaded explicitly: a helper takes the arrays it mutates and
    returns them.

    The engine.  A mesh attribute is an accessor with a [get] method, a
    missing attribute is [None].  [sliceMesh] is followed up to its two
    calls of [createMeshObject]: the hulls it returns here are the vertex
    and index buffers those calls are given.  The scene objects, their
    offsets and the physics of [makeItPhysical] are left out. *)

From Stdlib Require Import String QArith Qabs ZArith List Bool Lia Lqa Permutation.
Import ListNotations.

Local Open Scope Q_scope.

(** ** JavaScript numbers and arrays *)

Module JS.

(** [Math.sign]: one of -1, 0, 1. *)
Definition Math_sign (q : Q) : Z := Z.sgn (Qnum q).

(** [Math.abs]. *)
Definition Math_abs (q : Q) : Q := Qabs q.

(** [a < b] on numbers. *)
Definition lt (a b : Q) : bool := negb (Qle_bool b a).

(** An index read from an array: [None] is [undefined], what [a[k]]
    yields past the end of [a]. *)
Definition index : Type := option nat.

Definition at_ (a : list nat) (k : nat) : index := nth_error a k.

(** [Array.prototype.sort(cmp)]: a stable sort; [x] moves in front of an
    earlier element [y] only when [cmp x y < 0]. *)
Fixpoint insert {A : Type} (cmp : A -> A -> Q) (x : A) (l : list A) : list A :=
  match l with
  | [] => [x]
  | y :: l' => if lt (cmp x y) 0 then x :: y :: l' else y :: insert cmp x l'
  end.

Definition sort {A : Type} (cmp : A -> A -> Q) (l : list A) : list A :=
  fold_left (fun acc x => insert cmp x acc) l [].

(** [Array.prototype.some]. *)
Definition some {A : Type} (p : A -> bool) (l : list A) : bool := existsb p l.

End JS.

(** ** Data *)

(** [number[]] of three components ([position], [normal]) and of two
    ([texCoord]); [c0 p] is [p[0]]. *)
Record Vec3 : Type := mkVec3 { c0 : Q; c1 : Q; c2 : Q }.
Record Vec2 : Type := mkVec2 { u0 : Q; u1 : Q }.

(** [interface SliceVertex]. *)
Record SliceVertex : Type := mkSliceVertex {
  position : Vec3;
  normal : option Vec3;
  texCoord : option Vec2
}.

(** [interface ContourPoint]. *)
Module ContourPoint.
Record t : Type := mk {
  position : Vec3;
  edgeVerts : JS.index * JS.index
}.
End ContourPoint.

(** The engine's attribute accessor: only [get] is used. *)
Record MeshAttributeAccessor (A : Type) : Type := mkAccessor {
  get : JS.index -> A
}.
Arguments get {A} _ _.
Arguments mkAccessor {A} _.

(** The engine's [Mesh], as far as [sliceMesh] reads it; [None] is a
    missing attribute or a missing index buffer. *)
Record Mesh : Type := mkMesh {
  attrPosition : option (MeshAttributeAccessor Vec3);
  attrNormal : option (MeshAttributeAccessor Vec3);
  attrTextureCoordinate : option (MeshAttributeAccessor Vec2);
  indexData : option (list nat)
}.

(** One element of the array [splitTriangle] sorts: [{ v, d, i }]. *)
Module E.
Record t : Type := mk { v : SliceVertex; d : Q; i : JS.index }.
End E.

(** The arrays local to one call of [sliceMesh]. *)
Record SliceState : Type := mkState {
  upperVertices : list SliceVertex;
  lowerVertices : list SliceVertex;
  upperIndices : list nat;
  lowerIndices : list nat;
  upperContour : list ContourPoint.t;
  lowerContour : list ContourPoint.t
}.

Definition emptyState : SliceState := mkState [] [] [] [] [] [].

(** A finished hull: the vertex and index buffers handed to
    [createMeshObject]. *)
Record Hull : Type := mkHull {
  hullVertices : list SliceVertex;
  hullIndices : list nat
}.

(** What a call of [sliceMesh] leaves behind: the value returned ([None]
    is [null]) and the lines written with [console.warn]. *)
Record Outcome : Type := mkOutcome {
  returned : option (Hull * Hull);
  warnings : list string
}.

(** ** The component *)

Section Slicer.

(** [Math.sqrt]. *)
Variable Math_sqrt : Q -> Q.

(** [this.slicePlaneNormal]. *)
Variable slicePlaneNormal : Vec3.

Definition getVertexData (index : JS.index)
    (positions : MeshAttributeAccessor Vec3)
    (normals : option (MeshAttributeAccessor Vec3))
    (texCoords : option (MeshAttributeAccessor Vec2)) : SliceVertex :=
  let pos := get positions index in
  {| position := mkVec3 (c0 pos) (c1 pos) (c2 pos);
     normal :=
       match normals with
       | Some normals =>
           let norm := get normals index in
           Some (mkVec3 (c0 norm) (c1 norm) (c2 norm))
       | None => None
       end;
     texCoord :=
       match texCoords with
       | Some texCoords =>
           let uv := get texCoords index in
           Some (mkVec2 (u0 uv) (u1 uv))
       | None => None
       end |}.

Definition getSideOfPlane (vertex planePoint : Vec3) : Q :=
  let nx := c0 slicePlaneNormal in
  let ny := c1 slicePlaneNormal in
  let nz := c2 slicePlaneNormal in
  let dx := c0 vertex - c0 planePoint in
  let dy := c1 vertex - c1 planePoint in
  let dz := c2 vertex - c2 planePoint in
  nx * dx + ny * dy + nz * dz.

Definition addTriangle (vertices : list SliceVertex) (indices : list nat)
    (v0 v1 v2 : SliceVertex) : list SliceVertex * list nat :=
  let baseIndex := length vertices in
  (vertices ++ [v0; v1; v2],
   indices ++ [baseIndex; baseIndex + 1; baseIndex + 2]%nat).

Definition interpolateVertex (v1 v2 : SliceVertex) (t : Q) : SliceVertex :=
  {| position :=
       mkVec3
         (c0 (position v1) + (c0 (position v2) - c0 (position v1)) * t)
         (c1 (position v1) + (c1 (position v2) - c1 (position v1)) * t)
         (c2 (position v1) + (c2 (position v2) - c2 (position v1)) * t);
     normal :=
       match normal v1, normal v2 with
       | Some n1, Some n2 =>
           let n :=
             mkVec3 (c0 n1 + (c0 n2 - c0 n1) * t)
                    (c1 n1 + (c1 n2 - c1 n1) * t)
                    (c2 n1 + (c2 n2 - c2 n1) * t) in
           let len := Math_sqrt (c0 n ^ 2 + c1 n ^ 2 + c2 n ^ 2) in
           if JS.lt 0 len
           then Some (mkVec3 (c0 n / len) (c1 n / len) (c2 n / len))
           else Some n
       | _, _ => None
       end;
     texCoord :=
       match texCoord v1, texCoord v2 with
       | Some t1, Some t2 =>
           Some (mkVec2 (u0 t1 + (u0 t2 - u0 t1) * t)
                        (u1 t1 + (u1 t2 - u1 t1) * t))
       | _, _ => None
       end |}.

(** The two pushes that follow the three [addTriangle] calls of a branch
    of [splitTriangle]. *)
Definition pushContours (st : SliceState) (pt1 pt2 : ContourPoint.t) : SliceState :=
  mkState (upperVertices st) (lowerVertices st)
          (upperIndices st) (lowerIndices st)
          (upperContour st ++ [pt1; pt2]) (lowerContour st ++ [pt1; pt2]).

Definition addUpper (st : SliceState) (v0 v1 v2 : SliceVertex) : SliceState :=
  let '(vs, ix) := addTriangle (upperVertices st) (upperIndices st) v0 v1 v2 in
  mkState vs (lowerVertices st) ix (lowerIndices st)
          (upperContour st) (lowerContour st).

Definition addLower (st : SliceState) (v0 v1 v2 : SliceVertex) : SliceState :=
  let '(vs, ix) := addTriangle (lowerVertices st) (lowerIndices st) v0 v1 v2 in
  mkState (upperVertices st) vs (upperIndices st) ix
          (upperContour st) (lowerContour st).

Definition splitTriangle (v0 v1 v2 : SliceVertex) (d0 d1 d2 : Q)
    (st : SliceState) (i0 i1 i2 : JS.index) : SliceState :=
  let verts :=
    JS.sort (fun a b => E.d a - E.d b)
            [E.mk v0 d0 i0; E.mk v1 d1 i1; E.mk v2 d2 i2] in
  match verts with
  | [vMin; vMid; vMax] =>
      if (JS.Math_sign (E.d vMin) =? JS.Math_sign (E.d vMid))%Z then
        let v2Same := vMid in
        let v1Diff := vMax in
        let t1 := JS.Math_abs (E.d vMin)
                  / (JS.Math_abs (E.d vMin) + JS.Math_abs (E.d v1Diff)) in
        let t2 := JS.Math_abs (E.d v2Same)
                  / (JS.Math_abs (E.d v2Same) + JS.Math_abs (E.d v1Diff)) in
        let vInt1 := interpolateVertex (E.v vMin) (E.v v1Diff) t1 in
        let vInt2 := interpolateVertex (E.v v2Same) (E.v v1Diff) t2 in
        let contourPt1 := ContourPoint.mk (position vInt1) (E.i vMin, E.i v1Diff) in
        let contourPt2 := ContourPoint.mk (position vInt2) (E.i v2Same, E.i v1Diff) in
        if JS.lt (E.d vMin) 0 then
          let st := addLower st (E.v vMin) (E.v v2Same) vInt1 in
          let st := addLower st (E.v v2Same) vInt2 vInt1 in
          let st := addUpper st vInt1 vInt2 (E.v v1Diff) in
          pushContours st contourPt1 contourPt2
        else
          let st := addUpper st (E.v vMin) (E.v v2Same) vInt1 in
          let st := addUpper st (E.v v2Same) vInt2 vInt1 in
          let st := addLower st vInt1 vInt2 (E.v v1Diff) in
          pushContours st contourPt1 contourPt2
      else
        let v1Same := vMin in
        let v2Diff := vMid in
        let t1 := JS.Math_abs (E.d v1Same)
                  / (JS.Math_abs (E.d v1Same) + JS.Math_abs (E.d v2Diff)) in
        let t2 := JS.Math_abs (E.d v1Same)
                  / (JS.Math_abs (E.d v1Same) + JS.Math_abs (E.d vMax)) in
        let vInt1 := interpolateVertex (E.v v1Same) (E.v v2Diff) t1 in
        let vInt2 := interpolateVertex (E.v v1Same) (E.v vMax) t2 in
        let contourPt1 := ContourPoint.mk (position vInt1) (E.i v1Same, E.i v2Diff) in
        let contourPt2 := ContourPoint.mk (position vInt2) (E.i v1Same, E.i vMax) in
        if JS.lt (E.d v1Same) 0 then
          let st := addLower st (E.v v1Same) vInt1 vInt2 in
          let st := addUpper st vInt1 (E.v v2Diff) (E.v vMax) in
          let st := addUpper st vInt1 (E.v vMax) vInt2 in
          pushContours st contourPt1 contourPt2
        else
          let st := addUpper st (E.v v1Same) vInt1 vInt2 in
          let st := addLower st vInt1 (E.v v2Diff) (E.v vMax) in
          let st := addLower st vInt1 (E.v vMax) vInt2 in
          pushContours st contourPt1 contourPt2
  | _ => st (* not reached: sorting keeps the three elements *)
  end.

Definition epsilon : Q := 1 # 10000.

(** The callback of [uniqueContour.some] in [generateCap]. *)
Definition near (pt existing : ContourPoint.t) : bool :=
  let dx := c0 (ContourPoint.position existing) - c0 (ContourPoint.position pt) in
  let dy := c1 (ContourPoint.position existing) - c1 (ContourPoint.position pt) in
  let dz := c2 (ContourPoint.position existing) - c2 (ContourPoint.position pt) in
  JS.lt (dx * dx + dy * dy + dz * dz) (epsilon * epsilon).

(** The first loop of [generateCap]: the final [uniqueContour]. *)
Definition removeDuplicates (contour : list ContourPoint.t) : list ContourPoint.t :=
  fold_left
    (fun uniqueContour pt =>
       let isDuplicate := JS.some (near pt) uniqueContour in
       if negb isDuplicate then uniqueContour ++ [pt] else uniqueContour)
    contour [].

(** The second loop and the three divisions: the final [centroid]. *)
Definition centroidOf (uniqueContour : list ContourPoint.t) : Vec3 :=
  let centroid :=
    fold_left
      (fun centroid pt =>
         mkVec3 (c0 centroid + c0 (ContourPoint.position pt))
                (c1 centroid + c1 (ContourPoint.position pt))
                (c2 centroid + c2 (ContourPoint.position pt)))
      uniqueContour (mkVec3 0 0 0) in
  let n := inject_Z (Z.of_nat (length uniqueContour)) in
  mkVec3 (c0 centroid / n) (c1 centroid / n) (c2 centroid / n).

Definition generateCap (vertices : list SliceVertex) (indices : list nat)
    (contour : list ContourPoint.t) (isUpper : bool)
    : list SliceVertex * list nat :=
  if (length contour <? 3)%nat then (vertices, indices) else
  let uniqueContour := removeDuplicates contour in
  if (length uniqueContour <? 3)%nat then (vertices, indices) else
  let centroid := centroidOf uniqueContour in
  let nx := c0 slicePlaneNormal in
  let ny := c1 slicePlaneNormal in
  let nz := c2 slicePlaneNormal in
  let capNormal := if isUpper then mkVec3 nx ny nz else mkVec3 (- nx) (- ny) (- nz) in
  let baseIndex := length vertices in
  let vertices :=
    vertices ++ [mkSliceVertex centroid (Some capNormal) (Some (mkVec2 (1 # 2) (1 # 2)))] in
  let contourStartIndex := length vertices in
  let vertices :=
    fold_left
      (fun vertices pt =>
         vertices ++ [mkSliceVertex (ContourPoint.position pt) (Some capNormal)
                                    (Some (mkVec2 (1 # 2) (1 # 2)))])
      uniqueContour vertices in
  let indices :=
    fold_left
      (fun indices i =>
         let next := ((i + 1) mod length uniqueContour)%nat in
         if isUpper
         then indices ++ [baseIndex; contourStartIndex + i; contourStartIndex + next]%nat
         else indices ++ [baseIndex; contourStartIndex + next; contourStartIndex + i]%nat)
      (seq 0 (length uniqueContour)) indices in
  (vertices, indices).

(** The body of the loop of [sliceMesh] at counter [i]. *)
Definition processTriangle (positions : MeshAttributeAccessor Vec3)
    (normals : option (MeshAttributeAccessor Vec3))
    (texCoords : option (MeshAttributeAccessor Vec2))
    (worldPos : Vec3) (indices : list nat)
    (st : SliceState) (i : nat) : SliceState :=
  let i0 := JS.at_ indices i in
  let i1 := JS.at_ indices (i + 1) in
  let i2 := JS.at_ indices (i + 2) in
  let v0 := getVertexData i0 positions normals texCoords in
  let v1 := getVertexData i1 positions normals texCoords in
  let v2 := getVertexData i2 positions normals texCoords in
  let d0 := getSideOfPlane (position v0) worldPos in
  let d1 := getSideOfPlane (position v1) worldPos in
  let d2 := getSideOfPlane (position v2) worldPos in
  let side0 := JS.Math_sign d0 in
  let side1 := JS.Math_sign d1 in
  let side2 := JS.Math_sign d2 in
  let sidesSum := (side0 + side1 + side2)%Z in
  if (sidesSum =? 3)%Z then addUpper st v0 v1 v2
  else if (sidesSum =? -3)%Z then addLower st v0 v1 v2
  else if (sidesSum =? 0)%Z && ((side0 =? 0)%Z || (side1 =? 0)%Z || (side2 =? 0)%Z)
  then addUpper st v0 v1 v2
  else splitTriangle v0 v1 v2 d0 d1 d2 st i0 i1 i2.

(** The values the loop counter takes: 0, 3, 6, ... below [len]. *)
Definition loopCounters (len : nat) : list nat :=
  map (fun k => (3 * k)%nat) (seq 0 ((len + 2) / 3)).

(** The state of the six arrays when the loop of [sliceMesh] ends. *)
Definition sliceLoop (positions : MeshAttributeAccessor Vec3)
    (normals : option (MeshAttributeAccessor Vec3))
    (texCoords : option (MeshAttributeAccessor Vec2))
    (worldPos : Vec3) (indices : list nat) : SliceState :=
  fold_left (processTriangle positions normals texCoords worldPos indices)
            (loopCounters (length indices)) emptyState.

Definition emptyMeshWarning : string :=
  "Slice resulted in empty mesh - slice plane may not intersect object".

(** [sliceMesh], up to the two calls of [createMeshObject]: [worldPos] is
    [originalObj.getPositionWorld()], and the hulls returned are the
    buffers those calls receive. *)
Definition sliceMesh (worldPos : Vec3) (originalMesh : Mesh) : Outcome :=
  match attrPosition originalMesh, indexData originalMesh with
  | Some positions, Some indices =>
      let normals := attrNormal originalMesh in
      let texCoords := attrTextureCoordinate originalMesh in
      let st := sliceLoop positions normals texCoords worldPos indices in
      if (length (upperVertices st) =? 0)%nat || (length (lowerVertices st) =? 0)%nat
      then mkOutcome None [emptyMeshWarning]
      else
        let '(uv, ui) :=
          generateCap (upperVertices st) (upperIndices st) (upperContour st) true in
        let '(lv, li) :=
          generateCap (lowerVertices st) (lowerIndices st) (lowerContour st) false in
        mkOutcome (Some (mkHull uv ui, mkHull lv li)) []
  | _, _ => mkOutcome None []
  end.

End Slicer.

(** ** Mesh creation: [createMeshObject] *)

(** [new Uint16Array(indices)] and [new Uint32Array(indices)] keep of each
    index its value modulo 2^16 and modulo 2^32. *)
Inductive IndexArray : Type :=
| Uint16Array (elements : list N)
| Uint32Array (elements : list N).

Definition elementsOf (a : IndexArray) : list N :=
  match a with Uint16Array l => l | Uint32Array l => l end.

Definition ToUint16 (n : nat) : N := (N.of_nat n mod 65536)%N.
Definition ToUint32 (n : nat) : N := (N.of_nat n mod 4294967296)%N.

(** [attr.set(i, x)] on the storage of an attribute; outside the storage
    nothing is written. *)
Fixpoint setAt {A : Type} (data : list A) (i : nat) (x : A) : list A :=
  match data, i with
  | [], _ => []
  | _ :: rest, O => x :: rest
  | y :: rest, S i' => y :: setAt rest i' x
  end.

(** The mesh that [createMeshObject] builds and attaches to the new
    object: what [meshes.create] was given and what the loops wrote to the
    attributes; [None] is an attribute the created mesh does not have. *)
Record CreatedMesh : Type := mkCreatedMesh {
  vertexCount : nat;
  createdIndexData : IndexArray;
  positionData : option (list Vec3);
  normalData : option (list Vec3);
  textureCoordinateData : option (list Vec2)
}.

Section CreateMesh.

(** Whether [mesh.attribute(...)] of a created mesh is there, and what the
    engine leaves in a fresh attribute. *)
Variable hasPosition hasNormal hasTextureCoordinate : bool.
Variable blank3 : Vec3.
Variable blank2 : Vec2.

(** [for (let i = 0; i < vertices.length; i++) attr.set(i, value(vertices[i]))]. *)
Definition setEach {B : Type} (value : SliceVertex -> B)
    (vertices : list SliceVertex) (data : list B) : list B :=
  fold_left
    (fun data i =>
       match nth_error vertices i with
       | Some v => setAt data i (value v)
       | None => data
       end)
    (seq 0 (length vertices)) data.

Definition createMeshObject (vertices : list SliceVertex) (indices : list nat)
    : CreatedMesh :=
  let indexArray :=
    if (65535 <? N.of_nat (length vertices))%N
    then Uint32Array (map ToUint32 indices)
    else Uint16Array (map ToUint16 indices) in
  {| vertexCount := length vertices;
     createdIndexData := indexArray;
     positionData :=
       if hasPosition
       then Some (setEach position vertices (repeat blank3 (length vertices)))
       else None;
     normalData :=
       if hasNormal
       then Some (setEach
                    (fun v => match normal v with
                              | Some n => n
                              | None => mkVec3 0 1 0
                              end)
                    vertices (repeat blank3 (length vertices)))
       else None;
     textureCoordinateData :=
       if hasTextureCoordinate
       then Some (setEach
                    (fun v => match texCoord v with
                              | Some uv => uv
                              | None => mkVec2 0 0
                              end)
                    vertices (repeat blank2 (length vertices)))
       else None |}.

End CreateMesh.

(** ** The fruit and the sword: [SliceableFruit] and [VRSword]

    The components live in the engine's heap and are reached through
    references: a component is an address of [Heap], and what a method
    does to the world outside the component is a list of events. *)

Inductive Message : Type :=
| FruitAlreadyDestroyed | FruitWasHit | DestroyingFruit
| NearFruit | FruitHit | FoundFruits (n : nat).

Inductive Event : Type :=
| ConsoleLog (m : Message)
| AddScore (points : Z)
| PlaySoundEffect (name : string)
| SpawnParticles (where_ : Vec3)
| DestroyObject (object : nat).

(** The fields of a [sliceable-fruit] component that the code below reads
    or writes; [onHitDefined] tells whether the component has an [onHit]
    method, as the class [SliceableFruit] has. *)
Module Fruit.
Record t : Type := mk {
  isDestroyed : bool;
  showDebug : bool;
  pointValue : Z;
  hitSoundName : string;
  hitEffectPrefab : bool;
  hitPosition : Vec3;
  onHitDefined : bool
}.

Definition setIsDestroyed (c : t) (b : bool) : t :=
  mk b (showDebug c) (pointValue c) (hitSoundName c) (hitEffectPrefab c)
     (hitPosition c) (onHitDefined c).

Definition setHitPosition (c : t) (p : Vec3) : t :=
  mk (isDestroyed c) (showDebug c) (pointValue c) (hitSoundName c)
     (hitEffectPrefab c) p (onHitDefined c).
End Fruit.

(** A string is truthy when it is not empty. *)
Definition truthy (s : string) : bool :=
  match s with EmptyString => false | _ => true end.

(** [SliceableFruit.onHit(hitPosition, hitVelocity)] on the component [c]
    of the object [object], which is at [objectPosition]: the component
    afterwards and the events. *)
Definition onHit (c : Fruit.t) (object : nat) (objectPosition : Vec3)
    (hitPosition : option Vec3) : Fruit.t * list Event :=
  if Fruit.isDestroyed c then
    (c, if Fruit.showDebug c then [ConsoleLog FruitAlreadyDestroyed] else [])
  else
    let log1 := if Fruit.showDebug c then [ConsoleLog FruitWasHit] else [] in
    let c := Fruit.setIsDestroyed c true in
    let c :=
      match hitPosition with
      | Some p => Fruit.setHitPosition c p
      | None => Fruit.setHitPosition c objectPosition
      end in
    let score := [AddScore (Fruit.pointValue c)] in
    let sound :=
      if truthy (Fruit.hitSoundName c)
      then [PlaySoundEffect (Fruit.hitSoundName c)] else [] in
    let particles :=
      if Fruit.hitEffectPrefab c then [SpawnParticles (Fruit.hitPosition c)] else [] in
    let log2 := if Fruit.showDebug c then [ConsoleLog DestroyingFruit] else [] in
    (c, log1 ++ score ++ sound ++ particles ++ log2 ++ [DestroyObject object]).

(** An object of the scene: its identity, whether it is active, its world
    position, its [sliceable-fruit] component if it has one, and its
    children. *)
#[warnings="-register-all"]
Inductive Object3D : Type :=
| mkObject3D (id : nat) (active : bool) (positionWorld : Vec3)
             (sliceable : option nat) (children : list Object3D).

Definition idOf (o : Object3D) : nat :=
  match o with mkObject3D id _ _ _ _ => id end.
Definition activeOf (o : Object3D) : bool :=
  match o with mkObject3D _ active _ _ _ => active end.
Definition positionWorldOf (o : Object3D) : Vec3 :=
  match o with mkObject3D _ _ p _ _ => p end.
Definition sliceableOf (o : Object3D) : option nat :=
  match o with mkObject3D _ _ _ s _ => s end.
Definition childrenOf (o : Object3D) : list Object3D :=
  match o with mkObject3D _ _ _ _ children => children end.

Definition Heap : Type := nat -> Fruit.t.

Definition store (h : Heap) (address : nat) (c : Fruit.t) : Heap :=
  fun a => if Nat.eqb a address then c else h a.

(** An element of [sliceableFruits]: [{ object, component }]. *)
Module Cached.
Record t : Type := mk { object : Object3D; component : nat }.
End Cached.

(** The heap and the events so far. *)
Record World : Type := mkWorld {
  heap : Heap;
  events : list Event
}.

(** The fields of [VRSword] read by the hit detection, and its cache. *)
Module Sword.
Record t : Type := mk {
  hitRadius : Q;
  showDebug : bool;
  lastPos : Vec3;
  currentPos : Vec3;
  velocity : Vec3;
  sliceableFruits : list Cached.t
}.

Definition setSliceableFruits (s : t) (cache : list Cached.t) : t :=
  mk (hitRadius s) (showDebug s) (lastPos s) (currentPos s) (velocity s) cache.
End Sword.

Section VRSword.

Variable Math_sqrt : Q -> Q.

(** [vec3.distance] and [Math.min]. *)
Definition vec3_distance (a b : Vec3) : Q :=
  let x := c0 b - c0 a in
  let y := c1 b - c1 a in
  let z := c2 b - c2 a in
  Math_sqrt (x * x + y * y + z * z).

Definition Math_min (a b : Q) : Q := if JS.lt b a then b else a.

(** The body of the loop of [collectActiveFruits] for one object, and the
    loop; [h] is the heap the components are read from. *)
Fixpoint collectObject (h : Heap) (obj : Object3D) (cache : list Cached.t)
    {struct obj} : list Cached.t :=
  match obj with
  | mkObject3D _ active _ sliceable children =>
      if active then
        let cache :=
          match sliceable with
          | Some c =>
              if negb (Fruit.isDestroyed (h c))
              then cache ++ [Cached.mk obj c]
              else cache
          | None => cache
          end in
        if (0 <? length children)%nat then
          (fix loop (objects : list Object3D) (cache : list Cached.t) : list Cached.t :=
             match objects with
             | [] => cache
             | o :: rest => loop rest (collectObject h o cache)
             end) children cache
        else cache
      else cache
  end.

Definition collectActiveFruits (h : Heap) (objects : list Object3D)
    (cache : list Cached.t) : list Cached.t :=
  fold_left (fun cache obj => collectObject h obj cache) objects cache.

(** [updateFruitCache], for the children [scene] of the scene root. *)
Definition updateFruitCache (scene : list Object3D) (s : Sword.t) (w : World)
    : Sword.t * World :=
  let cache := collectActiveFruits (heap w) scene [] in
  (Sword.setSliceableFruits s cache,
   mkWorld (heap w)
           (events w ++ if Sword.showDebug s
                        then [ConsoleLog (FoundFruits (length cache))] else [])).

Definition hitFruit (s : Sword.t) (fruit : Cached.t) (w : World) : World :=
  let address := Cached.component fruit in
  let h := store (heap w) address (Fruit.setIsDestroyed (heap w address) true) in
  let w :=
    if Fruit.onHitDefined (h address) then
      let '(c, ev) :=
        onHit (h address) (idOf (Cached.object fruit))
              (positionWorldOf (Cached.object fruit)) (Some (Sword.currentPos s)) in
      mkWorld (store h address c) (events w ++ ev)
    else
      mkWorld h (events w ++ [DestroyObject (idOf (Cached.object fruit))]) in
  if Sword.showDebug s
  then mkWorld (heap w) (events w ++ [ConsoleLog FruitHit])
  else w.

(** [sliceableFruits.splice(i, 1)]. *)
Definition splice1 {A : Type} (l : list A) (i : nat) : list A :=
  firstn i l ++ skipn (S i) l.

(** The body of the loop of [checkForHits] at counter [i]. *)
Definition checkAt (i : nat) (sw : Sword.t * World) : Sword.t * World :=
  let '(s, w) := sw in
  match nth_error (Sword.sliceableFruits s) i with
  | None => sw (* not reached: [i] stays below the length of the cache *)
  | Some fruit =>
      if negb (activeOf (Cached.object fruit))
         || Fruit.isDestroyed (heap w (Cached.component fruit))
      then (Sword.setSliceableFruits s (splice1 (Sword.sliceableFruits s) i), w)
      else
        let tempPos := positionWorldOf (Cached.object fruit) in
        let distance := vec3_distance (Sword.currentPos s) tempPos in
        let lastDistance := vec3_distance (Sword.lastPos s) tempPos in
        let minDistance := Math_min distance lastDistance in
        let w :=
          if Sword.showDebug s && JS.lt minDistance (Sword.hitRadius s * 2)
          then mkWorld (heap w) (events w ++ [ConsoleLog NearFruit])
          else w in
        if Qle_bool minDistance (Sword.hitRadius s)
        then (Sword.setSliceableFruits s (splice1 (Sword.sliceableFruits s) i),
              hitFruit s fruit w)
        else (s, w)
  end.

(** The loop of [checkForHits] from counter [n - 1] down to 0. *)
Fixpoint checkFrom (n : nat) (sw : Sword.t * World) : Sword.t * World :=
  match n with
  | O => sw
  | S i => checkFrom i (checkAt i sw)
  end.

Definition checkForHits (s : Sword.t) (w : World) : Sword.t * World :=
  checkFrom (length (Sword.sliceableFruits s)) (s, w).

End VRSword.

(** * The vocabulary of the claims

    What follows is not part of the component: it names what the claims
    speak about, in the words of the specification. *)

(** ** The four cases of the classification *)

Inductive Topology : Type := AllAbove | AllBelow | OnPlane | Straddle.

(** The sum of the three signs. *)
Definition sidesSum (d0 d1 d2 : Q) : Z :=
  (JS.Math_sign d0 + JS.Math_sign d1 + JS.Math_sign d2)%Z.

Definition someSignZero (d0 d1 d2 : Q) : Prop :=
  JS.Math_sign d0 = 0%Z \/ JS.Math_sign d1 = 0%Z \/ JS.Math_sign d2 = 0%Z.

(** When each of the four cases applies to three signed distances. *)
Definition applies (t : Topology) (d0 d1 d2 : Q) : Prop :=
  match t with
  | AllAbove => sidesSum d0 d1 d2 = 3%Z
  | AllBelow => sidesSum d0 d1 d2 = (-3)%Z
  | OnPlane => sidesSum d0 d1 d2 = 0%Z /\ someSignZero d0 d1 d2
  | Straddle =>
      sidesSum d0 d1 d2 <> 3%Z /\ sidesSum d0 d1 d2 <> (-3)%Z /\
      ~ (sidesSum d0 d1 d2 = 0%Z /\ someSignZero d0 d1 d2)
  end.

(** ** Pushes *)

(** [st] after [up] went to the upper hull, [lo] to the lower hull and
    [pts] to both contours, every vertex under a fresh index. *)
Definition emitted (st : SliceState) (up lo : list SliceVertex)
    (pts : list ContourPoint.t) : SliceState :=
  mkState (upperVertices st ++ up) (lowerVertices st ++ lo)
          (upperIndices st ++ seq (length (upperVertices st)) (length up))
          (lowerIndices st ++ seq (length (lowerVertices st)) (length lo))
          (upperContour st ++ pts) (lowerContour st ++ pts).

(** What is done with a triangle in each of the four cases. *)
Definition routed (Math_sqrt : Q -> Q) (t : Topology) (st : SliceState)
    (v0 v1 v2 : SliceVertex) (d0 d1 d2 : Q) (i0 i1 i2 : JS.index) : SliceState :=
  match t with
  | AllAbove => emitted st [v0; v1; v2] [] []
  | AllBelow => emitted st [] [v0; v1; v2] []
  | OnPlane => emitted st [v0; v1; v2] [] []
  | Straddle => splitTriangle Math_sqrt v0 v1 v2 d0 d1 d2 st i0 i1 i2
  end.

(** The triangles of a vertex buffer whose index buffer is 0, 1, 2, ... *)
Fixpoint trianglesOf (vs : list SliceVertex) : list (SliceVertex * SliceVertex * SliceVertex) :=
  match vs with
  | a :: b :: c :: rest => (a, b, c) :: trianglesOf rest
  | _ => []
  end.

(** ** Orientation *)

(** The cross product of two edges of a triangle is normal to its front
    face; two triangles of one plane wind the same way when these normals
    point the same way, opposite ways when they point opposite ways. *)
Definition sub3 (a b : Vec3) : Vec3 :=
  mkVec3 (c0 a - c0 b) (c1 a - c1 b) (c2 a - c2 b).

Definition cross (a b : Vec3) : Vec3 :=
  mkVec3 (c1 a * c2 b - c2 a * c1 b)
         (c2 a * c0 b - c0 a * c2 b)
         (c0 a * c1 b - c1 a * c0 b).

Definition dot (a b : Vec3) : Q := c0 a * c0 b + c1 a * c1 b + c2 a * c2 b.

Definition scale (k : Q) (a : Vec3) : Vec3 := mkVec3 (k * c0 a) (k * c1 a) (k * c2 a).

Definition sameVec (a b : Vec3) : Prop := c0 a == c0 b /\ c1 a == c1 b /\ c2 a == c2 b.

Definition faceNormal (a b c : SliceVertex) : Vec3 :=
  cross (sub3 (position b) (position a)) (sub3 (position c) (position a)).

(** The face normal of a triple of vertices. *)
Definition normalOf (t : SliceVertex * SliceVertex * SliceVertex) : Vec3 :=
  let '(a, b, c) := t in faceNormal a b c.

Definition sameWinding (t o : SliceVertex * SliceVertex * SliceVertex) : Prop :=
  0 < dot (normalOf t) (normalOf o).

Definition oppositeWinding (t o : SliceVertex * SliceVertex * SliceVertex) : Prop :=
  dot (normalOf t) (normalOf o) < 0.

(** ** Arrangements of three elements *)

(** [a; b; c] is one of the six arrangements of [e0; e1; e2]; the three
    even ones keep the cyclic order, the three odd ones reverse it. *)
Definition evenArranged {A : Type} (a b c e0 e1 e2 : A) : Prop :=
  (a, b, c) = (e0, e1, e2) \/ (a, b, c) = (e1, e2, e0) \/ (a, b, c) = (e2, e0, e1).

Definition oddArranged {A : Type} (a b c e0 e1 e2 : A) : Prop :=
  (a, b, c) = (e0, e2, e1) \/ (a, b, c) = (e1, e0, e2) \/ (a, b, c) = (e2, e1, e0).

Definition arranged {A : Type} (a b c e0 e1 e2 : A) : Prop :=
  evenArranged a b c e0 e1 e2 \/ oddArranged a b c e0 e1 e2.

(** ** The cap *)

Definition squaredDistance (p q : Vec3) : Q :=
  (c0 p - c0 q) * (c0 p - c0 q) + (c1 p - c1 q) * (c1 p - c1 q)
  + (c2 p - c2 q) * (c2 p - c2 q).

(** The sum and the mean of each coordinate over contour points. *)
Definition sumOf (f : Vec3 -> Q) (pts : list ContourPoint.t) : Q :=
  fold_right (fun pt s => f (ContourPoint.position pt) + s) 0 pts.

Definition isMean (centroid : Vec3) (pts : list ContourPoint.t) : Prop :=
  let n := inject_Z (Z.of_nat (length pts)) in
  c0 centroid == sumOf c0 pts / n /\
  c1 centroid == sumOf c1 pts / n /\
  c2 centroid == sumOf c2 pts / n.

(** The triangle of the fan at counter [i], for a cap of [n] contour points
    whose centroid vertex has index [base]. *)
Definition fanTriangle (isUpper : bool) (base n i : nat) : list nat :=
  let centre := base in
  let here := (base + 1 + i)%nat in
  let next := (base + 1 + (i + 1) mod n)%nat in
  if isUpper then [centre; here; next] else [centre; next; here].

(** ** Optional attributes *)

Definition present {A : Type} (o : option A) : bool :=
  match o with Some _ => true | None => false end.

(** A vertex carries exactly the optional attributes the source mesh has. *)
Definition mirrors (normals : option (MeshAttributeAccessor Vec3))
    (texCoords : option (MeshAttributeAccessor Vec2)) (v : SliceVertex) : Prop :=
  present (normal v) = present normals /\ present (texCoord v) = present texCoords.

Definition carriesBoth (v : SliceVertex) : Prop :=
  present (normal v) = true /\ present (texCoord v) = true.

Section Vocabulary.

Variable Math_sqrt : Q -> Q.
Variable slicePlaneNormal : Vec3.
Variable positions : MeshAttributeAccessor Vec3.
Variable normals : option (MeshAttributeAccessor Vec3).
Variable texCoords : option (MeshAttributeAccessor Vec2).
Variable worldPos : Vec3.
Variable indices : list nat.

(** *** One round of the loop *)

(** The vertex read for position [k] of the index buffer, and its signed
    distance, as the loop body computes them. *)
Definition vertexAt (k : nat) : SliceVertex :=
  getVertexData (JS.at_ indices k) positions normals texCoords.

Definition distanceAt (k : nat) : Q :=
  getSideOfPlane slicePlaneNormal (position (vertexAt k)) worldPos.

(** The triangle at counter [i] reaches only the upper hull, or only the
    lower hull. *)
Definition staysAbove (i : nat) : Prop :=
  applies AllAbove (distanceAt i) (distanceAt (i + 1)) (distanceAt (i + 2)) \/
  applies OnPlane (distanceAt i) (distanceAt (i + 1)) (distanceAt (i + 2)).

Definition staysBelow (i : nat) : Prop :=
  applies AllBelow (distanceAt i) (distanceAt (i + 1)) (distanceAt (i + 2)).

(** *** A split *)

(** The interpolation parameter of the edge from [x] to [y], the vertex
    cut on that edge and the contour point recorded for it. *)
Definition edgeParameter (x y : E.t) : Q :=
  JS.Math_abs (E.d x) / (JS.Math_abs (E.d x) + JS.Math_abs (E.d y)).

Definition edgeCut (x y : E.t) : SliceVertex :=
  interpolateVertex Math_sqrt (E.v x) (E.v y) (edgeParameter x y).

Definition edgePoint (x y : E.t) : ContourPoint.t :=
  ContourPoint.mk (position (edgeCut x y)) (E.i x, E.i y).

(** The ends of an edge lie on opposite sides of the plane (one of them
    may touch it, not both). *)
Definition crossing (x y : E.t) : Prop :=
  (E.d x <= 0 /\ 0 <= E.d y \/ 0 <= E.d x /\ E.d y <= 0) /\
  ~ (E.d x == 0 /\ E.d y == 0).

(** The three sub-triangles and the two contour points of a split:
    [p] and [q] are the two vertices of one sign, [r] the third; [two]
    are the six vertices of the two triangles on the side of [p] and
    [q], [one] the three vertices of the triangle on the side of [r]. *)
Inductive SplitShape (e0 e1 e2 : E.t)
  : list SliceVertex -> list SliceVertex -> list ContourPoint.t -> Prop :=
| TwoOne (p q r : E.t) :
    arranged p q r e0 e1 e2 ->
    JS.Math_sign (E.d p) = JS.Math_sign (E.d q) ->
    crossing p r -> crossing q r ->
    SplitShape e0 e1 e2
      [E.v p; E.v q; edgeCut p r; E.v q; edgeCut q r; edgeCut p r]
      [edgeCut p r; edgeCut q r; E.v r]
      [edgePoint p r; edgePoint q r]
| OneTwo (p q r : E.t) :
    arranged r p q e0 e1 e2 ->
    JS.Math_sign (E.d p) = JS.Math_sign (E.d q) ->
    crossing r p -> crossing r q ->
    SplitShape e0 e1 e2
      [edgeCut r p; E.v p; E.v q; edgeCut r p; E.v q; edgeCut r q]
      [E.v r; edgeCut r p; edgeCut r q]
      [edgePoint r p; edgePoint r q].

(** *** The cap *)

(** The normal of the cap of the upper and of the lower hull, and the
    vertex a cap has at a position. *)
Definition capNormalOf (isUpper : bool) : Vec3 :=
  if isUpper then slicePlaneNormal
  else mkVec3 (- c0 slicePlaneNormal) (- c1 slicePlaneNormal) (- c2 slicePlaneNormal).

Definition capVertex (isUpper : bool) (p : Vec3) : SliceVertex :=
  mkSliceVertex p (Some (capNormalOf isUpper)) (Some (mkVec2 (1 # 2) (1 # 2))).

End Vocabulary.

(** ** Sample inputs *)

Module Sample.

(** The default plane: normal [0, 1, 0] through the origin. *)
Definition up : Vec3 := mkVec3 0 1 0.
Definition origin : Vec3 := mkVec3 0 0 0.

(** An accessor over a list of values; [dflt] stands for whatever the
    engine returns outside the attribute. *)
Definition accessor {A : Type} (dflt : A) (l : list A) : MeshAttributeAccessor A :=
  mkAccessor (fun k => match k with Some k => nth k l dflt | None => dflt end).

(** One triangle with distances -1, -2, 1: it straddles the plane, and
    sorting by distance swaps its first two vertices. *)
Definition swapped : list Vec3 :=
  [mkVec3 0 (-1) 0; mkVec3 2 (-2) 0; mkVec3 0 1 0].

(** One triangle with distances 1, 0, -1: one vertex above the plane,
    one on it, one below. *)
Definition through : list Vec3 :=
  [mkVec3 0 1 0; mkVec3 1 0 0; mkVec3 0 (-1) 0].

(** One triangle above the plane. *)
Definition above : list Vec3 :=
  [mkVec3 0 1 0; mkVec3 1 2 0; mkVec3 0 3 1].

(** Two triangles above the plane that share an edge: four positions, six
    indices. *)
Definition quad : list Vec3 :=
  [mkVec3 0 1 0; mkVec3 1 1 0; mkVec3 1 1 1; mkVec3 0 1 1].
Definition quadIndices : list nat := [0; 1; 2; 0; 2; 3]%nat.

(** A tetrahedron with its apex above the plane and its base below. *)
Definition tetrahedron : list Vec3 :=
  [mkVec3 0 1 0; mkVec3 1 (-1) 0; mkVec3 (-1) (-1) 1; mkVec3 (-1) (-1) (-1)].
Definition tetrahedronIndices : list nat :=
  [0; 1; 2; 0; 2; 3; 0; 3; 1; 1; 3; 2]%nat.

(** A mesh of positions only. *)
Definition bare (ps : list Vec3) (ix : list nat) : Mesh :=
  mkMesh (Some (accessor origin ps)) None None (Some ix).

(** A mesh with every attribute. *)
Definition full (ps : list Vec3) (ix : list nat) : Mesh :=
  mkMesh (Some (accessor origin ps))
         (Some (accessor up (map (fun _ => up) ps)))
         (Some (accessor (mkVec2 0 0) (map (fun p => mkVec2 (c0 p) (c2 p)) ps)))
         (Some ix).

End Sample.

Module SwappedTriangle.
Import Sample.
Definition acc : MeshAttributeAccessor Vec3 := accessor origin swapped.
Definition ix : list nat := [0; 1; 2]%nat.
Definition vertex (k : nat) : SliceVertex := vertexAt acc None None ix k.
Definition distance (k : nat) : Q := distanceAt up acc None None origin ix k.
Definition entry (k : nat) : E.t := E.mk (vertex k) (distance k) (JS.at_ ix k).
Definition step (Math_sqrt : Q -> Q) : SliceState :=
  processTriangle Math_sqrt up acc None None origin ix emptyState 0.
End SwappedTriangle.

Module ThroughTriangle.
Import Sample.
Definition acc : MeshAttributeAccessor Vec3 := accessor origin through.
Definition ix : list nat := [0; 1; 2]%nat.
Definition vertex (k : nat) : SliceVertex := vertexAt acc None None ix k.
Definition distance (k : nat) : Q := distanceAt up acc None None origin ix k.
Definition step (Math_sqrt : Q -> Q) : SliceState :=
  processTriangle Math_sqrt up acc None None origin ix emptyState 0.
End ThroughTriangle.

Module AboveMesh.
Import Sample.
Definition acc : MeshAttributeAccessor Vec3 := accessor origin above.
Definition ix : list nat := [0; 1; 2]%nat.
Definition mesh : Mesh := bare above ix.
Definition distance (k : nat) : Q := distanceAt up acc None None origin ix k.
End AboveMesh.

Module Tetrahedron.
Import Sample.
Definition bareMesh : Mesh := bare tetrahedron tetrahedronIndices.
Definition fullMesh : Mesh := full tetrahedron tetrahedronIndices.
End Tetrahedron.

Module CapSample.
Import Sample.

(** Three contour points on the plane, each recorded twice, as two
    neighbouring triangles record a shared cut. *)
Definition pt (x z : Q) (a b : nat) : ContourPoint.t :=
  ContourPoint.mk (mkVec3 x 0 z) (Some a, Some b).
Definition ring : list ContourPoint.t :=
  [pt (1 # 2) 0 1 0; pt (-1 # 2) (1 # 2) 2 0; pt (-1 # 2) (1 # 2) 2 0;
   pt (-1 # 2) (-1 # 2) 3 0; pt (-1 # 2) (-1 # 2) 3 0; pt (1 # 2) 0 1 0].

(** Two contour points, each recorded twice. *)
Definition pair : list ContourPoint.t :=
  [pt (2 # 3) 0 1 2; pt 0 0 0 2; pt (2 # 3) 0 1 2; pt 0 0 0 2].

(** The hull the cap is added to: one triangle. *)
Definition vertices : list SliceVertex :=
  map (fun p => mkSliceVertex p None None) above.
Definition indices : list nat := [0; 1; 2]%nat.
End CapSample.

(** ** More vocabulary: the slicing as a whole *)

(** The test of the loop body for the splitting case, as a boolean. *)
Definition straddlesb (d0 d1 d2 : Q) : bool :=
  negb (sidesSum d0 d1 d2 =? 3)%Z && negb (sidesSum d0 d1 d2 =? -3)%Z
  && negb ((sidesSum d0 d1 d2 =? 0)%Z
           && ((JS.Math_sign d0 =? 0)%Z || (JS.Math_sign d1 =? 0)%Z
               || (JS.Math_sign d2 =? 0)%Z)).

(** A vertex and index buffer that is a list of triangles over its own
    vertices. *)
Definition triangleList (vertices : list SliceVertex) (indices : list nat) : Prop :=
  (exists T : nat, length indices = (3 * T)%nat) /\
  Forall (fun k => (k < length vertices)%nat) indices.

Definition negated (n : Vec3) : Vec3 := mkVec3 (- c0 n) (- c1 n) (- c2 n).

Section WholeVocabulary.

Variable slicePlaneNormal : Vec3.
Variable positions : MeshAttributeAccessor Vec3.
Variable normals : option (MeshAttributeAccessor Vec3).
Variable texCoords : option (MeshAttributeAccessor Vec2).
Variable worldPos : Vec3.
Variable indices : list nat.

(** The triangle at counter [i] is split. *)
Definition splitAt (i : nat) : bool :=
  straddlesb (distanceAt slicePlaneNormal positions normals texCoords worldPos indices i)
             (distanceAt slicePlaneNormal positions normals texCoords worldPos indices (i + 1))
             (distanceAt slicePlaneNormal positions normals texCoords worldPos indices (i + 2)).

(** No vertex of the triangle at counter [i] lies on the plane. *)
Definition offPlaneAt (i : nat) : Prop :=
  ~ distanceAt slicePlaneNormal positions normals texCoords worldPos indices i == 0 /\
  ~ distanceAt slicePlaneNormal positions normals texCoords worldPos indices (i + 1) == 0 /\
  ~ distanceAt slicePlaneNormal positions normals texCoords worldPos indices (i + 2) == 0.

(** The signed distance of a vertex and of a contour point. *)
Definition sideOf (v : SliceVertex) : Q :=
  getSideOfPlane slicePlaneNormal (position v) worldPos.

Definition sideOfPoint (pt : ContourPoint.t) : Q :=
  getSideOfPlane slicePlaneNormal (ContourPoint.position pt) worldPos.

End WholeVocabulary.

(** The three vertices of the triangle at counter [i] lie in the closed
    half-space behind the plane through [wallPoint] with normal
    [wallNormal]. *)
Definition insideAt (wallNormal wallPoint : Vec3)
    (positions : MeshAttributeAccessor Vec3)
    (normals : option (MeshAttributeAccessor Vec3))
    (texCoords : option (MeshAttributeAccessor Vec2))
    (indices : list nat) (i : nat) : Prop :=
  Forall (fun k => sideOf wallNormal wallPoint
                          (vertexAt positions normals texCoords indices k) <= 0)
         [i; (i + 1)%nat; (i + 2)%nat].

(** ** More vocabulary: the scene and the cache *)

(** [o] is reached by [collectActiveFruits] from [objects]: it is one of
    them, or a child of an active object that is reached. *)
Inductive reached (objects : list Object3D) : Object3D -> Prop :=
| reached_root (o : Object3D) : In o objects -> reached objects o
| reached_child (p o : Object3D) :
    reached objects p -> activeOf p = true -> In o (childrenOf p) ->
    reached objects o.

(** What makes [collectActiveFruits] push an entry for [o]. *)
Definition collectable (h : Heap) (e : Cached.t) : Prop :=
  activeOf (Cached.object e) = true /\
  sliceableOf (Cached.object e) = Some (Cached.component e) /\
  Fruit.isDestroyed (h (Cached.component e)) = false.

Section SwordVocabulary.

Variable Math_sqrt : Q -> Q.

(** The sword reaches the fruit: the smaller of its distances to the
    current and to the last position of the sword is at most the radius. *)
Definition inReach (s : Sword.t) (fruit : Cached.t) : bool :=
  Qle_bool
    (Math_min (vec3_distance Math_sqrt (Sword.currentPos s)
                             (positionWorldOf (Cached.object fruit)))
              (vec3_distance Math_sqrt (Sword.lastPos s)
                             (positionWorldOf (Cached.object fruit))))
    (Sword.hitRadius s).

(** The entry is of a live fruit: the object is active and the component
    not destroyed. *)
Definition live (h : Heap) (fruit : Cached.t) : bool :=
  activeOf (Cached.object fruit) && negb (Fruit.isDestroyed (h (Cached.component fruit))).

(** The entry stays in the cache: it is of a live fruit out of reach. *)
Definition stays (s : Sword.t) (h : Heap) (fruit : Cached.t) : bool :=
  live h fruit && negb (inReach s fruit).

(** The component at [address] belongs to an entry of [cache] that is of a
    live fruit in reach. *)
Definition wasHit (s : Sword.t) (h : Heap) (cache : list Cached.t) (address : nat) : bool :=
  existsb (fun fruit => Nat.eqb (Cached.component fruit) address
                        && live h fruit && inReach s fruit) cache.

End SwordVocabulary.


Definition isScore (e : Event) : bool :=
  match e with AddScore _ => true | _ => false end.

Definition isDestroy (e : Event) : bool :=
  match e with DestroyObject _ => true | _ => false end.

Definition isLog (e : Event) : bool :=
  match e with ConsoleLog _ => true | _ => false end.

(** No component is cached with two different objects. *)
Definition oneObjectPerComponent (cache : list Cached.t) : Prop :=
  forall e e' : Cached.t,
    In e cache -> In e' cache ->
    Cached.component e = Cached.component e' -> Cached.object e = Cached.object e'.

(** No component belongs to two different objects of the scene. *)
Definition oneOwner (objects : list Object3D) : Prop :=
  forall (o o' : Object3D) (c : nat),
    reached objects o -> reached objects o' ->
    sliceableOf o = Some c -> sliceableOf o' = Some c -> o = o'.

(** An event that is a line of the log, or the destruction of the object
    of a cached fruit whose component has no [onHit]. *)
Definition quiet (h : Heap) (cache : list Cached.t) (ev : Event) : Prop :=
  isLog ev = true \/
  exists fruit : Cached.t,
    In fruit cache /\ ev = DestroyObject (idOf (Cached.object fruit)) /\
    Fruit.onHitDefined (h (Cached.component fruit)) = false.

(** [onHit] called once for each element of [hits], in order. *)
Fixpoint onHitEach (c : Fruit.t) (object : nat) (objectPosition : Vec3)
    (hits : list (option Vec3)) : Fruit.t * list Event :=
  match hits with
  | [] => (c, [])
  | hitPosition :: rest =>
      let '(c, ev) := onHit c object objectPosition hitPosition in
      let '(c, ev') := onHitEach c object objectPosition rest in
      (c, ev ++ ev')
  end.

(** Induction over an object and its descendants. *)
Fixpoint Object3D_tree_ind (P : Object3D -> Prop)
    (H : forall id active positionWorld sliceable children,
        Forall P children -> P (mkObject3D id active positionWorld sliceable children))
    (o : Object3D) {struct o} : P o :=
  match o with
  | mkObject3D id active positionWorld sliceable children =>
      H id active positionWorld sliceable children
        ((fix all (l : list Object3D) : Forall P l :=
            match l with
            | [] => Forall_nil P
            | x :: rest => Forall_cons x (Object3D_tree_ind P H x) (all rest)
            end) children)
  end.

(** ** More sample inputs *)

Module SwordSample.

(** A fruit component as [init] leaves it, worth ten points. *)
Definition fruit0 : Fruit.t := Fruit.mk false false 10 "" false Sample.origin true.

Definition apple : Object3D := mkObject3D 1 true (mkVec3 0 0 0) (Some 0%nat) [].
Definition pear : Object3D := mkObject3D 2 true (mkVec3 5 0 0) (Some 1%nat) [].
Definition hidden : Object3D := mkObject3D 4 true (mkVec3 0 0 0) (Some 2%nat) [].
Definition crate : Object3D := mkObject3D 3 false (mkVec3 0 0 0) None [hidden].

Definition scene : list Object3D := [apple; pear; crate].

Definition heap0 : Heap := fun _ => fruit0.

Definition sword : Sword.t :=
  Sword.mk (1 # 2) false (mkVec3 0 1 0) (mkVec3 0 0 0) (mkVec3 0 (-1) 0)
           [Cached.mk apple 0; Cached.mk pear 1].

Definition world0 : World := mkWorld heap0 [].

End SwordSample.

Module BufferSample.
Definition vertices : list SliceVertex :=
  [mkSliceVertex (mkVec3 0 0 0) None None;
   mkSliceVertex (mkVec3 1 0 0) (Some (mkVec3 0 0 1)) None;
   mkSliceVertex (mkVec3 0 1 0) None (Some (mkVec2 1 1))].
Definition indices : list nat := [0; 1; 2; 2; 1; 0]%nat.
End BufferSample.

(** * Lemmas *)

(** ** Numbers *)

Lemma lt_true_iff (a b : Q) : JS.lt a b = true <-> a < b.
Proof.
  unfold JS.lt. rewrite negb_true_iff. split; intro H.
  - apply Qnot_le_lt. intro Hle. apply Qle_bool_iff in Hle. congruence.
  - destruct (Qle_bool b a) eqn:Hb; [|reflexivity].
    apply Qle_bool_iff in Hb. exfalso. eapply Qlt_not_le; eassumption.
Qed.

Lemma lt_false_iff (a b : Q) : JS.lt a b = false <-> b <= a.
Proof.
  unfold JS.lt. rewrite negb_false_iff. apply Qle_bool_iff.
Qed.

Lemma Math_sign_cases (q : Q) :
  (q < 0 /\ JS.Math_sign q = (-1)%Z) \/
  (q == 0 /\ JS.Math_sign q = 0%Z) \/
  (0 < q /\ JS.Math_sign q = 1%Z).
Proof.
  destruct q as [n dn]. unfold Qlt, Qeq, JS.Math_sign. simpl.
  destruct n; simpl; [right; left | right; right | left]; split; try reflexivity; lia.
Qed.

(** The three signs case by case: the tactic behind the sign arguments. *)
Ltac sign_cases d :=
  let H := fresh "Hd" in
  let E := fresh "Es" in
  destruct (Math_sign_cases d) as [[H E]|[[H E]|[H E]]].

(** What the cases mean for the distances themselves. *)
Lemma applies_AllAbove (d0 d1 d2 : Q) :
  applies AllAbove d0 d1 d2 <-> 0 < d0 /\ 0 < d1 /\ 0 < d2.
Proof.
  unfold applies, sidesSum.
  sign_cases d0; sign_cases d1; sign_cases d2; rewrite Es, Es0, Es1;
    split; intros; try lia; try lra; repeat split; auto; lra.
Qed.

Lemma applies_AllBelow (d0 d1 d2 : Q) :
  applies AllBelow d0 d1 d2 <-> d0 < 0 /\ d1 < 0 /\ d2 < 0.
Proof.
  unfold applies, sidesSum.
  sign_cases d0; sign_cases d1; sign_cases d2; rewrite Es, Es0, Es1;
    split; intros; try lia; try lra; repeat split; auto; lra.
Qed.

(** The third case holds of a triangle that lies in the plane, and of every
    triangle with one vertex on the plane, one strictly above and one
    strictly below. *)
Lemma applies_OnPlane (d0 d1 d2 : Q) :
  applies OnPlane d0 d1 d2 <->
  (d0 == 0 /\ d1 == 0 /\ d2 == 0) \/
  ((d0 == 0 \/ d1 == 0 \/ d2 == 0) /\
   (0 < d0 \/ 0 < d1 \/ 0 < d2) /\
   (d0 < 0 \/ d1 < 0 \/ d2 < 0)).
Proof.
  unfold applies, sidesSum, someSignZero.
  sign_cases d0; sign_cases d1; sign_cases d2; rewrite Es, Es0, Es1;
    split; intro H; try lia; try lra.
Qed.

Lemma applies_decide (d0 d1 d2 : Q) :
  exists t, applies t d0 d1 d2 /\ forall t', applies t' d0 d1 d2 -> t' = t.
Proof.
  unfold applies, someSignZero, sidesSum.
  sign_cases d0; sign_cases d1; sign_cases d2; rewrite Es, Es0, Es1;
    first
      [ exists AllAbove; split; [lia|]; intros [] ?; (reflexivity || (exfalso; lia))
      | exists AllBelow; split; [lia|]; intros [] ?; (reflexivity || (exfalso; lia))
      | exists OnPlane; split; [lia|]; intros [] ?; (reflexivity || (exfalso; lia))
      | exists Straddle; split; [lia|]; intros [] ?; (reflexivity || (exfalso; lia)) ].
Qed.

(** ** Pushing triangles *)

Lemma emitted_nil (st : SliceState) : emitted st [] [] [] = st.
Proof.
  destruct st. unfold emitted. simpl. rewrite !app_nil_r. reflexivity.
Qed.

Lemma seq_three (n : nat) : [n; n + 1; n + 2]%nat = seq n 3.
Proof. simpl. rewrite Nat.add_1_r. replace (n + 2)%nat with (S (S n)) by lia. reflexivity. Qed.

Lemma emitted_emitted st up lo pts up' lo' pts' :
  emitted (emitted st up lo pts) up' lo' pts' =
  emitted st (up ++ up') (lo ++ lo') (pts ++ pts').
Proof.
  unfold emitted. simpl.
  rewrite !length_app, !seq_app, <- !app_assoc. reflexivity.
Qed.

Lemma addUpper_whole st v0 v1 v2 : addUpper st v0 v1 v2 = emitted st [v0; v1; v2] [] [].
Proof.
  unfold addUpper, addTriangle, emitted. simpl.
  rewrite seq_three, !app_nil_r. reflexivity.
Qed.

Lemma addLower_whole st v0 v1 v2 : addLower st v0 v1 v2 = emitted st [] [v0; v1; v2] [].
Proof.
  unfold addLower, addTriangle, emitted. simpl.
  rewrite seq_three, !app_nil_r. reflexivity.
Qed.

Lemma pushContours_whole st pt1 pt2 : pushContours st pt1 pt2 = emitted st [] [] [pt1; pt2].
Proof.
  unfold pushContours, emitted. simpl. rewrite !app_nil_r. reflexivity.
Qed.

(** ** Sorting three elements *)

Lemma arranged_In {A : Type} (a b c e0 e1 e2 : A) :
  arranged a b c e0 e1 e2 ->
  In a [e0; e1; e2] /\ In b [e0; e1; e2] /\ In c [e0; e1; e2].
Proof.
  intros [[H|[H|H]]|[H|[H|H]]]; inversion H; subst; simpl; tauto.
Qed.

Lemma arranged_Permutation {A : Type} (a b c e0 e1 e2 : A) :
  arranged a b c e0 e1 e2 -> Permutation [a; b; c] [e0; e1; e2].
Proof.
  intros [[H|[H|H]]|[H|[H|H]]]; inversion H; subst; clear H.
  - apply Permutation_refl.
  - eapply perm_trans; [apply perm_skip, perm_swap|]. apply perm_swap.
  - eapply perm_trans; [apply perm_swap|]. apply perm_skip, perm_swap.
  - apply perm_skip, perm_swap.
  - apply perm_swap.
  - eapply perm_trans; [apply perm_skip, perm_swap|].
    eapply perm_trans; [apply perm_swap|]. apply perm_skip, perm_swap.
Qed.

Section Sort3.

Variable A : Type.
Variable key : A -> Q.

Let cmp (a b : A) : Q := key a - key b.

Lemma lt_cmp_true a b : JS.lt (cmp a b) 0 = true -> key a < key b.
Proof. unfold cmp. rewrite lt_true_iff. lra. Qed.

Lemma lt_cmp_false a b : JS.lt (cmp a b) 0 = false -> key b <= key a.
Proof. unfold cmp. rewrite lt_false_iff. lra. Qed.

(** Sorting keeps every element, whatever the length of the array. *)
Lemma insert_perm (x : A) (l : list A) : Permutation (x :: l) (JS.insert cmp x l).
Proof.
  induction l as [|y l IH]; simpl; [apply Permutation_refl|].
  destruct (JS.lt (cmp x y) 0); [apply Permutation_refl|].
  eapply perm_trans; [apply perm_swap | apply perm_skip, IH].
Qed.

Lemma sort_acc_perm (l acc : list A) :
  Permutation (l ++ acc) (fold_left (fun acc x => JS.insert cmp x acc) l acc).
Proof.
  revert acc. induction l as [|x l IH]; intro acc; simpl; [apply Permutation_refl|].
  eapply perm_trans; [|apply IH].
  eapply perm_trans; [apply Permutation_middle|].
  apply Permutation_app_head, insert_perm.
Qed.

Lemma sort_perm (l : list A) : Permutation l (JS.sort cmp l).
Proof.
  unfold JS.sort. eapply perm_trans; [|apply sort_acc_perm].
  rewrite app_nil_r. apply Permutation_refl.
Qed.

(** The sorted array of three elements, in full. *)
Lemma sort3 (e0 e1 e2 : A) :
  exists a b c,
    JS.sort cmp [e0; e1; e2] = [a; b; c] /\
    arranged a b c e0 e1 e2 /\
    key a <= key b /\ key b <= key c.
Proof.
  unfold JS.sort. simpl.
  destruct (JS.lt (cmp e1 e0) 0) eqn:H10; simpl;
    [ destruct (JS.lt (cmp e2 e1) 0) eqn:H21; simpl;
      [| destruct (JS.lt (cmp e2 e0) 0) eqn:H20; simpl ]
    | destruct (JS.lt (cmp e2 e0) 0) eqn:H20; simpl;
      [| destruct (JS.lt (cmp e2 e1) 0) eqn:H21; simpl ] ];
    repeat match goal with
           | H : JS.lt (cmp _ _) 0 = true |- _ => apply lt_cmp_true in H
           | H : JS.lt (cmp _ _) 0 = false |- _ => apply lt_cmp_false in H
           end;
    do 3 eexists; (split; [reflexivity|]); (split; [|split; lra]);
    unfold arranged, evenArranged, oddArranged; tauto.
Qed.

End Sort3.

(** ** What [splitTriangle] pushes *)

Section Split.

Variable Math_sqrt : Q -> Q.

Lemma sidesSum_arranged (a b c e0 e1 e2 : E.t) :
  arranged a b c e0 e1 e2 ->
  sidesSum (E.d a) (E.d b) (E.d c) = sidesSum (E.d e0) (E.d e1) (E.d e2) /\
  (someSignZero (E.d a) (E.d b) (E.d c) <->
   someSignZero (E.d e0) (E.d e1) (E.d e2)).
Proof.
  unfold sidesSum, someSignZero.
  intros [[H|[H|H]]|[H|[H|H]]]; inversion H; subst; clear H;
    (split; [lia | tauto]).
Qed.

Lemma Straddle_arranged (a b c e0 e1 e2 : E.t) :
  arranged a b c e0 e1 e2 ->
  applies Straddle (E.d e0) (E.d e1) (E.d e2) ->
  applies Straddle (E.d a) (E.d b) (E.d c).
Proof.
  intros Harr. destruct (sidesSum_arranged _ _ _ _ _ _ Harr) as [Hs Hz].
  unfold applies. rewrite Hs, Hz. tauto.
Qed.

(** Settles a side condition on the signs of the sorted distances. *)
Ltac by_signs a b c :=
  unfold applies, sidesSum, someSignZero, crossing in *;
  sign_cases (E.d a); sign_cases (E.d b); sign_cases (E.d c);
  repeat match goal with
         | E : JS.Math_sign _ = _ |- _ => rewrite E in *; clear E
         end;
  try (exfalso; lia); try (exfalso; lra);
  repeat split; try reflexivity; try lra; try (intros [? ?]; lra);
  try (left; split; lra); try (right; split; lra).

(** The four branches of [splitTriangle], on the sorted elements. *)
Lemma splitTriangle_cases (v0 v1 v2 : SliceVertex) (d0 d1 d2 : Q)
    (st : SliceState) (i0 i1 i2 : JS.index) :
  exists a b c,
    arranged a b c (E.mk v0 d0 i0) (E.mk v1 d1 i1) (E.mk v2 d2 i2) /\
    E.d a <= E.d b /\ E.d b <= E.d c /\
    ((JS.Math_sign (E.d a) = JS.Math_sign (E.d b) /\ E.d a < 0 /\
      splitTriangle Math_sqrt v0 v1 v2 d0 d1 d2 st i0 i1 i2 =
      emitted st
        [edgeCut Math_sqrt a c; edgeCut Math_sqrt b c; E.v c]
        [E.v a; E.v b; edgeCut Math_sqrt a c;
         E.v b; edgeCut Math_sqrt b c; edgeCut Math_sqrt a c]
        [edgePoint Math_sqrt a c; edgePoint Math_sqrt b c]) \/
     (JS.Math_sign (E.d a) = JS.Math_sign (E.d b) /\ 0 <= E.d a /\
      splitTriangle Math_sqrt v0 v1 v2 d0 d1 d2 st i0 i1 i2 =
      emitted st
        [E.v a; E.v b; edgeCut Math_sqrt a c;
         E.v b; edgeCut Math_sqrt b c; edgeCut Math_sqrt a c]
        [edgeCut Math_sqrt a c; edgeCut Math_sqrt b c; E.v c]
        [edgePoint Math_sqrt a c; edgePoint Math_sqrt b c]) \/
     (JS.Math_sign (E.d a) <> JS.Math_sign (E.d b) /\ E.d a < 0 /\
      splitTriangle Math_sqrt v0 v1 v2 d0 d1 d2 st i0 i1 i2 =
      emitted st
        [edgeCut Math_sqrt a b; E.v b; E.v c;
         edgeCut Math_sqrt a b; E.v c; edgeCut Math_sqrt a c]
        [E.v a; edgeCut Math_sqrt a b; edgeCut Math_sqrt a c]
        [edgePoint Math_sqrt a b; edgePoint Math_sqrt a c]) \/
     (JS.Math_sign (E.d a) <> JS.Math_sign (E.d b) /\ 0 <= E.d a /\
      splitTriangle Math_sqrt v0 v1 v2 d0 d1 d2 st i0 i1 i2 =
      emitted st
        [E.v a; edgeCut Math_sqrt a b; edgeCut Math_sqrt a c]
        [edgeCut Math_sqrt a b; E.v b; E.v c;
         edgeCut Math_sqrt a b; E.v c; edgeCut Math_sqrt a c]
        [edgePoint Math_sqrt a b; edgePoint Math_sqrt a c])).
Proof.
  destruct (sort3 E.t E.d (E.mk v0 d0 i0) (E.mk v1 d1 i1) (E.mk v2 d2 i2))
    as (a & b & c & Hsort & Harr & Hab & Hbc).
  exists a, b, c. repeat (split; [assumption|]).
  unfold splitTriangle. rewrite Hsort. clear Hsort. cbv beta iota zeta.
  destruct (Z.eqb_spec (JS.Math_sign (E.d a)) (JS.Math_sign (E.d b))) as [Hsame|Hdiff];
    destruct (JS.lt (E.d a) 0) eqn:Hlt;
    [apply lt_true_iff in Hlt | apply lt_false_iff in Hlt
    |apply lt_true_iff in Hlt | apply lt_false_iff in Hlt];
    rewrite !addUpper_whole, !addLower_whole, pushContours_whole, !emitted_emitted;
    simpl app.
  - left. repeat (split; [assumption|]). reflexivity.
  - right; left. repeat (split; [assumption|]). reflexivity.
  - right; right; left. repeat (split; [assumption|]). reflexivity.
  - right; right; right. repeat (split; [assumption|]). reflexivity.
Qed.

Lemma splitTriangle_shape (v0 v1 v2 : SliceVertex) (d0 d1 d2 : Q)
    (st : SliceState) (i0 i1 i2 : JS.index) :
  applies Straddle d0 d1 d2 ->
  exists two one pts,
    SplitShape Math_sqrt (E.mk v0 d0 i0) (E.mk v1 d1 i1) (E.mk v2 d2 i2) two one pts /\
    (splitTriangle Math_sqrt v0 v1 v2 d0 d1 d2 st i0 i1 i2 = emitted st two one pts \/
     splitTriangle Math_sqrt v0 v1 v2 d0 d1 d2 st i0 i1 i2 = emitted st one two pts).
Proof.
  intro Hstr.
  destruct (splitTriangle_cases v0 v1 v2 d0 d1 d2 st i0 i1 i2)
    as (a & b & c & Harr & Hab & Hbc & Hcases).
  pose proof (Straddle_arranged _ _ _ _ _ _ Harr Hstr) as Habc. clear Hstr.
  destruct Hcases as [(Hs & Hlt & ->)|[(Hs & Hlt & ->)|[(Hs & Hlt & ->)|(Hs & Hlt & ->)]]].
  - do 3 eexists. split; [|right; reflexivity].
    apply (TwoOne Math_sqrt _ _ _ a b c Harr Hs); by_signs a b c.
  - do 3 eexists. split; [|left; reflexivity].
    apply (TwoOne Math_sqrt _ _ _ a b c Harr Hs); by_signs a b c.
  - do 3 eexists. split; [|left; reflexivity].
    apply (OneTwo Math_sqrt _ _ _ b c a Harr); by_signs a b c.
  - do 3 eexists. split; [|right; reflexivity].
    apply (OneTwo Math_sqrt _ _ _ b c a Harr); by_signs a b c.
Qed.

End Split.

(** ** The cut vertex lies on the plane *)

Lemma interpolate_distance (Math_sqrt : Q -> Q) (N wp : Vec3)
    (va vb : SliceVertex) (t : Q) :
  getSideOfPlane N (position (interpolateVertex Math_sqrt va vb t)) wp ==
  getSideOfPlane N (position va) wp
  + (getSideOfPlane N (position vb) wp - getSideOfPlane N (position va) wp) * t.
Proof. unfold getSideOfPlane, interpolateVertex. simpl. ring. Qed.

Lemma crossing_parameter_zero (a b : Q) :
  (a <= 0 /\ 0 <= b \/ 0 <= a /\ b <= 0) ->
  ~ (a == 0 /\ b == 0) ->
  a + (b - a) * (Qabs a / (Qabs a + Qabs b)) == 0.
Proof.
  intros [[Ha Hb]|[Ha Hb]] Hnz.
  - rewrite (Qabs_neg a Ha), (Qabs_pos b Hb). field.
    intro H. apply Hnz. split; lra.
  - rewrite (Qabs_pos a Ha), (Qabs_neg b Hb). field.
    intro H. apply Hnz. split; lra.
Qed.

Lemma edgeCut_on_plane (Math_sqrt : Q -> Q) (N wp : Vec3) (x y : E.t) :
  E.d x = getSideOfPlane N (position (E.v x)) wp ->
  E.d y = getSideOfPlane N (position (E.v y)) wp ->
  crossing x y ->
  getSideOfPlane N (ContourPoint.position (edgePoint Math_sqrt x y)) wp == 0.
Proof.
  intros Hx Hy [Hsides Hnz]. unfold edgePoint. cbn [ContourPoint.position].
  unfold edgeCut, edgeParameter, JS.Math_abs.
  eapply Qeq_trans; [apply interpolate_distance|].
  rewrite <- Hx, <- Hy.
  apply crossing_parameter_zero; assumption.
Qed.

(** ** The winding of the sub-triangles *)

Lemma edgeParameter_range (x y : E.t) :
  0 <= edgeParameter x y /\ edgeParameter x y <= 1.
Proof.
  unfold edgeParameter, JS.Math_abs.
  pose proof (Qabs_nonneg (E.d x)) as Hx. pose proof (Qabs_nonneg (E.d y)) as Hy.
  destruct (Qeq_dec (Qabs (E.d x) + Qabs (E.d y)) 0) as [Hz|Hnz].
  - rewrite Hz. unfold Qdiv. setoid_replace (/ 0) with 0 by reflexivity.
    split; lra.
  - assert (Hpos : 0 < Qabs (E.d x) + Qabs (E.d y)) by lra.
    split.
    + apply Qle_shift_div_l; [exact Hpos | lra].
    + apply Qle_shift_div_r; [exact Hpos | lra].
Qed.

(** Each sub-triangle of either branch has the face normal of the sorted
    triangle, scaled. *)
Lemma twoOne_normals (Math_sqrt : Q -> Q) (A B C : SliceVertex) (t1 t2 : Q) :
  let I1 := interpolateVertex Math_sqrt A C t1 in
  let I2 := interpolateVertex Math_sqrt B C t2 in
  sameVec (faceNormal A B I1) (scale t1 (faceNormal A B C)) /\
  sameVec (faceNormal B I2 I1) (scale (t2 * (1 - t1)) (faceNormal A B C)) /\
  sameVec (faceNormal I1 I2 C) (scale ((1 - t1) * (1 - t2)) (faceNormal A B C)).
Proof.
  unfold sameVec, faceNormal, cross, sub3, scale, interpolateVertex. simpl.
  repeat split; ring.
Qed.

Lemma oneTwo_normals (Math_sqrt : Q -> Q) (A B C : SliceVertex) (t1 t2 : Q) :
  let I1 := interpolateVertex Math_sqrt A B t1 in
  let I2 := interpolateVertex Math_sqrt A C t2 in
  sameVec (faceNormal A I1 I2) (scale (t1 * t2) (faceNormal A B C)) /\
  sameVec (faceNormal I1 B C) (scale (1 - t1) (faceNormal A B C)) /\
  sameVec (faceNormal I1 C I2) (scale (t1 * (1 - t2)) (faceNormal A B C)).
Proof.
  unfold sameVec, faceNormal, cross, sub3, scale, interpolateVertex. simpl.
  repeat split; ring.
Qed.

(** An even arrangement keeps the face normal, an odd one negates it. *)
Lemma faceNormal_even (a b c e0 e1 e2 : SliceVertex) (k : Q) :
  evenArranged a b c e0 e1 e2 ->
  sameVec (scale k (faceNormal a b c)) (scale k (faceNormal e0 e1 e2)).
Proof.
  intros [H|[H|H]]; inversion H; subst;
    unfold sameVec, faceNormal, cross, sub3, scale; simpl; repeat split; ring.
Qed.

Lemma faceNormal_odd (a b c e0 e1 e2 : SliceVertex) (k : Q) :
  oddArranged a b c e0 e1 e2 ->
  sameVec (scale k (faceNormal a b c)) (scale (- k) (faceNormal e0 e1 e2)).
Proof.
  intros [H|[H|H]]; inversion H; subst;
    unfold sameVec, faceNormal, cross, sub3, scale; simpl; repeat split; ring.
Qed.

Lemma sameVec_trans (a b c : Vec3) : sameVec a b -> sameVec b c -> sameVec a c.
Proof.
  intros (H0 & H1 & H2) (K0 & K1 & K2).
  repeat split; eapply Qeq_trans; eassumption.
Qed.

Lemma arranged_vertices (a b c e0 e1 e2 : E.t) :
  (evenArranged a b c e0 e1 e2 ->
   evenArranged (E.v a) (E.v b) (E.v c) (E.v e0) (E.v e1) (E.v e2)) /\
  (oddArranged a b c e0 e1 e2 ->
   oddArranged (E.v a) (E.v b) (E.v c) (E.v e0) (E.v e1) (E.v e2)).
Proof.
  unfold evenArranged, oddArranged.
  split; intros [H|[H|H]]; inversion H; subst; tauto.
Qed.

(** Every sub-triangle of a split has the face normal of the original
    triangle scaled by some [k >= 0] when sorting arranged the vertices
    evenly, and by [- k] when it arranged them oddly: the winding of the
    original triangle is kept in the first case and reversed in the
    second. *)
Lemma splitTriangle_winding (Math_sqrt : Q -> Q) (v0 v1 v2 : SliceVertex)
    (d0 d1 d2 : Q) (st : SliceState) (i0 i1 i2 : JS.index) :
  exists a b c up lo pts,
    JS.sort (fun x y => E.d x - E.d y) [E.mk v0 d0 i0; E.mk v1 d1 i1; E.mk v2 d2 i2]
    = [a; b; c] /\
    splitTriangle Math_sqrt v0 v1 v2 d0 d1 d2 st i0 i1 i2 = emitted st up lo pts /\
    forall t, In t (trianglesOf up ++ trianglesOf lo) ->
      exists k, 0 <= k /\
        (evenArranged a b c (E.mk v0 d0 i0) (E.mk v1 d1 i1) (E.mk v2 d2 i2) ->
         sameVec (normalOf t) (scale k (faceNormal v0 v1 v2))) /\
        (oddArranged a b c (E.mk v0 d0 i0) (E.mk v1 d1 i1) (E.mk v2 d2 i2) ->
         sameVec (normalOf t) (scale (- k) (faceNormal v0 v1 v2))).
Proof.
  destruct (sort3 E.t E.d (E.mk v0 d0 i0) (E.mk v1 d1 i1) (E.mk v2 d2 i2))
    as (a & b & c & Hsort & _).
  exists a, b, c.
  pose proof (edgeParameter_range a b) as [Hab0 Hab1].
  pose proof (edgeParameter_range a c) as [Hac0 Hac1].
  pose proof (edgeParameter_range b c) as [Hbc0 Hbc1].
  destruct (arranged_vertices a b c (E.mk v0 d0 i0) (E.mk v1 d1 i1) (E.mk v2 d2 i2))
    as [Hev Hod]. cbn [E.v] in Hev, Hod.
  destruct (twoOne_normals Math_sqrt (E.v a) (E.v b) (E.v c)
              (edgeParameter a c) (edgeParameter b c)) as (T1 & T2 & T3).
  destruct (oneTwo_normals Math_sqrt (E.v a) (E.v b) (E.v c)
              (edgeParameter a b) (edgeParameter a c)) as (O1 & O2 & O3).
  cbv zeta in T1, T2, T3, O1, O2, O3.
  assert (Hk : forall t k,
             0 <= k ->
             sameVec (normalOf t) (scale k (faceNormal (E.v a) (E.v b) (E.v c))) ->
             exists k, 0 <= k /\
               (evenArranged a b c (E.mk v0 d0 i0) (E.mk v1 d1 i1) (E.mk v2 d2 i2) ->
                sameVec (normalOf t) (scale k (faceNormal v0 v1 v2))) /\
               (oddArranged a b c (E.mk v0 d0 i0) (E.mk v1 d1 i1) (E.mk v2 d2 i2) ->
                sameVec (normalOf t) (scale (- k) (faceNormal v0 v1 v2)))).
  { intros t k Hk Ht. exists k. split; [exact Hk|]. split; intro Harr.
    - eapply sameVec_trans; [exact Ht|]. apply faceNormal_even, Hev, Harr.
    - eapply sameVec_trans; [exact Ht|]. apply faceNormal_odd, Hod, Harr. }
  unfold splitTriangle. rewrite Hsort. cbv beta iota zeta.
  fold (edgeParameter a b) (edgeParameter a c) (edgeParameter b c).
  destruct (JS.Math_sign (E.d a) =? JS.Math_sign (E.d b))%Z;
    destruct (JS.lt (E.d a) 0);
    rewrite !addUpper_whole, !addLower_whole, pushContours_whole, !emitted_emitted;
    simpl app; do 3 eexists; (split; [reflexivity|]); (split; [reflexivity|]);
    intros t Ht; simpl in Ht;
    destruct Ht as [<-|[<-|[<-|[]]]];
    first [ apply (Hk _ (edgeParameter a c)); [exact Hac0 | exact T1]
          | apply (Hk _ (edgeParameter b c * (1 - edgeParameter a c))); [nra | exact T2]
          | apply (Hk _ ((1 - edgeParameter a c) * (1 - edgeParameter b c))); [nra | exact T3]
          | apply (Hk _ (edgeParameter a b * edgeParameter a c)); [nra | exact O1]
          | apply (Hk _ (1 - edgeParameter a b)); [lra | exact O2]
          | apply (Hk _ (edgeParameter a b * (1 - edgeParameter a c))); [nra | exact O3] ].
Qed.

(** ** The loop body of [sliceMesh] *)

Section LoopBody.

Variable Math_sqrt : Q -> Q.
Variable slicePlaneNormal : Vec3.
Variable positions : MeshAttributeAccessor Vec3.
Variable normals : option (MeshAttributeAccessor Vec3).
Variable texCoords : option (MeshAttributeAccessor Vec2).
Variable worldPos : Vec3.
Variable indices : list nat.

Let step := processTriangle Math_sqrt slicePlaneNormal positions normals
                            texCoords worldPos indices.
Let vertex := vertexAt positions normals texCoords indices.
Let distance := distanceAt slicePlaneNormal positions normals texCoords
                           worldPos indices.

Lemma processTriangle_routed (st : SliceState) (i : nat) (t : Topology) :
  applies t (distance i) (distance (i + 1)) (distance (i + 2)) ->
  step st i =
  routed Math_sqrt t st (vertex i) (vertex (i + 1)) (vertex (i + 2))
         (distance i) (distance (i + 1)) (distance (i + 2))
         (JS.at_ indices i) (JS.at_ indices (i + 1)) (JS.at_ indices (i + 2)).
Proof.
  intro Ht.
  change (step st i) with
    (if (sidesSum (distance i) (distance (i + 1)) (distance (i + 2)) =? 3)%Z
     then addUpper st (vertex i) (vertex (i + 1)) (vertex (i + 2))
     else if (sidesSum (distance i) (distance (i + 1)) (distance (i + 2)) =? -3)%Z
     then addLower st (vertex i) (vertex (i + 1)) (vertex (i + 2))
     else if (sidesSum (distance i) (distance (i + 1)) (distance (i + 2)) =? 0)%Z
             && ((JS.Math_sign (distance i) =? 0)%Z
                 || (JS.Math_sign (distance (i + 1)) =? 0)%Z
                 || (JS.Math_sign (distance (i + 2)) =? 0)%Z)
     then addUpper st (vertex i) (vertex (i + 1)) (vertex (i + 2))
     else splitTriangle Math_sqrt (vertex i) (vertex (i + 1)) (vertex (i + 2))
            (distance i) (distance (i + 1)) (distance (i + 2)) st
            (JS.at_ indices i) (JS.at_ indices (i + 1)) (JS.at_ indices (i + 2))).
  set (s := sidesSum _ _ _) in *.
  assert (Hz : ((JS.Math_sign (distance i) =? 0)%Z
                || (JS.Math_sign (distance (i + 1)) =? 0)%Z
                || (JS.Math_sign (distance (i + 2)) =? 0)%Z) = true
               <-> someSignZero (distance i) (distance (i + 1)) (distance (i + 2))).
  { unfold someSignZero. rewrite !orb_true_iff, !Z.eqb_eq. tauto. }
  destruct ((JS.Math_sign (distance i) =? 0)%Z
            || (JS.Math_sign (distance (i + 1)) =? 0)%Z
            || (JS.Math_sign (distance (i + 2)) =? 0)%Z) eqn:Hsome;
    destruct (Z.eqb_spec s 3); destruct (Z.eqb_spec s (-3)); destruct (Z.eqb_spec s 0);
    destruct t; simpl in Ht |- *; fold s in Ht;
    try apply addUpper_whole; try apply addLower_whole; try reflexivity;
    exfalso; try lia; intuition (try lia; try discriminate).
Qed.

Lemma getVertexData_mirrors (k : nat) : mirrors normals texCoords (vertex k).
Proof.
  unfold mirrors, vertex, vertexAt, getVertexData. simpl.
  destruct normals, texCoords; split; reflexivity.
Qed.

Lemma interpolateVertex_mirrors (a b : SliceVertex) (t : Q) :
  mirrors normals texCoords a -> mirrors normals texCoords b ->
  mirrors normals texCoords (interpolateVertex Math_sqrt a b t).
Proof.
  unfold mirrors, interpolateVertex. simpl. intros [Hna Hta] [Hnb Htb].
  destruct (normal a), (normal b), (texCoord a), (texCoord b);
    simpl in *; try (destruct (JS.lt _ _)); simpl; split; congruence.
Qed.

Ltac all_mirror :=
  simpl app; repeat (apply Forall_cons; [assumption|]); apply Forall_nil.

Let above := staysAbove slicePlaneNormal positions normals texCoords worldPos indices.
Let below := staysBelow slicePlaneNormal positions normals texCoords worldPos indices.

(** One round of the loop, as a push onto the six arrays. *)
Lemma step_emitted (st : SliceState) (i : nat) :
  exists up lo pts,
    step st i = emitted st up lo pts /\
    (exists a b, length up = (3 * a)%nat /\ length lo = (3 * b)%nat /\ (1 <= a + b)%nat) /\
    Forall (mirrors normals texCoords) (up ++ lo) /\
    (above i -> lo = []) /\
    (below i -> up = []).
Proof.
  destruct (applies_decide (distance i) (distance (i + 1)) (distance (i + 2)))
    as (t & Ht & Huniq).
  assert (Hnot : forall t', t' <> t ->
                   ~ applies t' (distance i) (distance (i + 1)) (distance (i + 2))).
  { intros t' Hne H. apply Hne, Huniq, H. }
  rewrite (processTriangle_routed st i t Ht).
  pose proof (getVertexData_mirrors i) as M0.
  pose proof (getVertexData_mirrors (i + 1)) as M1.
  pose proof (getVertexData_mirrors (i + 2)) as M2.
  unfold above, below, staysAbove, staysBelow. fold distance.
  destruct t; cbn [routed].
  - exists [vertex i; vertex (i + 1); vertex (i + 2)], [], [].
    split; [reflexivity|]. split; [exists 1%nat, 0%nat; simpl; lia|].
    split; [all_mirror|].
    split; [reflexivity|]. intro H. exfalso. apply (Hnot AllBelow); [discriminate | exact H].
  - exists [], [vertex i; vertex (i + 1); vertex (i + 2)], [].
    split; [reflexivity|]. split; [exists 0%nat, 1%nat; simpl; lia|].
    split; [all_mirror|].
    split; [|reflexivity].
    intros [H|H]; exfalso;
      [apply (Hnot AllAbove) | apply (Hnot OnPlane)]; (discriminate || exact H).
  - exists [vertex i; vertex (i + 1); vertex (i + 2)], [], [].
    split; [reflexivity|]. split; [exists 1%nat, 0%nat; simpl; lia|].
    split; [all_mirror|].
    split; [reflexivity|]. intro H. exfalso. apply (Hnot AllBelow); [discriminate | exact H].
  - destruct (splitTriangle_cases Math_sqrt (vertex i) (vertex (i + 1)) (vertex (i + 2))
                (distance i) (distance (i + 1)) (distance (i + 2)) st
                (JS.at_ indices i) (JS.at_ indices (i + 1)) (JS.at_ indices (i + 2)))
      as (a & b & c & Harr & _ & _ & Hcases).
    assert (Ma : mirrors normals texCoords (E.v a) /\
                 mirrors normals texCoords (E.v b) /\
                 mirrors normals texCoords (E.v c)).
    { destruct Harr as [[H|[H|H]]|[H|[H|H]]]; inversion H; subst; simpl; auto. }
    destruct Ma as (Ma & Mb & Mc).
    assert (Hab : mirrors normals texCoords (edgeCut Math_sqrt a b))
      by (apply interpolateVertex_mirrors; assumption).
    assert (Hac : mirrors normals texCoords (edgeCut Math_sqrt a c))
      by (apply interpolateVertex_mirrors; assumption).
    assert (Hbc : mirrors normals texCoords (edgeCut Math_sqrt b c))
      by (apply interpolateVertex_mirrors; assumption).
    destruct Hcases as [(_ & _ & ->)|[(_ & _ & ->)|[(_ & _ & ->)|(_ & _ & ->)]]];
      do 3 eexists; (split; [reflexivity|]);
      (split; [first [exists 1%nat, 2%nat; simpl; lia | exists 2%nat, 1%nat; simpl; lia]|]);
      (split; [all_mirror|]);
      (split; [intros [H|H]; exfalso;
               [apply (Hnot AllAbove) | apply (Hnot OnPlane)]; (discriminate || exact H)
              |intro H; exfalso; apply (Hnot AllBelow); [discriminate | exact H]]).
Qed.

(** Any number of rounds. *)
Lemma rounds_emitted (counters : list nat) (st : SliceState) :
  exists up lo pts,
    fold_left step counters st = emitted st up lo pts /\
    (exists a b, length up = (3 * a)%nat /\ length lo = (3 * b)%nat /\
                 (length counters <= a + b)%nat) /\
    Forall (mirrors normals texCoords) (up ++ lo) /\
    ((forall i, In i counters -> above i) -> lo = []) /\
    ((forall i, In i counters -> below i) -> up = []).
Proof.
  revert st. induction counters as [|i counters IH]; intro st; simpl fold_left.
  - exists [], [], []. rewrite emitted_nil.
    split; [reflexivity|]. split; [exists 0%nat, 0%nat; simpl; lia|].
    split; [constructor|]. split; reflexivity.
  - destruct (step_emitted st i) as (up1 & lo1 & pts1 & -> & (a1 & b1 & Ha1 & Hb1 & Hab1)
                                     & Hm1 & Hup1 & Hlo1).
    destruct (IH (emitted st up1 lo1 pts1))
      as (up2 & lo2 & pts2 & -> & (a2 & b2 & Ha2 & Hb2 & Hab2) & Hm2 & Hup2 & Hlo2).
    rewrite emitted_emitted.
    exists (up1 ++ up2), (lo1 ++ lo2), (pts1 ++ pts2).
    split; [reflexivity|].
    split; [exists (a1 + a2)%nat, (b1 + b2)%nat; rewrite !length_app; simpl; lia|].
    split.
    { apply Forall_app in Hm1, Hm2. destruct Hm1, Hm2.
      repeat (apply Forall_app; split); assumption. }
    split; intro H.
    + rewrite Hup1, Hup2; [reflexivity | | ]; intros; apply H; simpl; auto.
    + rewrite Hlo1, Hlo2; [reflexivity | | ]; intros; apply H; simpl; auto.
Qed.

(** The arrays when the loop ends. *)
Lemma sliceLoop_emitted :
  exists up lo pts,
    sliceLoop Math_sqrt slicePlaneNormal positions normals texCoords worldPos indices
    = mkState up lo (seq 0 (length up)) (seq 0 (length lo)) pts pts /\
    (exists a b, length up = (3 * a)%nat /\ length lo = (3 * b)%nat /\
                 (length (loopCounters (length indices)) <= a + b)%nat) /\
    Forall (mirrors normals texCoords) (up ++ lo) /\
    ((forall i, In i (loopCounters (length indices)) -> above i) -> lo = []) /\
    ((forall i, In i (loopCounters (length indices)) -> below i) -> up = []).
Proof.
  destruct (rounds_emitted (loopCounters (length indices)) emptyState)
    as (up & lo & pts & Hst & H).
  exists up, lo, pts. split; [|exact H].
  unfold sliceLoop. fold step. rewrite Hst. reflexivity.
Qed.

End LoopBody.

(** ** The cap *)

Lemma near_iff (pt existing : ContourPoint.t) :
  near pt existing = true <->
  squaredDistance (ContourPoint.position existing) (ContourPoint.position pt)
  < epsilon * epsilon.
Proof. unfold near. cbv zeta. rewrite lt_true_iff. reflexivity. Qed.

Lemma near_refl (pt : ContourPoint.t) : near pt pt = true.
Proof.
  apply near_iff.
  assert (H : squaredDistance (ContourPoint.position pt) (ContourPoint.position pt) == 0)
    by (unfold squaredDistance; ring).
  rewrite H. reflexivity.
Qed.

Lemma removeDuplicates_snoc (contour : list ContourPoint.t) (pt : ContourPoint.t) :
  removeDuplicates (contour ++ [pt]) =
  removeDuplicates contour
  ++ (if JS.some (near pt) (removeDuplicates contour) then [] else [pt]).
Proof.
  unfold removeDuplicates. rewrite fold_left_app. simpl.
  destruct (JS.some (near pt) _); simpl; [rewrite app_nil_r|]; reflexivity.
Qed.

Lemma removeDuplicates_length (contour : list ContourPoint.t) :
  (length (removeDuplicates contour) <= length contour)%nat.
Proof.
  induction contour as [|pt contour IH] using rev_ind; [simpl; lia|].
  rewrite removeDuplicates_snoc, !length_app.
  destruct (JS.some (near pt) _); simpl; lia.
Qed.

(** Kept points come from the contour. *)
Lemma removeDuplicates_incl (contour : list ContourPoint.t) :
  incl (removeDuplicates contour) contour.
Proof.
  induction contour as [|pt contour IH] using rev_ind; [intros x Hx; exact Hx|].
  rewrite removeDuplicates_snoc. intros x Hx. apply in_app_iff in Hx.
  apply in_app_iff. destruct Hx as [Hx|Hx]; [left; apply IH, Hx|].
  destruct (JS.some (near pt) _); [destruct Hx | right; exact Hx].
Qed.

(** Kept points lie pairwise at least [epsilon] apart. *)
Lemma removeDuplicates_apart (contour : list ContourPoint.t) :
  forall j k e pt,
    (j < k)%nat ->
    nth_error (removeDuplicates contour) j = Some e ->
    nth_error (removeDuplicates contour) k = Some pt ->
    near pt e = false.
Proof.
  induction contour as [|p contour IH] using rev_ind; intros j k e pt Hjk Hj Hk.
  - destruct j; discriminate.
  - rewrite removeDuplicates_snoc in Hj, Hk.
    destruct (JS.some (near p) (removeDuplicates contour)) eqn:Hdup.
    + rewrite app_nil_r in Hj, Hk. exact (IH j k e pt Hjk Hj Hk).
    + destruct (Nat.lt_ge_cases k (length (removeDuplicates contour))) as [Hlt|Hge].
      * rewrite nth_error_app1 in Hj by lia. rewrite nth_error_app1 in Hk by lia.
        exact (IH j k e pt Hjk Hj Hk).
      * rewrite nth_error_app2 in Hk by lia.
        destruct (k - length (removeDuplicates contour))%nat as [|m] eqn:Hm;
          [|destruct m; discriminate].
        simpl in Hk. injection Hk as <-.
        rewrite nth_error_app1 in Hj by lia.
        apply nth_error_In in Hj.
        unfold JS.some in Hdup.
        destruct (near p e) eqn:Hn; [|reflexivity].
        assert (existsb (near p) (removeDuplicates contour) = true)
          by (apply existsb_exists; eauto).
        congruence.
Qed.

(** Every contour point has a kept point within [epsilon]. *)
Lemma removeDuplicates_covers (contour : list ContourPoint.t) (pt : ContourPoint.t) :
  In pt contour ->
  exists e, In e (removeDuplicates contour) /\ near pt e = true.
Proof.
  induction contour as [|p contour IH] using rev_ind; intro Hin; [destruct Hin|].
  rewrite removeDuplicates_snoc.
  apply in_app_iff in Hin. destruct Hin as [Hin|[<-|[]]].
  - destruct (IH Hin) as (e & He & Hn). exists e. split; [|exact Hn].
    apply in_app_iff. left. exact He.
  - destruct (JS.some (near p) (removeDuplicates contour)) eqn:Hdup.
    + apply existsb_exists in Hdup. destruct Hdup as (e & He & Hn).
      exists e. split; [rewrite app_nil_r; exact He | exact Hn].
    + exists p. split; [apply in_app_iff; right; left; reflexivity | apply near_refl].
Qed.

Lemma push_each {A B : Type} (f : A -> B) (l : list A) (acc : list B) :
  fold_left (fun acc x => acc ++ [f x]) l acc = acc ++ map f l.
Proof.
  revert acc. induction l as [|x l IH]; intro acc; simpl.
  - now rewrite app_nil_r.
  - rewrite IH, <- app_assoc. reflexivity.
Qed.

Lemma push_all {A B : Type} (f : A -> list B) (l : list A) (acc : list B) :
  fold_left (fun acc x => acc ++ f x) l acc = acc ++ flat_map f l.
Proof.
  revert acc. induction l as [|x l IH]; intro acc; simpl.
  - now rewrite app_nil_r.
  - rewrite IH, <- app_assoc. reflexivity.
Qed.

Lemma accumulate_sum (pts : list ContourPoint.t) (acc : Vec3) :
  let total :=
    fold_left
      (fun centroid pt =>
         mkVec3 (c0 centroid + c0 (ContourPoint.position pt))
                (c1 centroid + c1 (ContourPoint.position pt))
                (c2 centroid + c2 (ContourPoint.position pt)))
      pts acc in
  c0 total == c0 acc + sumOf c0 pts /\
  c1 total == c1 acc + sumOf c1 pts /\
  c2 total == c2 acc + sumOf c2 pts.
Proof.
  revert acc. induction pts as [|pt pts IH]; intro acc; simpl.
  - repeat split; ring.
  - destruct (IH (mkVec3 (c0 acc + c0 (ContourPoint.position pt))
                         (c1 acc + c1 (ContourPoint.position pt))
                         (c2 acc + c2 (ContourPoint.position pt)))) as (H0 & H1 & H2).
    cbv zeta in H0, H1, H2. rewrite H0, H1, H2. simpl. repeat split; ring.
Qed.

Lemma centroidOf_isMean (pts : list ContourPoint.t) : isMean (centroidOf pts) pts.
Proof.
  unfold isMean, centroidOf. cbv zeta.
  destruct (accumulate_sum pts (mkVec3 0 0 0)) as (H0 & H1 & H2).
  cbv zeta in H0, H1, H2. simpl c0. simpl c1. simpl c2.
  rewrite H0, H1, H2. simpl. repeat split; apply Qdiv_comp; try reflexivity; ring.
Qed.

Lemma fan_length (isUpper : bool) (base n m s : nat) :
  length (flat_map (fanTriangle isUpper base n) (seq s m)) = (3 * m)%nat.
Proof.
  revert s. induction m as [|m IH]; intro s; simpl; [reflexivity|].
  rewrite length_app, IH. unfold fanTriangle. destruct isUpper; simpl; lia.
Qed.

Section Cap.

Variable slicePlaneNormal : Vec3.

Lemma generateCap_small vertices indices contour isUpper :
  (length (removeDuplicates contour) < 3)%nat ->
  generateCap slicePlaneNormal vertices indices contour isUpper = (vertices, indices).
Proof.
  intro Hlt. unfold generateCap.
  destruct (length contour <? 3)%nat; [reflexivity|].
  cbv zeta. apply Nat.ltb_lt in Hlt. rewrite Hlt. reflexivity.
Qed.

Lemma generateCap_fan vertices indices contour isUpper :
  (3 <= length (removeDuplicates contour))%nat ->
  generateCap slicePlaneNormal vertices indices contour isUpper =
  (vertices
   ++ capVertex slicePlaneNormal isUpper (centroidOf (removeDuplicates contour))
      :: map (fun pt => capVertex slicePlaneNormal isUpper (ContourPoint.position pt))
             (removeDuplicates contour),
   indices
   ++ flat_map (fanTriangle isUpper (length vertices)
                            (length (removeDuplicates contour)))
               (seq 0 (length (removeDuplicates contour)))).
Proof.
  intro Hn. unfold generateCap.
  pose proof (removeDuplicates_length contour) as Hle.
  destruct (Nat.ltb_spec (length contour) 3) as [Hlt|_]; [lia|].
  cbv zeta.
  destruct (Nat.ltb_spec (length (removeDuplicates contour)) 3) as [Hlt|_]; [lia|].
  assert (Heta : mkVec3 (c0 slicePlaneNormal) (c1 slicePlaneNormal) (c2 slicePlaneNormal)
                 = slicePlaneNormal) by (destruct slicePlaneNormal; reflexivity).
  rewrite Heta. fold (capNormalOf slicePlaneNormal isUpper).
  rewrite (push_each
             (fun pt => capVertex slicePlaneNormal isUpper (ContourPoint.position pt))).
  rewrite <- app_assoc. simpl app. f_equal.
  rewrite length_app. simpl length.
  unfold fanTriangle. destruct isUpper;
    rewrite (push_all _ (seq 0 (length (removeDuplicates contour)))); reflexivity.
Qed.

(** What [generateCap] adds to a vertex list carries both attributes. *)
Lemma generateCap_appends (vertices : list SliceVertex) (indices : list nat)
    (contour : list ContourPoint.t) (isUpper : bool) :
  exists cap indices',
    generateCap slicePlaneNormal vertices indices contour isUpper
    = (vertices ++ cap, indices') /\
    Forall carriesBoth cap.
Proof.
  destruct (Nat.lt_ge_cases (length (removeDuplicates contour)) 3) as [Hlt|Hge].
  - exists [], indices. rewrite app_nil_r. split; [|constructor].
    apply generateCap_small, Hlt.
  - rewrite (generateCap_fan vertices indices contour isUpper Hge).
    do 2 eexists. split; [reflexivity|].
    constructor; [split; reflexivity|].
    apply Forall_forall. intros v Hv. apply in_map_iff in Hv.
    destruct Hv as (pt & <- & _). split; reflexivity.
Qed.

End Cap.

(** ** The sample inputs *)

Lemma swapped_straddles :
  applies Straddle (SwappedTriangle.distance 0) (SwappedTriangle.distance 1)
          (SwappedTriangle.distance 2).
Proof. unfold applies, sidesSum, someSignZero. vm_compute. intuition discriminate. Qed.

Lemma above_allAbove (i : nat) :
  In i (loopCounters (length AboveMesh.ix)) ->
  applies AllAbove (AboveMesh.distance i) (AboveMesh.distance (i + 1))
          (AboveMesh.distance (i + 2)).
Proof. intros [<-|[]]. vm_compute. reflexivity. Qed.

(** * The claims *)

Section Claims.

Variable Math_sqrt : Q -> Q.
Variable slicePlaneNormal : Vec3.
Variable positions : MeshAttributeAccessor Vec3.
Variable normals : option (MeshAttributeAccessor Vec3).
Variable texCoords : option (MeshAttributeAccessor Vec2).
Variable worldPos : Vec3.
Variable indices : list nat.

Let step := processTriangle Math_sqrt slicePlaneNormal positions normals
                            texCoords worldPos indices.
Let vertex := vertexAt positions normals texCoords indices.
Let distance := distanceAt slicePlaneNormal positions normals texCoords
                           worldPos indices.
Let entry (k : nat) : E.t := E.mk (vertex k) (distance k) (JS.at_ indices k).

(** C1.  The loop body decides by the sum of the three signs: with sum 3
    the triangle goes whole to the upper hull, with sum -3 whole to the
    lower hull, with sum 0 and a sign equal to 0 whole to the upper hull,
    and in every other case it is handed to [splitTriangle]; exactly one
    of the four cases applies. *)
Theorem C1_classification (st : SliceState) (i : nat) :
  (forall t : Topology,
      applies t (distance i) (distance (i + 1)) (distance (i + 2)) ->
      step st i =
      routed Math_sqrt t st (vertex i) (vertex (i + 1)) (vertex (i + 2))
             (distance i) (distance (i + 1)) (distance (i + 2))
             (JS.at_ indices i) (JS.at_ indices (i + 1)) (JS.at_ indices (i + 2))) /\
  (exists t : Topology,
      applies t (distance i) (distance (i + 1)) (distance (i + 2)) /\
      forall t' : Topology,
        applies t' (distance i) (distance (i + 1)) (distance (i + 2)) -> t' = t).
Proof.
  split.
  - intros t Ht. apply processTriangle_routed, Ht.
  - apply applies_decide.
Qed.

(** C2.  A triangle of the splitting case leaves three sub-triangles: two
    (six vertices) in the hull of the two vertices of one sign and one
    (three vertices) in the other hull; it adds two contour points, the
    same two to both contours, each with the position of a cut vertex
    and the pair of original indices of the edge it was cut on. *)
Theorem C2_split_counts (st : SliceState) (i : nat) :
  applies Straddle (distance i) (distance (i + 1)) (distance (i + 2)) ->
  exists (two one : list SliceVertex) (pts : list ContourPoint.t),
    SplitShape Math_sqrt (entry i) (entry (i + 1)) (entry (i + 2)) two one pts /\
    length (trianglesOf two) = 2%nat /\ length (trianglesOf one) = 1%nat /\
    length pts = 2%nat /\
    (step st i = emitted st two one pts \/ step st i = emitted st one two pts).
Proof.
  intro Hstr.
  pose proof (processTriangle_routed Math_sqrt slicePlaneNormal positions normals
                texCoords worldPos indices st i Straddle Hstr) as Hr.
  cbn [routed] in Hr.
  destruct (splitTriangle_shape Math_sqrt (vertex i) (vertex (i + 1)) (vertex (i + 2))
              _ _ _ st (JS.at_ indices i) (JS.at_ indices (i + 1))
              (JS.at_ indices (i + 2)) Hstr) as (two & one & pts & Hshape & Hst).
  exists two, one, pts. split; [exact Hshape|].
  split; [|split; [|split]].
  - destruct Hshape; reflexivity.
  - destruct Hshape; reflexivity.
  - destruct Hshape; reflexivity.
  - destruct Hst as [Hst|Hst]; [left | right]; exact (eq_trans Hr Hst).
Qed.

(** C3.  In the splitting case each of the two new vertices is
    interpolated on an edge whose ends lie on opposite sides of the
    plane, with parameter |d_x| / (|d_x| + |d_y|) for the distances d_x
    and d_y of the two ends, and its position has signed distance 0 to
    the plane. *)
Theorem C3_cut_on_plane (st : SliceState) (i : nat) :
  applies Straddle (distance i) (distance (i + 1)) (distance (i + 2)) ->
  exists (x1 y1 x2 y2 : E.t) (up lo : list SliceVertex),
    (In x1 [entry i; entry (i + 1); entry (i + 2)] /\
     In y1 [entry i; entry (i + 1); entry (i + 2)] /\
     In x2 [entry i; entry (i + 1); entry (i + 2)] /\
     In y2 [entry i; entry (i + 1); entry (i + 2)]) /\
    crossing x1 y1 /\ crossing x2 y2 /\
    step st i = emitted st up lo [edgePoint Math_sqrt x1 y1; edgePoint Math_sqrt x2 y2] /\
    (forall v, In v (up ++ lo) ->
               In v [vertex i; vertex (i + 1); vertex (i + 2)] \/
               v = interpolateVertex Math_sqrt (E.v x1) (E.v y1)
                     (Qabs (E.d x1) / (Qabs (E.d x1) + Qabs (E.d y1))) \/
               v = interpolateVertex Math_sqrt (E.v x2) (E.v y2)
                     (Qabs (E.d x2) / (Qabs (E.d x2) + Qabs (E.d y2)))) /\
    getSideOfPlane slicePlaneNormal
      (position (interpolateVertex Math_sqrt (E.v x1) (E.v y1)
                   (Qabs (E.d x1) / (Qabs (E.d x1) + Qabs (E.d y1))))) worldPos == 0 /\
    getSideOfPlane slicePlaneNormal
      (position (interpolateVertex Math_sqrt (E.v x2) (E.v y2)
                   (Qabs (E.d x2) / (Qabs (E.d x2) + Qabs (E.d y2))))) worldPos == 0.
Proof.
  intro Hstr.
  pose proof (processTriangle_routed Math_sqrt slicePlaneNormal positions normals
                texCoords worldPos indices st i Straddle Hstr) as Hr.
  cbn [routed] in Hr.
  destruct (splitTriangle_shape Math_sqrt (vertex i) (vertex (i + 1)) (vertex (i + 2))
              _ _ _ st (JS.at_ indices i) (JS.at_ indices (i + 1))
              (JS.at_ indices (i + 2)) Hstr) as (two & one & pts & Hshape & Hst).
  fold (entry i) (entry (i + 1)) (entry (i + 2)) in Hshape.
  assert (Hd : forall e, In e [entry i; entry (i + 1); entry (i + 2)] ->
                         E.d e = getSideOfPlane slicePlaneNormal (position (E.v e)) worldPos).
  { intros e [<-|[<-|[<-|[]]]]; reflexivity. }
  assert (Hv : forall e, In e [entry i; entry (i + 1); entry (i + 2)] ->
                         In (E.v e) [vertex i; vertex (i + 1); vertex (i + 2)]).
  { intros e [<-|[<-|[<-|[]]]]; simpl; tauto. }
  destruct Hshape as [p q r Harr Hsign Hpr Hqr | p q r Harr Hsign Hrp Hrq];
    destruct (arranged_In _ _ _ _ _ _ Harr) as (H1 & H2 & H3).
  - pose proof (Hv p H1); pose proof (Hv q H2); pose proof (Hv r H3).
    exists p, r, q, r.
    destruct Hst as [Hst | Hst];
      match type of Hst with _ = emitted _ ?u ?l _ => exists u, l end;
      (split; [tauto|]); (split; [exact Hpr|]); (split; [exact Hqr|]);
      (split; [exact (eq_trans Hr Hst)|]);
      (split; [|split;
                [apply (edgeCut_on_plane Math_sqrt _ _ p r); auto
                |apply (edgeCut_on_plane Math_sqrt _ _ q r); auto]]);
      intros v Hin; simpl in Hin;
      unfold edgeCut, edgeParameter, JS.Math_abs in Hin;
      intuition (subst; auto).
  - pose proof (Hv p H2); pose proof (Hv q H3); pose proof (Hv r H1).
    exists r, p, r, q.
    destruct Hst as [Hst | Hst];
      match type of Hst with _ = emitted _ ?u ?l _ => exists u, l end;
      (split; [tauto|]); (split; [exact Hrp|]); (split; [exact Hrq|]);
      (split; [exact (eq_trans Hr Hst)|]);
      (split; [|split;
                [apply (edgeCut_on_plane Math_sqrt _ _ r p); auto
                |apply (edgeCut_on_plane Math_sqrt _ _ r q); auto]]);
      intros v Hin; simpl in Hin;
      unfold edgeCut, edgeParameter, JS.Math_abs in Hin;
      intuition (subst; auto).
Qed.

(** C10.  [addTriangle] appends three vertices and the three indices
    len, len+1, len+2.  When the loop ends, each hull has three vertices
    per triangle and the index buffer 0, 1, ..., 3T-1, in which no index
    occurs twice; and every round of the loop has added at least three
    vertices, whether or not its indices were used by an earlier round. *)
Theorem C10_fresh_vertices :
  let st := sliceLoop Math_sqrt slicePlaneNormal positions normals texCoords
                      worldPos indices in
  (forall vs ix v0 v1 v2,
      addTriangle vs ix v0 v1 v2 =
      (vs ++ [v0; v1; v2], ix ++ [length vs; length vs + 1; length vs + 2]%nat)) /\
  (exists T : nat,
      length (upperIndices st) = (3 * T)%nat /\
      length (upperVertices st) = (3 * T)%nat /\
      upperIndices st = seq 0 (3 * T)) /\
  (exists T : nat,
      length (lowerIndices st) = (3 * T)%nat /\
      length (lowerVertices st) = (3 * T)%nat /\
      lowerIndices st = seq 0 (3 * T)) /\
  (NoDup (upperIndices st) /\ NoDup (lowerIndices st)) /\
  (3 * length (loopCounters (length indices))
   <= length (upperVertices st) + length (lowerVertices st))%nat.
Proof.
  intro st. split; [reflexivity|].
  destruct (sliceLoop_emitted Math_sqrt slicePlaneNormal positions normals texCoords
                              worldPos indices)
    as (up & lo & pts & Hst & (a & b & Ha & Hb & Hab) & _).
  subst st. rewrite Hst. simpl.
  split; [exists a; rewrite length_seq, Ha; auto|].
  split; [exists b; rewrite length_seq, Hb; auto|].
  split; [split; apply seq_NoDup|].
  lia.
Qed.

End Claims.

Section CapClaims.

Variable slicePlaneNormal : Vec3.

(** C5.  With at least three contour points left after deduplication the
    cap is: one vertex at the mean of the unique contour positions, one
    vertex per unique contour point, all with the cap normal (the plane
    normal for the upper hull, its negation for the lower hull), and one
    triangle (centroid, contour[i], contour[(i+1) % n]) per unique
    contour point, its last two indices exchanged for the lower hull. *)
Theorem C5_cap_fan (vertices : list SliceVertex) (indices : list nat)
    (contour : list ContourPoint.t) (isUpper : bool) :
  let unique := removeDuplicates contour in
  let n := length unique in
  let base := length vertices in
  let capNormal :=
    if isUpper then slicePlaneNormal
    else mkVec3 (- c0 slicePlaneNormal) (- c1 slicePlaneNormal) (- c2 slicePlaneNormal) in
  let cap (p : Vec3) := mkSliceVertex p (Some capNormal) (Some (mkVec2 (1 # 2) (1 # 2))) in
  let fan (i : nat) :=
    if isUpper
    then [base; base + 1 + i; base + 1 + (i + 1) mod n]%nat
    else [base; base + 1 + (i + 1) mod n; base + 1 + i]%nat in
  (3 <= n)%nat ->
  exists centroid : Vec3,
    isMean centroid unique /\
    generateCap slicePlaneNormal vertices indices contour isUpper =
    (vertices ++ cap centroid :: map (fun pt => cap (ContourPoint.position pt)) unique,
     indices ++ flat_map fan (seq 0 n)) /\
    length (flat_map fan (seq 0 n)) = (3 * n)%nat.
Proof.
  intros unique n base capNormal cap fan Hn.
  exists (centroidOf unique). split; [apply centroidOf_isMean|].
  assert (Hfan : forall i, fan i = fanTriangle isUpper base n i)
    by (intro i; unfold fan, fanTriangle; destruct isUpper; reflexivity).
  assert (Hflat : flat_map fan (seq 0 n) = flat_map (fanTriangle isUpper base n) (seq 0 n))
    by (apply flat_map_ext; exact Hfan).
  rewrite Hflat. split; [|apply fan_length].
  exact (generateCap_fan slicePlaneNormal vertices indices contour isUpper Hn).
Qed.

(** C6.  Deduplication compares squared distances with the square of a
    fixed epsilon and keeps the first point seen: a point is dropped
    exactly when a point kept before it is nearer than epsilon, and kept
    points stay; so kept points are pairwise apart and every contour
    point has a kept point nearby.  With fewer than three points kept,
    [generateCap] returns the vertex and index lists it was given. *)
Theorem C6_dedup_and_small_contour (vertices : list SliceVertex) (indices : list nat)
    (contour : list ContourPoint.t) (isUpper : bool) :
  (epsilon == 1 / 10000 /\
   forall pt existing,
     near pt existing = true <->
     squaredDistance (ContourPoint.position existing) (ContourPoint.position pt)
     < epsilon * epsilon) /\
  (removeDuplicates [] = [] /\
   forall earlier pt,
     removeDuplicates (earlier ++ [pt]) =
     removeDuplicates earlier
     ++ (if existsb (near pt) (removeDuplicates earlier) then [] else [pt])) /\
  (forall j k e pt,
      (j < k)%nat ->
      nth_error (removeDuplicates contour) j = Some e ->
      nth_error (removeDuplicates contour) k = Some pt ->
      near pt e = false) /\
  (forall pt, In pt contour ->
              exists e, In e (removeDuplicates contour) /\ near pt e = true) /\
  ((length (removeDuplicates contour) < 3)%nat ->
   generateCap slicePlaneNormal vertices indices contour isUpper = (vertices, indices)).
Proof.
  split; [split; [reflexivity | apply near_iff]|].
  split; [split; [reflexivity | apply removeDuplicates_snoc]|].
  split; [apply removeDuplicates_apart|].
  split; [apply removeDuplicates_covers|].
  apply generateCap_small.
Qed.

End CapClaims.

Section Whole.

Variable Math_sqrt : Q -> Q.
Variable slicePlaneNormal : Vec3.
Variable worldPos : Vec3.

(** C7, as the code has it.  When no triangle reaches the lower hull
    (each is wholly above the plane or in the on-plane case), or every
    triangle is wholly below the plane, [sliceMesh] writes one warning and
    returns null: it returns no hull at all. *)
Theorem C7_no_intersection_returns_null (originalMesh : Mesh)
    (positions : MeshAttributeAccessor Vec3) (indices : list nat) :
  attrPosition originalMesh = Some positions ->
  indexData originalMesh = Some indices ->
  (forall i, In i (loopCounters (length indices)) ->
             staysAbove slicePlaneNormal positions (attrNormal originalMesh)
                        (attrTextureCoordinate originalMesh) worldPos indices i) \/
  (forall i, In i (loopCounters (length indices)) ->
             staysBelow slicePlaneNormal positions (attrNormal originalMesh)
                        (attrTextureCoordinate originalMesh) worldPos indices i) ->
  sliceMesh Math_sqrt slicePlaneNormal worldPos originalMesh
  = mkOutcome None [emptyMeshWarning].
Proof.
  intros Hpos Hix Hside. unfold sliceMesh. rewrite Hpos, Hix. cbv zeta.
  destruct (sliceLoop_emitted Math_sqrt slicePlaneNormal positions
              (attrNormal originalMesh) (attrTextureCoordinate originalMesh)
              worldPos indices)
    as (up & lo & pts & -> & _ & _ & Habove & Hbelow).
  cbn [upperVertices lowerVertices].
  destruct Hside as [H|H].
  - rewrite (Habove H). simpl. rewrite orb_true_r. reflexivity.
  - rewrite (Hbelow H). reflexivity.
Qed.

(** C9, as the code has it.  The vertices of a returned hull are those
    the loop pushed followed by those of the cap.  The former carry
    exactly the optional attributes of the source mesh; the latter carry
    both a normal and a texture coordinate.  So every vertex of both hulls
    carries both when the source mesh has both. *)
Theorem C9_attributes (originalMesh : Mesh) (upperHull lowerHull : Hull) :
  returned (sliceMesh Math_sqrt slicePlaneNormal worldPos originalMesh)
  = Some (upperHull, lowerHull) ->
  exists (positions : MeshAttributeAccessor Vec3) (indices : list nat)
         (capU capL : list SliceVertex),
    attrPosition originalMesh = Some positions /\
    indexData originalMesh = Some indices /\
    let st := sliceLoop Math_sqrt slicePlaneNormal positions (attrNormal originalMesh)
                        (attrTextureCoordinate originalMesh) worldPos indices in
    hullVertices upperHull = upperVertices st ++ capU /\
    hullVertices lowerHull = lowerVertices st ++ capL /\
    Forall (mirrors (attrNormal originalMesh) (attrTextureCoordinate originalMesh))
           (upperVertices st ++ lowerVertices st) /\
    Forall carriesBoth (capU ++ capL) /\
    (present (attrNormal originalMesh) = true ->
     present (attrTextureCoordinate originalMesh) = true ->
     Forall carriesBoth (hullVertices upperHull ++ hullVertices lowerHull)).
Proof.
  unfold sliceMesh.
  destruct (attrPosition originalMesh) as [positions|]; [|discriminate].
  destruct (indexData originalMesh) as [indices|]; [|discriminate].
  cbv zeta.
  destruct (sliceLoop_emitted Math_sqrt slicePlaneNormal positions
              (attrNormal originalMesh) (attrTextureCoordinate originalMesh)
              worldPos indices)
    as (up & lo & pts & Hst & _ & Hm & _).
  rewrite Hst.
  cbn [upperVertices lowerVertices upperIndices lowerIndices upperContour lowerContour].
  destruct ((length up =? 0)%nat || (length lo =? 0)%nat); [discriminate|].
  destruct (generateCap_appends slicePlaneNormal up (seq 0 (length up)) pts true)
    as (capU & ixU & -> & HcapU).
  destruct (generateCap_appends slicePlaneNormal lo (seq 0 (length lo)) pts false)
    as (capL & ixL & -> & HcapL).
  cbn [returned]. intro H. injection H as <- <-.
  exists positions, indices, capU, capL.
  split; [reflexivity|]. split; [reflexivity|].
  cbv zeta. rewrite Hst. cbn [upperVertices lowerVertices hullVertices].
  split; [reflexivity|]. split; [reflexivity|].
  split; [exact Hm|].
  split; [apply Forall_app; split; assumption|].
  intros Hn Ht.
  assert (Hboth : Forall carriesBoth (up ++ lo)).
  { eapply Forall_impl; [|exact Hm]. intros v [H1 H2]. split; congruence. }
  apply Forall_app in Hboth. destruct Hboth.
  repeat (apply Forall_app; split); assumption.
Qed.

End Whole.

(** * The claims at sample inputs *)

Lemma C2_witness :
  applies Straddle (SwappedTriangle.distance 0) (SwappedTriangle.distance 1)
          (SwappedTriangle.distance 2) /\
  forall Math_sqrt : Q -> Q,
  exists (two one : list SliceVertex) (pts : list ContourPoint.t),
    SplitShape Math_sqrt (SwappedTriangle.entry 0) (SwappedTriangle.entry 1)
               (SwappedTriangle.entry 2) two one pts /\
    length (trianglesOf two) = 2%nat /\ length (trianglesOf one) = 1%nat /\
    length pts = 2%nat /\
    (SwappedTriangle.step Math_sqrt = emitted emptyState two one pts \/
     SwappedTriangle.step Math_sqrt = emitted emptyState one two pts).
Proof.
  assert (H : applies Straddle (SwappedTriangle.distance 0) (SwappedTriangle.distance 1)
                      (SwappedTriangle.distance 2))
    by (unfold applies, sidesSum, someSignZero; vm_compute; intuition discriminate).
  split; [exact H|].
  intro Math_sqrt.
  exact (C2_split_counts Math_sqrt Sample.up SwappedTriangle.acc None None
           Sample.origin SwappedTriangle.ix emptyState 0 H).
Defined.

Lemma C3_witness :
  applies Straddle (SwappedTriangle.distance 0) (SwappedTriangle.distance 1)
          (SwappedTriangle.distance 2) /\
  forall Math_sqrt : Q -> Q,
  exists (x1 y1 x2 y2 : E.t) (up lo : list SliceVertex),
    (In x1 [SwappedTriangle.entry 0; SwappedTriangle.entry 1; SwappedTriangle.entry 2] /\
     In y1 [SwappedTriangle.entry 0; SwappedTriangle.entry 1; SwappedTriangle.entry 2] /\
     In x2 [SwappedTriangle.entry 0; SwappedTriangle.entry 1; SwappedTriangle.entry 2] /\
     In y2 [SwappedTriangle.entry 0; SwappedTriangle.entry 1; SwappedTriangle.entry 2]) /\
    crossing x1 y1 /\ crossing x2 y2 /\
    SwappedTriangle.step Math_sqrt =
    emitted emptyState up lo [edgePoint Math_sqrt x1 y1; edgePoint Math_sqrt x2 y2] /\
    (forall v, In v (up ++ lo) ->
               In v [SwappedTriangle.vertex 0; SwappedTriangle.vertex 1;
                     SwappedTriangle.vertex 2] \/
               v = interpolateVertex Math_sqrt (E.v x1) (E.v y1)
                     (Qabs (E.d x1) / (Qabs (E.d x1) + Qabs (E.d y1))) \/
               v = interpolateVertex Math_sqrt (E.v x2) (E.v y2)
                     (Qabs (E.d x2) / (Qabs (E.d x2) + Qabs (E.d y2)))) /\
    getSideOfPlane Sample.up
      (position (interpolateVertex Math_sqrt (E.v x1) (E.v y1)
                   (Qabs (E.d x1) / (Qabs (E.d x1) + Qabs (E.d y1))))) Sample.origin == 0 /\
    getSideOfPlane Sample.up
      (position (interpolateVertex Math_sqrt (E.v x2) (E.v y2)
                   (Qabs (E.d x2) / (Qabs (E.d x2) + Qabs (E.d y2))))) Sample.origin == 0.
Proof.
  assert (H : applies Straddle (SwappedTriangle.distance 0) (SwappedTriangle.distance 1)
                      (SwappedTriangle.distance 2))
    by (unfold applies, sidesSum, someSignZero; vm_compute; intuition discriminate).
  split; [exact H|].
  intro Math_sqrt.
  exact (C3_cut_on_plane Math_sqrt Sample.up SwappedTriangle.acc None None
           Sample.origin SwappedTriangle.ix emptyState 0 H).
Defined.

(** C4.  The sub-triangles of a split do not always keep the winding of
    the triangle they were cut from: [splitTriangle] lists their vertices
    in the order of the sorted array.  For the triangle with distances
    -1, -2, 1 sorting exchanges the first two vertices, and each of the
    three sub-triangles winds opposite to the original. *)
Theorem C4_winding_reversed (Math_sqrt : Q -> Q) :
  let original :=
    (SwappedTriangle.vertex 0, SwappedTriangle.vertex 1, SwappedTriangle.vertex 2) in
  let st := SwappedTriangle.step Math_sqrt in
  applies Straddle (SwappedTriangle.distance 0) (SwappedTriangle.distance 1)
          (SwappedTriangle.distance 2) /\
  JS.sort (fun a b => E.d a - E.d b)
          [SwappedTriangle.entry 0; SwappedTriangle.entry 1; SwappedTriangle.entry 2]
  = [SwappedTriangle.entry 1; SwappedTriangle.entry 0; SwappedTriangle.entry 2] /\
  length (trianglesOf (upperVertices st) ++ trianglesOf (lowerVertices st)) = 3%nat /\
  Forall (fun t => oppositeWinding t original)
         (trianglesOf (upperVertices st) ++ trianglesOf (lowerVertices st)).
Proof.
  split; [exact swapped_straddles|].
  split; [reflexivity|].
  split; [reflexivity|].
  repeat (apply Forall_cons; [reflexivity|]). apply Forall_nil.
Qed.

(** C8.  The third case of the loop body also takes triangles that cross
    the plane: the triangle with distances 1, 0, -1 has sign sum 0 and a
    sign equal to 0, its first vertex lies strictly above the plane and its
    last strictly below, and it goes whole to the upper hull. *)
Theorem C8_on_plane_case_crosses (Math_sqrt : Q -> Q) :
  applies OnPlane (ThroughTriangle.distance 0) (ThroughTriangle.distance 1)
          (ThroughTriangle.distance 2) /\
  0 < ThroughTriangle.distance 0 /\ ThroughTriangle.distance 2 < 0 /\
  ThroughTriangle.step Math_sqrt =
  emitted emptyState
          [ThroughTriangle.vertex 0; ThroughTriangle.vertex 1; ThroughTriangle.vertex 2]
          [] [].
Proof.
  split; [|split; [|split]].
  - unfold applies, sidesSum, someSignZero. vm_compute. auto.
  - reflexivity.
  - reflexivity.
  - reflexivity.
Qed.

Lemma C5_witness :
  let unique := removeDuplicates CapSample.ring in
  let n := length unique in
  let base := length CapSample.vertices in
  let capNormal := mkVec3 (- c0 Sample.up) (- c1 Sample.up) (- c2 Sample.up) in
  let cap (p : Vec3) := mkSliceVertex p (Some capNormal) (Some (mkVec2 (1 # 2) (1 # 2))) in
  let fan (i : nat) := [base; base + 1 + (i + 1) mod n; base + 1 + i]%nat in
  (3 <= n)%nat /\
  exists centroid : Vec3,
    isMean centroid unique /\
    generateCap Sample.up CapSample.vertices CapSample.indices CapSample.ring false =
    (CapSample.vertices
     ++ cap centroid :: map (fun pt => cap (ContourPoint.position pt)) unique,
     CapSample.indices ++ flat_map fan (seq 0 n)) /\
    length (flat_map fan (seq 0 n)) = (3 * n)%nat.
Proof.
  assert (H : (3 <= length (removeDuplicates CapSample.ring))%nat) by (vm_compute; lia).
  split; [exact H|].
  exact (C5_cap_fan Sample.up CapSample.vertices CapSample.indices CapSample.ring false H).
Defined.

Lemma C6_witness :
  (length (removeDuplicates CapSample.pair) < 3)%nat /\
  generateCap Sample.up CapSample.vertices CapSample.indices CapSample.pair true
  = (CapSample.vertices, CapSample.indices).
Proof.
  assert (H : (length (removeDuplicates CapSample.pair) < 3)%nat) by (vm_compute; lia).
  split; [exact H|].
  exact (proj2 (proj2 (proj2 (proj2
           (C6_dedup_and_small_contour Sample.up CapSample.vertices CapSample.indices
              CapSample.pair true)))) H).
Defined.

(** C7, as stated, fails: the single triangle of this mesh lies wholly
    above the plane, and [sliceMesh] returns null, not a pair of hulls of
    which one holds the geometry and the other is empty. *)
Lemma C7_counterexample :
  (forall i, In i (loopCounters (length AboveMesh.ix)) ->
             applies AllAbove (AboveMesh.distance i) (AboveMesh.distance (i + 1))
                     (AboveMesh.distance (i + 2))) /\
  (forall Math_sqrt : Q -> Q,
      returned (sliceMesh Math_sqrt Sample.up Sample.origin AboveMesh.mesh) = None).
Proof.
  split; [exact above_allAbove|]. intro Math_sqrt. reflexivity.
Qed.

Lemma C7_witness :
  (attrPosition AboveMesh.mesh = Some AboveMesh.acc /\
   indexData AboveMesh.mesh = Some AboveMesh.ix /\
   forall i, In i (loopCounters (length AboveMesh.ix)) ->
             staysAbove Sample.up AboveMesh.acc None None Sample.origin AboveMesh.ix i) /\
  (forall Math_sqrt : Q -> Q,
      sliceMesh Math_sqrt Sample.up Sample.origin AboveMesh.mesh
      = mkOutcome None [emptyMeshWarning]).
Proof.
  assert (H : forall i, In i (loopCounters (length AboveMesh.ix)) ->
                        staysAbove Sample.up AboveMesh.acc None None Sample.origin
                                   AboveMesh.ix i)
    by (intros i [<-|[]]; left; vm_compute; reflexivity).
  split; [split; [reflexivity | split; [reflexivity | exact H]]|].
  intro Math_sqrt.
  exact (C7_no_intersection_returns_null Math_sqrt Sample.up Sample.origin AboveMesh.mesh
           AboveMesh.acc AboveMesh.ix eq_refl eq_refl (or_introl H)).
Defined.

(** C9, as stated, fails: this mesh has no normals and no texture
    coordinates; the upper hull returned for it starts with a vertex that
    carries neither and has at index 9, the centroid of its cap, a vertex
    that carries both. *)
Lemma C9_counterexample :
  (attrNormal Tetrahedron.bareMesh = None /\
   attrTextureCoordinate Tetrahedron.bareMesh = None) /\
  (forall Math_sqrt : Q -> Q,
      exists (upperHull lowerHull : Hull) (v w : SliceVertex),
        returned (sliceMesh Math_sqrt Sample.up Sample.origin Tetrahedron.bareMesh)
        = Some (upperHull, lowerHull) /\
        nth_error (hullVertices upperHull) 0 = Some v /\
        nth_error (hullVertices upperHull) 9 = Some w /\
        (present (normal v) = false /\ present (texCoord v) = false) /\
        (present (normal w) = true /\ present (texCoord w) = true)).
Proof.
  split; [split; reflexivity|]. intro Math_sqrt.
  do 4 eexists.
  split; [vm_compute; reflexivity|].
  split; [vm_compute; reflexivity|].
  split; [vm_compute; reflexivity|].
  split; split; reflexivity.
Qed.

Lemma C9_witness :
  (present (attrNormal Tetrahedron.fullMesh) = true /\
   present (attrTextureCoordinate Tetrahedron.fullMesh) = true) /\
  (forall Math_sqrt : Q -> Q,
      exists upperHull lowerHull : Hull,
        returned (sliceMesh Math_sqrt Sample.up Sample.origin Tetrahedron.fullMesh)
        = Some (upperHull, lowerHull) /\
        (4 <= length (hullVertices upperHull))%nat /\
        Forall carriesBoth (hullVertices upperHull ++ hullVertices lowerHull)).
Proof.
  split; [split; reflexivity|]. intro Math_sqrt.
  assert (H : exists upperHull lowerHull : Hull,
             returned (sliceMesh Math_sqrt Sample.up Sample.origin Tetrahedron.fullMesh)
             = Some (upperHull, lowerHull) /\
             (4 <= length (hullVertices upperHull))%nat).
  { do 2 eexists. split; [vm_compute; reflexivity|]. vm_compute. lia. }
  destruct H as (upperHull & lowerHull & H & Hlen).
  exists upperHull, lowerHull. split; [exact H|]. split; [exact Hlen|].
  destruct (C9_attributes Math_sqrt Sample.up Sample.origin Tetrahedron.fullMesh
              upperHull lowerHull H)
    as (positions & indices & capU & capL & _ & _ & Hrest).
  cbv zeta in Hrest. destruct Hrest as (_ & _ & _ & _ & Hall).
  apply Hall; reflexivity.
Defined.

(** Two triangles that share two of their four vertices leave six vertices
    in the upper hull, under the indices 0 to 5. *)
Example shared_vertices_are_copied (Math_sqrt : Q -> Q) :
  let st := sliceLoop Math_sqrt Sample.up (Sample.accessor Sample.origin Sample.quad)
                      None None Sample.origin Sample.quadIndices in
  length (upperVertices st) = 6%nat /\ upperIndices st = [0; 1; 2; 3; 4; 5]%nat.
Proof. split; reflexivity. Qed.

(** * Further properties of the slicing *)

(** ** The sorted array and the interpolation parameters *)

Lemma abs_sum_positive (x y : Q) : ~ (x == 0 /\ y == 0) -> 0 < Qabs x + Qabs y.
Proof.
  intro Hn. apply Qnot_le_lt. intro Hle. apply Hn.
  revert Hle. apply (Qabs_case x); apply (Qabs_case y); intros; split; lra.
Qed.

(** X1.  The array that [splitTriangle] sorts holds the three vertices
    again, in ascending order of their distances; three vertices that are
    already in ascending order, ties included, stay as they are. *)
Theorem X1_sorted_triple (e0 e1 e2 : E.t) :
  exists vMin vMid vMax : E.t,
    JS.sort (fun a b => E.d a - E.d b) [e0; e1; e2] = [vMin; vMid; vMax] /\
    Permutation [vMin; vMid; vMax] [e0; e1; e2] /\
    E.d vMin <= E.d vMid /\ E.d vMid <= E.d vMax /\
    (E.d e0 <= E.d e1 /\ E.d e1 <= E.d e2 -> (vMin, vMid, vMax) = (e0, e1, e2)).
Proof.
  destruct (sort3 E.t E.d e0 e1 e2) as (a & b & c & Hsort & Harr & Hab & Hbc).
  exists a, b, c. split; [exact Hsort|].
  split; [apply arranged_Permutation, Harr|].
  split; [exact Hab|]. split; [exact Hbc|].
  intros [H01 H12].
  assert (Hid : JS.sort (fun a b => E.d a - E.d b) [e0; e1; e2] = [e0; e1; e2]).
  { unfold JS.sort. simpl.
    assert (F10 : JS.lt (E.d e1 - E.d e0) 0 = false) by (apply lt_false_iff; lra).
    assert (F20 : JS.lt (E.d e2 - E.d e0) 0 = false) by (apply lt_false_iff; lra).
    assert (F21 : JS.lt (E.d e2 - E.d e1) 0 = false) by (apply lt_false_iff; lra).
    rewrite F10. simpl. rewrite F20, F21. reflexivity. }
  rewrite Hid in Hsort. injection Hsort as <- <- <-. reflexivity.
Qed.

(** X2.  In the splitting case neither of the two divisions of
    [splitTriangle] is by zero, and both interpolation parameters lie
    between 0 and 1. *)
Theorem X2_parameters_defined (e0 e1 e2 : E.t) :
  applies Straddle (E.d e0) (E.d e1) (E.d e2) ->
  exists vMin vMid vMax : E.t,
    JS.sort (fun a b => E.d a - E.d b) [e0; e1; e2] = [vMin; vMid; vMax] /\
    ((JS.Math_sign (E.d vMin) = JS.Math_sign (E.d vMid) /\
      0 < JS.Math_abs (E.d vMin) + JS.Math_abs (E.d vMax) /\
      0 < JS.Math_abs (E.d vMid) + JS.Math_abs (E.d vMax) /\
      0 <= edgeParameter vMin vMax <= 1 /\ 0 <= edgeParameter vMid vMax <= 1) \/
     (JS.Math_sign (E.d vMin) <> JS.Math_sign (E.d vMid) /\
      0 < JS.Math_abs (E.d vMin) + JS.Math_abs (E.d vMid) /\
      0 < JS.Math_abs (E.d vMin) + JS.Math_abs (E.d vMax) /\
      0 <= edgeParameter vMin vMid <= 1 /\ 0 <= edgeParameter vMin vMax <= 1)).
Proof.
  intro Hstr.
  destruct (sort3 E.t E.d e0 e1 e2) as (a & b & c & Hsort & Harr & Hab & Hbc).
  pose proof (Straddle_arranged _ _ _ _ _ _ Harr Hstr) as Habc. clear Hstr.
  exists a, b, c. split; [exact Hsort|].
  pose proof (edgeParameter_range a b). pose proof (edgeParameter_range a c).
  pose proof (edgeParameter_range b c).
  unfold JS.Math_abs.
  destruct (Z.eq_dec (JS.Math_sign (E.d a)) (JS.Math_sign (E.d b))) as [Hs|Hs];
    [left | right]; (split; [exact Hs|]);
    (split; [|split; [|split; assumption]]);
    apply abs_sum_positive; intros [Hx Hy];
    unfold applies, sidesSum, someSignZero in Habc;
    sign_cases (E.d a); sign_cases (E.d b); sign_cases (E.d c);
    rewrite ?Es, ?Es0, ?Es1 in *; try lra; try lia; try tauto.
Qed.

Lemma X2_witness :
  applies Straddle (E.d (SwappedTriangle.entry 0)) (E.d (SwappedTriangle.entry 1))
          (E.d (SwappedTriangle.entry 2)) /\
  exists vMin vMid vMax : E.t,
    JS.sort (fun a b => E.d a - E.d b)
            [SwappedTriangle.entry 0; SwappedTriangle.entry 1; SwappedTriangle.entry 2]
    = [vMin; vMid; vMax] /\
    ((JS.Math_sign (E.d vMin) = JS.Math_sign (E.d vMid) /\
      0 < JS.Math_abs (E.d vMin) + JS.Math_abs (E.d vMax) /\
      0 < JS.Math_abs (E.d vMid) + JS.Math_abs (E.d vMax) /\
      0 <= edgeParameter vMin vMax <= 1 /\ 0 <= edgeParameter vMid vMax <= 1) \/
     (JS.Math_sign (E.d vMin) <> JS.Math_sign (E.d vMid) /\
      0 < JS.Math_abs (E.d vMin) + JS.Math_abs (E.d vMid) /\
      0 < JS.Math_abs (E.d vMin) + JS.Math_abs (E.d vMax) /\
      0 <= edgeParameter vMin vMid <= 1 /\ 0 <= edgeParameter vMin vMax <= 1)).
Proof.
  assert (H : applies Straddle (E.d (SwappedTriangle.entry 0))
                      (E.d (SwappedTriangle.entry 1)) (E.d (SwappedTriangle.entry 2)))
    by (unfold applies, sidesSum, someSignZero; vm_compute; intuition discriminate).
  split; [exact H|].
  exact (X2_parameters_defined (SwappedTriangle.entry 0) (SwappedTriangle.entry 1)
           (SwappedTriangle.entry 2) H).
Defined.

(** ** The loop, round by round *)

Lemma straddlesb_iff (d0 d1 d2 : Q) :
  straddlesb d0 d1 d2 = true <-> applies Straddle d0 d1 d2.
Proof.
  unfold straddlesb, applies, someSignZero.
  rewrite !andb_true_iff, !negb_true_iff, andb_false_iff, !orb_false_iff.
  rewrite !Z.eqb_neq. split.
  - intros [[H3 Hm3] H0]. split; [exact H3|]. split; [exact Hm3|].
    intros [Hs Hz]. destruct H0 as [H0|[[H0 H1] H2]]; [contradiction|].
    destruct Hz as [Hz|[Hz|Hz]]; contradiction.
  - intros (H3 & Hm3 & H0). split; [split; assumption|].
    destruct (Z.eq_dec (sidesSum d0 d1 d2) 0) as [Hs|Hs]; [right | left; exact Hs].
    repeat split; intro Hz; apply H0; split; auto.
Qed.

Section Rounds.

Variable Math_sqrt : Q -> Q.
Variable slicePlaneNormal : Vec3.
Variable positions : MeshAttributeAccessor Vec3.
Variable normals : option (MeshAttributeAccessor Vec3).
Variable texCoords : option (MeshAttributeAccessor Vec2).
Variable worldPos : Vec3.
Variable indices : list nat.

Let step := processTriangle Math_sqrt slicePlaneNormal positions normals
                            texCoords worldPos indices.
Let vertex := vertexAt positions normals texCoords indices.
Let distance := distanceAt slicePlaneNormal positions normals texCoords
                           worldPos indices.
Let entry (k : nat) : E.t := E.mk (vertex k) (distance k) (JS.at_ indices k).
Let side := sideOf slicePlaneNormal worldPos.
Let sidePt := sideOfPoint slicePlaneNormal worldPos.
Let split := splitAt slicePlaneNormal positions normals texCoords worldPos indices.
Let offPlane := offPlaneAt slicePlaneNormal positions normals texCoords worldPos indices.

(** A property of what one round pushes that adds up over the rounds holds
    of what the loop pushes. *)
Lemma rounds_property
    (P : list nat -> list SliceVertex -> list SliceVertex -> list ContourPoint.t -> Prop) :
  P [] [] [] [] ->
  (forall i cs u l p u' l' p',
      P [i] u l p -> P cs u' l' p' -> P (i :: cs) (u ++ u') (l ++ l') (p ++ p')) ->
  (forall st i, exists up lo pts, step st i = emitted st up lo pts /\ P [i] up lo pts) ->
  forall counters st,
  exists up lo pts,
    fold_left step counters st = emitted st up lo pts /\ P counters up lo pts.
Proof.
  intros Hnil Happ Hstep counters.
  induction counters as [|i counters IH]; intro st; simpl fold_left.
  - exists [], [], []. rewrite emitted_nil. split; [reflexivity | exact Hnil].
  - destruct (Hstep st i) as (u & l & p & -> & HP).
    destruct (IH (emitted st u l p)) as (u' & l' & p' & -> & HP').
    rewrite emitted_emitted. exists (u ++ u'), (l ++ l'), (p ++ p').
    split; [reflexivity | apply Happ; assumption].
Qed.

Lemma sliceLoop_property
    (P : list nat -> list SliceVertex -> list SliceVertex -> list ContourPoint.t -> Prop) :
  P [] [] [] [] ->
  (forall i cs u l p u' l' p',
      P [i] u l p -> P cs u' l' p' -> P (i :: cs) (u ++ u') (l ++ l') (p ++ p')) ->
  (forall st i, exists up lo pts, step st i = emitted st up lo pts /\ P [i] up lo pts) ->
  exists up lo pts,
    sliceLoop Math_sqrt slicePlaneNormal positions normals texCoords worldPos indices
    = mkState up lo (seq 0 (length up)) (seq 0 (length lo)) pts pts /\
    P (loopCounters (length indices)) up lo pts.
Proof.
  intros Hnil Happ Hstep.
  destruct (rounds_property P Hnil Happ Hstep (loopCounters (length indices)) emptyState)
    as (up & lo & pts & Hst & HP).
  exists up, lo, pts. split; [|exact HP].
  unfold sliceLoop. fold step. rewrite Hst. reflexivity.
Qed.

Lemma entry_distance (e : E.t) (i : nat) :
  In e [entry i; entry (i + 1); entry (i + 2)] -> E.d e = side (E.v e).
Proof. intros [<-|[<-|[<-|[]]]]; reflexivity. Qed.

(** What one round pushes, with the case that decided it. *)
Lemma step_cases (st : SliceState) (i : nat) :
  (split i = false /\
   (step st i = emitted st [vertex i; vertex (i + 1); vertex (i + 2)] [] [] /\
    (applies AllAbove (distance i) (distance (i + 1)) (distance (i + 2)) \/
     applies OnPlane (distance i) (distance (i + 1)) (distance (i + 2))) \/
    step st i = emitted st [] [vertex i; vertex (i + 1); vertex (i + 2)] [] /\
    applies AllBelow (distance i) (distance (i + 1)) (distance (i + 2)))) \/
  (split i = true /\
   applies Straddle (distance i) (distance (i + 1)) (distance (i + 2)) /\
   exists two one pts,
     SplitShape Math_sqrt (entry i) (entry (i + 1)) (entry (i + 2)) two one pts /\
     (step st i = emitted st two one pts \/ step st i = emitted st one two pts)).
Proof.
  destruct (applies_decide (distance i) (distance (i + 1)) (distance (i + 2)))
    as (t & Ht & Huniq).
  pose proof (processTriangle_routed Math_sqrt slicePlaneNormal positions normals
                texCoords worldPos indices st i t Ht) as Hr.
  assert (Hsplit : split i = true <->
                   applies Straddle (distance i) (distance (i + 1)) (distance (i + 2)))
    by apply straddlesb_iff.
  destruct t; cbn [routed] in Hr.
  - left. split.
    + destruct (split i); [|reflexivity].
      assert (Straddle = AllAbove) by (apply Huniq, Hsplit; reflexivity). discriminate.
    + left. split; [exact Hr | left; exact Ht].
  - left. split.
    + destruct (split i); [|reflexivity].
      assert (Straddle = AllBelow) by (apply Huniq, Hsplit; reflexivity). discriminate.
    + right. split; [exact Hr | exact Ht].
  - left. split.
    + destruct (split i); [|reflexivity].
      assert (Straddle = OnPlane) by (apply Huniq, Hsplit; reflexivity). discriminate.
    + left. split; [exact Hr | right; exact Ht].
  - right. split; [apply Hsplit, Ht|]. split; [exact Ht|].
    destruct (splitTriangle_shape Math_sqrt (vertex i) (vertex (i + 1)) (vertex (i + 2))
                _ _ _ st (JS.at_ indices i) (JS.at_ indices (i + 1))
                (JS.at_ indices (i + 2)) Ht) as (two & one & pts & Hshape & Hst).
    exists two, one, pts. split; [exact Hshape|].
    destruct Hst as [Hst|Hst]; [left | right]; exact (eq_trans Hr Hst).
Qed.

(** X4.  When the loop ends both contours are the same list, with two
    points for every triangle that was split, and the two hulls together
    hold three vertices for every triangle that was not split and nine for
    every triangle that was. *)
Theorem X4_contour_and_vertex_count :
  let st := sliceLoop Math_sqrt slicePlaneNormal positions normals texCoords
                      worldPos indices in
  let rounds := loopCounters (length indices) in
  let splits := length (filter split rounds) in
  upperContour st = lowerContour st /\
  length (upperContour st) = (2 * splits)%nat /\
  (length (upperVertices st) + length (lowerVertices st)
   = 3 * (length rounds - splits) + 9 * splits)%nat.
Proof.
  intros st rounds splits.
  destruct (sliceLoop_property
              (fun cs up lo pts =>
                 length pts = (2 * length (filter split cs))%nat /\
                 (length up + length lo
                  = 3 * length cs + 6 * length (filter split cs))%nat))
    as (up & lo & pts & Hst & Hpts & Hverts).
  - split; reflexivity.
  - intros i cs u l p u' l' p' [H1 H2] [H1' H2']. simpl in H1, H2 |- *.
    rewrite !length_app. destruct (split i); simpl in *; lia.
  - intros st0 i.
    destruct (step_cases st0 i)
      as [(Hs & [(-> & _)|(-> & _)])|(Hs & _ & two & one & pts & Hshape & [-> | ->])];
      do 3 eexists; (split; [reflexivity|]); simpl; rewrite Hs;
      try (split; reflexivity);
      destruct Hshape; split; reflexivity.
  - subst st. rewrite Hst. cbn [upperContour lowerContour upperVertices lowerVertices].
    split; [reflexivity|]. split; [exact Hpts|].
    assert (length (filter split rounds) <= length rounds)%nat by apply filter_length_le.
    subst splits rounds. lia.
Qed.

(** Every contour point lies on the plane. *)
Lemma contour_on_plane :
  exists up lo pts,
    sliceLoop Math_sqrt slicePlaneNormal positions normals texCoords worldPos indices
    = mkState up lo (seq 0 (length up)) (seq 0 (length lo)) pts pts /\
    Forall (fun pt => sidePt pt == 0) pts.
Proof.
  apply (sliceLoop_property (fun _ _ _ pts => Forall (fun pt => sidePt pt == 0) pts)).
  - constructor.
  - intros i cs u l p u' l' p' H H'. apply Forall_app. split; assumption.
  - intros st0 i.
    destruct (step_cases st0 i)
      as [(_ & [(-> & _)|(-> & _)])|(_ & _ & two & one & pts & Hshape & Hst)].
    + do 3 eexists. split; [reflexivity | constructor].
    + do 3 eexists. split; [reflexivity | constructor].
    + assert (Hpts : Forall (fun pt => sidePt pt == 0) pts).
      { destruct Hshape as [p q r Harr _ Hpr Hqr | p q r Harr _ Hrp Hrq];
          destruct (arranged_In _ _ _ _ _ _ Harr) as (H1 & H2 & H3);
          repeat (apply Forall_cons || apply Forall_nil);
          unfold sidePt, sideOfPoint;
          apply edgeCut_on_plane; auto; apply (entry_distance _ i); assumption. }
      destruct Hst as [-> | ->]; do 3 eexists; (split; [reflexivity | exact Hpts]).
Qed.

Lemma offPlane_dec (i : nat) : offPlane i \/ ~ offPlane i.
Proof.
  unfold offPlane, offPlaneAt.
  destruct (Qeq_dec (distanceAt slicePlaneNormal positions normals texCoords worldPos indices i) 0);
    destruct (Qeq_dec (distanceAt slicePlaneNormal positions normals texCoords worldPos
                                  indices (i + 1)) 0);
    destruct (Qeq_dec (distanceAt slicePlaneNormal positions normals texCoords worldPos
                                  indices (i + 2)) 0);
    tauto.
Qed.

Lemma cut_side (i : nat) (x y : E.t) :
  In x [entry i; entry (i + 1); entry (i + 2)] ->
  In y [entry i; entry (i + 1); entry (i + 2)] ->
  crossing x y ->
  side (edgeCut Math_sqrt x y) == 0.
Proof.
  intros Hx Hy Hc.
  exact (edgeCut_on_plane Math_sqrt slicePlaneNormal worldPos x y
           (entry_distance x i Hx) (entry_distance y i Hy) Hc).
Qed.

(** A split with no vertex on the plane: what lies above goes up, what
    lies below goes down. *)
Lemma split_sides (st : SliceState) (i : nat) :
  applies Straddle (distance i) (distance (i + 1)) (distance (i + 2)) ->
  offPlane i ->
  exists up lo pts,
    splitTriangle Math_sqrt (vertex i) (vertex (i + 1)) (vertex (i + 2))
                  (distance i) (distance (i + 1)) (distance (i + 2)) st
                  (JS.at_ indices i) (JS.at_ indices (i + 1)) (JS.at_ indices (i + 2))
    = emitted st up lo pts /\
    Forall (fun v => 0 <= side v) up /\ Forall (fun v => side v <= 0) lo.
Proof.
  intros Hstr (N0 & N1 & N2). fold distance in N0, N1, N2.
  destruct (splitTriangle_cases Math_sqrt (vertex i) (vertex (i + 1)) (vertex (i + 2))
              (distance i) (distance (i + 1)) (distance (i + 2)) st
              (JS.at_ indices i) (JS.at_ indices (i + 1)) (JS.at_ indices (i + 2)))
    as (a & b & c & Harr & Hab & Hbc & Hcases).
  fold (entry i) (entry (i + 1)) (entry (i + 2)) in Harr.
  assert (Habc : applies Straddle (E.d a) (E.d b) (E.d c))
    by (apply (Straddle_arranged _ _ _ _ _ _ Harr); exact Hstr).
  destruct (arranged_In _ _ _ _ _ _ Harr) as (Ia & Ib & Ic).
  assert (Hnz : forall e, In e [entry i; entry (i + 1); entry (i + 2)] -> ~ E.d e == 0)
    by (intros e [<-|[<-|[<-|[]]]]; assumption).
  pose proof (Hnz a Ia) as Na. pose proof (Hnz b Ib) as Nb. pose proof (Hnz c Ic) as Nc.
  assert (Da : E.d a == side (E.v a)) by (rewrite <- (entry_distance a i Ia); reflexivity).
  assert (Db : E.d b == side (E.v b)) by (rewrite <- (entry_distance b i Ib); reflexivity).
  assert (Dc : E.d c == side (E.v c)) by (rewrite <- (entry_distance c i Ic); reflexivity).
  unfold applies, sidesSum, someSignZero in Habc.
  destruct Hcases as [(Hs & Hlt & ->)|[(Hs & Hlt & ->)|[(Hs & Hlt & ->)|(Hs & Hlt & ->)]]];
    sign_cases (E.d a); sign_cases (E.d b); sign_cases (E.d c);
    rewrite ?Es, ?Es0, ?Es1 in *; try (exfalso; lra); try (exfalso; lia);
    try (exfalso; tauto).
  - assert (Cac : side (edgeCut Math_sqrt a c) == 0)
      by (apply (cut_side i); auto; split; [left; split; lra | intros [? ?]; lra]).
    assert (Cbc : side (edgeCut Math_sqrt b c) == 0)
      by (apply (cut_side i); auto; split; [left; split; lra | intros [? ?]; lra]).
    do 3 eexists. split; [reflexivity|].
    split; repeat (apply Forall_cons || apply Forall_nil); lra.
  - assert (Cab : side (edgeCut Math_sqrt a b) == 0)
      by (apply (cut_side i); auto; split; [left; split; lra | intros [? ?]; lra]).
    assert (Cac : side (edgeCut Math_sqrt a c) == 0)
      by (apply (cut_side i); auto; split; [left; split; lra | intros [? ?]; lra]).
    do 3 eexists. split; [reflexivity|].
    split; repeat (apply Forall_cons || apply Forall_nil); lra.
Qed.


End Rounds.

(** ** The hulls that [sliceMesh] returns *)

Lemma count_nonzero (pts : list ContourPoint.t) :
  pts <> [] -> ~ inject_Z (Z.of_nat (length pts)) == 0.
Proof.
  intros Hne H. destruct pts as [|pt pts]; [congruence|].
  unfold Qeq in H. simpl in H. lia.
Qed.

Lemma count_succ (n : nat) :
  inject_Z (Z.of_nat (S n)) == inject_Z (Z.of_nat n) + 1.
Proof. rewrite Nat2Z.inj_succ. unfold Z.succ. rewrite inject_Z_plus. reflexivity. Qed.

Section PlanarCap.

Variable slicePlaneNormal : Vec3.
Variable worldPos : Vec3.

Let side := sideOf slicePlaneNormal worldPos.
Let sidePt := sideOfPoint slicePlaneNormal worldPos.

(** The plane's own term of the signed distance. *)
Let offset : Q :=
  c0 slicePlaneNormal * c0 worldPos + c1 slicePlaneNormal * c1 worldPos
  + c2 slicePlaneNormal * c2 worldPos.

Lemma sum_on_plane (pts : list ContourPoint.t) :
  Forall (fun pt => sidePt pt == 0) pts ->
  c0 slicePlaneNormal * sumOf c0 pts + c1 slicePlaneNormal * sumOf c1 pts
  + c2 slicePlaneNormal * sumOf c2 pts
  == inject_Z (Z.of_nat (length pts)) * offset.
Proof.
  induction 1 as [|pt pts Hpt _ IH].
  - simpl. unfold offset. ring.
  - cbn [length sumOf fold_right]. fold (sumOf c0 pts) (sumOf c1 pts) (sumOf c2 pts).
    rewrite count_succ.
    unfold sidePt, sideOfPoint, getSideOfPlane in Hpt. cbv zeta in Hpt.
    unfold offset in *. nra.
Qed.

Lemma centroid_on_plane (pts : list ContourPoint.t) :
  pts <> [] ->
  Forall (fun pt => sidePt pt == 0) pts ->
  getSideOfPlane slicePlaneNormal (centroidOf pts) worldPos == 0.
Proof.
  intros Hne Hall.
  destruct (centroidOf_isMean pts) as (H0 & H1 & H2). cbv zeta in H0, H1, H2.
  pose proof (sum_on_plane pts Hall) as Hsum.
  pose proof (count_nonzero pts Hne) as Hn.
  unfold getSideOfPlane. cbv zeta. rewrite H0, H1, H2.
  set (n := inject_Z (Z.of_nat (length pts))) in *.
  assert (E : c0 slicePlaneNormal * (sumOf c0 pts / n - c0 worldPos)
              + c1 slicePlaneNormal * (sumOf c1 pts / n - c1 worldPos)
              + c2 slicePlaneNormal * (sumOf c2 pts / n - c2 worldPos)
              == (c0 slicePlaneNormal * sumOf c0 pts + c1 slicePlaneNormal * sumOf c1 pts
                  + c2 slicePlaneNormal * sumOf c2 pts - n * offset) / n)
    by (unfold offset; field; exact Hn).
  rewrite E, Hsum. field. exact Hn.
Qed.

(** A cap over contour points of the plane lies in the plane. *)
Lemma generateCap_on_plane (vertices : list SliceVertex) (indices : list nat)
    (contour : list ContourPoint.t) (isUpper : bool) :
  Forall (fun pt => sidePt pt == 0) contour ->
  exists cap indices',
    generateCap slicePlaneNormal vertices indices contour isUpper
    = (vertices ++ cap, indices') /\
    Forall (fun v => side v == 0) cap.
Proof.
  intro Hall.
  assert (Hunique : Forall (fun pt => sidePt pt == 0) (removeDuplicates contour)).
  { apply Forall_forall. intros pt Hpt.
    apply (proj1 (Forall_forall _ _) Hall), removeDuplicates_incl, Hpt. }
  destruct (Nat.lt_ge_cases (length (removeDuplicates contour)) 3) as [Hlt|Hge].
  - exists [], indices. rewrite app_nil_r. split; [|constructor].
    apply generateCap_small, Hlt.
  - rewrite (generateCap_fan slicePlaneNormal vertices indices contour isUpper Hge).
    do 2 eexists. split; [reflexivity|].
    constructor.
    + apply centroid_on_plane; [|exact Hunique].
      intro Hnil. rewrite Hnil in Hge. simpl in Hge. lia.
    + apply Forall_forall. intros v Hv. apply in_map_iff in Hv.
      destruct Hv as (pt & <- & Hpt).
      exact (proj1 (Forall_forall _ _) Hunique pt Hpt).
Qed.

(** The two caps over one contour. *)
Lemma generateCap_twins (up lo : list SliceVertex) (ixU ixL : list nat)
    (contour : list ContourPoint.t) :
  exists capU capL ixU' ixL',
    generateCap slicePlaneNormal up ixU contour true = (up ++ capU, ixU') /\
    generateCap slicePlaneNormal lo ixL contour false = (lo ++ capL, ixL') /\
    map position capU = map position capL /\
    map texCoord capU = map texCoord capL /\
    Forall (fun v => normal v = Some slicePlaneNormal) capU /\
    Forall (fun v => normal v = Some (negated slicePlaneNormal)) capL.
Proof.
  destruct (Nat.lt_ge_cases (length (removeDuplicates contour)) 3) as [Hlt|Hge].
  - exists [], [], ixU, ixL. rewrite !app_nil_r.
    split; [apply generateCap_small, Hlt|]. split; [apply generateCap_small, Hlt|].
    repeat split; constructor.
  - rewrite (generateCap_fan slicePlaneNormal up ixU contour true Hge).
    rewrite (generateCap_fan slicePlaneNormal lo ixL contour false Hge).
    do 4 eexists. split; [reflexivity|]. split; [reflexivity|].
    cbn [map]. rewrite !map_map. cbn [capVertex position texCoord].
    split; [reflexivity|]. split; [reflexivity|].
    split; (constructor; [reflexivity|]); apply Forall_forall; intros v Hv;
      apply in_map_iff in Hv; destruct Hv as (pt & <- & _); reflexivity.
Qed.

(** [generateCap] keeps a triangle list a triangle list. *)
Lemma generateCap_triangleList (vertices : list SliceVertex) (indices : list nat)
    (contour : list ContourPoint.t) (isUpper : bool) :
  triangleList vertices indices ->
  exists vertices' indices',
    generateCap slicePlaneNormal vertices indices contour isUpper = (vertices', indices') /\
    triangleList vertices' indices' /\
    (length vertices <= length vertices')%nat /\ (length indices <= length indices')%nat.
Proof.
  intros [[T HT] Hrange].
  destruct (Nat.lt_ge_cases (length (removeDuplicates contour)) 3) as [Hlt|Hge].
  - exists vertices, indices. split; [apply generateCap_small, Hlt|].
    split; [split; [exists T; exact HT | exact Hrange]|]. split; lia.
  - rewrite (generateCap_fan slicePlaneNormal vertices indices contour isUpper Hge).
    set (n := length (removeDuplicates contour)) in *.
    do 2 eexists. split; [reflexivity|]. unfold triangleList.
    rewrite !length_app, fan_length. cbn [length]. rewrite length_map. fold n.
    split; [|split; lia].
    split; [exists (T + n)%nat; lia|].
    apply Forall_app. split.
    + eapply Forall_impl; [|exact Hrange]. cbv beta. intros k Hk. lia.
    + apply Forall_forall. intros k Hk. apply in_flat_map in Hk.
      destruct Hk as (i & Hi & Hk). apply in_seq in Hi.
      assert (Hmod : ((i + 1) mod n < n)%nat) by (apply Nat.mod_upper_bound; lia).
      unfold fanTriangle in Hk. destruct isUpper; simpl in Hk;
        destruct Hk as [<-|[<-|[<-|[]]]]; lia.
Qed.

End PlanarCap.

Section Returned.

Variable Math_sqrt : Q -> Q.
Variable slicePlaneNormal : Vec3.
Variable worldPos : Vec3.

(** What a call that returns hulls went through. *)
Lemma sliceMesh_returned (originalMesh : Mesh) (upperHull lowerHull : Hull) :
  returned (sliceMesh Math_sqrt slicePlaneNormal worldPos originalMesh)
  = Some (upperHull, lowerHull) ->
  exists (positions : MeshAttributeAccessor Vec3) (indices : list nat),
    attrPosition originalMesh = Some positions /\
    indexData originalMesh = Some indices /\
    let st := sliceLoop Math_sqrt slicePlaneNormal positions (attrNormal originalMesh)
                        (attrTextureCoordinate originalMesh) worldPos indices in
    upperVertices st <> [] /\ lowerVertices st <> [] /\
    generateCap slicePlaneNormal (upperVertices st) (upperIndices st) (upperContour st) true
    = (hullVertices upperHull, hullIndices upperHull) /\
    generateCap slicePlaneNormal (lowerVertices st) (lowerIndices st) (lowerContour st) false
    = (hullVertices lowerHull, hullIndices lowerHull) /\
    warnings (sliceMesh Math_sqrt slicePlaneNormal worldPos originalMesh) = [].
Proof.
  unfold sliceMesh.
  destruct (attrPosition originalMesh) as [positions|]; [|discriminate].
  destruct (indexData originalMesh) as [indices|]; [|discriminate].
  cbv zeta. intro H. exists positions, indices.
  split; [reflexivity|]. split; [reflexivity|].
  destruct (upperVertices _) as [|u0 up] eqn:Hup; [discriminate|].
  destruct (lowerVertices _) as [|l0 lo] eqn:Hlo; [discriminate|].
  cbn [length Nat.eqb orb] in H |- *.
  destruct (generateCap slicePlaneNormal (u0 :: up) _ _ true) as [uv ui].
  destruct (generateCap slicePlaneNormal (l0 :: lo) _ _ false) as [lv li].
  cbn [returned] in H. injection H as <- <-.
  repeat split; discriminate.
Qed.

(** X5.  All contour points lie on the cut plane, and so do all vertices
    of the caps of the hulls that [sliceMesh] returns, the centroids
    included. *)
Theorem X5_planar_cap (originalMesh : Mesh) (upperHull lowerHull : Hull) :
  returned (sliceMesh Math_sqrt slicePlaneNormal worldPos originalMesh)
  = Some (upperHull, lowerHull) ->
  exists (positions : MeshAttributeAccessor Vec3) (indices : list nat)
         (capU capL : list SliceVertex),
    attrPosition originalMesh = Some positions /\
    indexData originalMesh = Some indices /\
    let st := sliceLoop Math_sqrt slicePlaneNormal positions (attrNormal originalMesh)
                        (attrTextureCoordinate originalMesh) worldPos indices in
    hullVertices upperHull = upperVertices st ++ capU /\
    hullVertices lowerHull = lowerVertices st ++ capL /\
    Forall (fun pt => sideOfPoint slicePlaneNormal worldPos pt == 0) (upperContour st) /\
    Forall (fun v => sideOf slicePlaneNormal worldPos v == 0) (capU ++ capL).
Proof.
  intro H.
  destruct (sliceMesh_returned originalMesh upperHull lowerHull H)
    as (positions & indices & Hpos & Hix & Hrest).
  cbv zeta in Hrest. destruct Hrest as (_ & _ & HU & HL & _).
  destruct (contour_on_plane Math_sqrt slicePlaneNormal positions (attrNormal originalMesh)
              (attrTextureCoordinate originalMesh) worldPos indices)
    as (up & lo & pts & Hst & Hpts).
  rewrite Hst in HU, HL.
  cbn [upperVertices lowerVertices upperIndices lowerIndices upperContour lowerContour]
    in HU, HL.
  destruct (generateCap_on_plane slicePlaneNormal worldPos up (seq 0 (length up)) pts true Hpts)
    as (capU & ixU & HcapU & HonU).
  destruct (generateCap_on_plane slicePlaneNormal worldPos lo (seq 0 (length lo)) pts false Hpts)
    as (capL & ixL & HcapL & HonL).
  rewrite HcapU in HU. rewrite HcapL in HL.
  injection HU as HU _. injection HL as HL _.
  exists positions, indices, capU, capL.
  split; [exact Hpos|]. split; [exact Hix|].
  cbv zeta. rewrite Hst. cbn [upperVertices lowerVertices upperContour].
  split; [symmetry; exact HU|]. split; [symmetry; exact HL|].
  split; [exact Hpts|]. apply Forall_app. split; assumption.
Qed.

(** The hulls that [sliceMesh] returns are lists of triangles. *)
Lemma sliceMesh_triangleLists (originalMesh : Mesh) (upperHull lowerHull : Hull) :
  returned (sliceMesh Math_sqrt slicePlaneNormal worldPos originalMesh)
  = Some (upperHull, lowerHull) ->
  (triangleList (hullVertices upperHull) (hullIndices upperHull) /\
   (3 <= length (hullVertices upperHull))%nat /\ (3 <= length (hullIndices upperHull))%nat) /\
  (triangleList (hullVertices lowerHull) (hullIndices lowerHull) /\
   (3 <= length (hullVertices lowerHull))%nat /\ (3 <= length (hullIndices lowerHull))%nat) /\
  warnings (sliceMesh Math_sqrt slicePlaneNormal worldPos originalMesh) = [].
Proof.
  intro H.
  destruct (sliceMesh_returned originalMesh upperHull lowerHull H)
    as (positions & indices & Hpos & Hix & Hrest).
  cbv zeta in Hrest. destruct Hrest as (HneU & HneL & HU & HL & Hwarn).
  destruct (sliceLoop_emitted Math_sqrt slicePlaneNormal positions (attrNormal originalMesh)
              (attrTextureCoordinate originalMesh) worldPos indices)
    as (up & lo & pts & Hst & (a & b & Ha & Hb & _) & _).
  rewrite Hst in HU, HL, HneU, HneL.
  cbn [upperVertices lowerVertices upperIndices lowerIndices upperContour lowerContour]
    in HU, HL, HneU, HneL.
  assert (Hbase : forall (vs : list SliceVertex) (n : nat),
             length vs = (3 * n)%nat -> vs <> [] ->
             triangleList vs (seq 0 (length vs)) /\ (3 <= length vs)%nat).
  { intros vs n Hn Hne. split.
    - split; [exists n; rewrite length_seq; exact Hn|].
      apply Forall_forall. intros k Hk. apply in_seq in Hk. lia.
    - destruct vs; [congruence|]. destruct n; simpl in *; lia. }
  destruct (Hbase up a Ha HneU) as [HtU HlenU].
  destruct (Hbase lo b Hb HneL) as [HtL HlenL].
  destruct (generateCap_triangleList slicePlaneNormal up (seq 0 (length up)) pts true HtU)
    as (vU & iU & HgU & HtU' & HvU & HiU).
  destruct (generateCap_triangleList slicePlaneNormal lo (seq 0 (length lo)) pts false HtL)
    as (vL & iL & HgL & HtL' & HvL & HiL).
  rewrite HgU in HU. rewrite HgL in HL.
  injection HU as <- <-. injection HL as <- <-.
  rewrite length_seq in HiU, HiL.
  split; [split; [exact HtU'|]; split; lia|].
  split; [split; [exact HtL'|]; split; lia|].
  exact Hwarn.
Qed.

(** X6.  Each hull that [sliceMesh] returns is a list of at least one
    triangle: the number of its indices is a multiple of three, every index
    is the index of one of its vertices, and it has at least three
    vertices; and a call that returns hulls writes no warning. *)
Theorem X6_hulls_are_triangle_lists (originalMesh : Mesh) (upperHull lowerHull : Hull) :
  returned (sliceMesh Math_sqrt slicePlaneNormal worldPos originalMesh)
  = Some (upperHull, lowerHull) ->
  (triangleList (hullVertices upperHull) (hullIndices upperHull) /\
   (3 <= length (hullVertices upperHull))%nat /\ (3 <= length (hullIndices upperHull))%nat) /\
  (triangleList (hullVertices lowerHull) (hullIndices lowerHull) /\
   (3 <= length (hullVertices lowerHull))%nat /\ (3 <= length (hullIndices lowerHull))%nat) /\
  warnings (sliceMesh Math_sqrt slicePlaneNormal worldPos originalMesh) = [].
Proof. exact (sliceMesh_triangleLists originalMesh upperHull lowerHull). Qed.

(** X7.  The two caps are twins: the cap of the upper hull and the cap of
    the lower hull have the same vertex positions and texture coordinates
    in the same order (both are empty when no cap is built), the former
    with the plane normal and the latter with its negation. *)
Theorem X7_caps_are_twins (originalMesh : Mesh) (upperHull lowerHull : Hull) :
  returned (sliceMesh Math_sqrt slicePlaneNormal worldPos originalMesh)
  = Some (upperHull, lowerHull) ->
  exists (positions : MeshAttributeAccessor Vec3) (indices : list nat)
         (capU capL : list SliceVertex),
    attrPosition originalMesh = Some positions /\
    indexData originalMesh = Some indices /\
    let st := sliceLoop Math_sqrt slicePlaneNormal positions (attrNormal originalMesh)
                        (attrTextureCoordinate originalMesh) worldPos indices in
    hullVertices upperHull = upperVertices st ++ capU /\
    hullVertices lowerHull = lowerVertices st ++ capL /\
    map position capU = map position capL /\
    map texCoord capU = map texCoord capL /\
    Forall (fun v => normal v = Some slicePlaneNormal) capU /\
    Forall (fun v => normal v = Some (negated slicePlaneNormal)) capL.
Proof.
  intro H.
  destruct (sliceMesh_returned originalMesh upperHull lowerHull H)
    as (positions & indices & Hpos & Hix & Hrest).
  cbv zeta in Hrest. destruct Hrest as (_ & _ & HU & HL & _).
  destruct (sliceLoop_emitted Math_sqrt slicePlaneNormal positions (attrNormal originalMesh)
              (attrTextureCoordinate originalMesh) worldPos indices)
    as (up & lo & pts & Hst & _).
  rewrite Hst in HU, HL.
  cbn [upperVertices lowerVertices upperIndices lowerIndices upperContour lowerContour]
    in HU, HL.
  destruct (generateCap_twins slicePlaneNormal up lo (seq 0 (length up)) (seq 0 (length lo)) pts)
    as (capU & capL & ixU & ixL & HcapU & HcapL & Hp & Ht & HnU & HnL).
  rewrite HcapU in HU. rewrite HcapL in HL.
  injection HU as HU _. injection HL as HL _.
  exists positions, indices, capU, capL.
  split; [exact Hpos|]. split; [exact Hix|].
  cbv zeta. rewrite Hst. cbn [upperVertices lowerVertices].
  split; [symmetry; exact HU|]. split; [symmetry; exact HL|].
  repeat split; assumption.
Qed.

End Returned.

(** ** Deduplication twice *)

Lemma removeDuplicates_fixed (l : list ContourPoint.t) :
  (forall j k e pt,
      (j < k)%nat -> nth_error l j = Some e -> nth_error l k = Some pt ->
      near pt e = false) ->
  removeDuplicates l = l.
Proof.
  induction l as [|p l IH] using rev_ind; intro Hapart; [reflexivity|].
  rewrite removeDuplicates_snoc. rewrite IH.
  - assert (Hnone : JS.some (near p) l = false).
    { unfold JS.some. destruct (existsb (near p) l) eqn:Hex; [|reflexivity].
      apply existsb_exists in Hex. destruct Hex as (e & He & Hn).
      apply In_nth_error in He. destruct He as (j & Hj).
      assert (Hlt : (j < length l)%nat) by (apply nth_error_Some; congruence).
      rewrite <- Hn.
      apply (Hapart j (length l) e p Hlt).
      - rewrite nth_error_app1 by exact Hlt. exact Hj.
      - rewrite nth_error_app2 by lia. rewrite Nat.sub_diag. reflexivity. }
    rewrite Hnone. reflexivity.
  - intros j k e pt Hjk Hj Hk.
    assert (Hk' : (k < length l)%nat) by (apply nth_error_Some; congruence).
    apply (Hapart j k e pt Hjk).
    + rewrite nth_error_app1 by lia. exact Hj.
    + rewrite nth_error_app1 by lia. exact Hk.
Qed.

(** X8.  Deduplicating a second time changes nothing, and the first
    contour point is always kept, in the first place. *)
Theorem X8_dedup_idempotent (contour : list ContourPoint.t) :
  removeDuplicates (removeDuplicates contour) = removeDuplicates contour /\
  (forall pt rest, contour = pt :: rest ->
                   exists kept, removeDuplicates contour = pt :: kept).
Proof.
  split.
  - apply removeDuplicates_fixed, removeDuplicates_apart.
  - intros pt rest ->.
    induction rest as [|q rest IH] using rev_ind.
    + exists []. reflexivity.
    + destruct IH as (kept & IH).
      change (pt :: rest ++ [q]) with ((pt :: rest) ++ [q]).
      rewrite removeDuplicates_snoc, IH.
      eexists. rewrite <- app_comm_cons. reflexivity.
Qed.

(** * Mesh creation *)

Lemma setAt_middle {A : Type} (pre : list A) (x y : A) (rest : list A) :
  setAt (pre ++ x :: rest) (length pre) y = pre ++ y :: rest.
Proof. induction pre as [|z pre IH]; simpl; [reflexivity | now rewrite IH]. Qed.

Lemma skipn_head {A : Type} (l : list A) (k : nat) (x : A) :
  nth_error l k = Some x -> skipn k l = x :: skipn (S k) l.
Proof.
  revert k. induction l as [|y l IH]; intros [|k] H; simpl in *; try discriminate.
  - now injection H as ->.
  - apply IH, H.
Qed.

Lemma firstn_snoc {A : Type} (l : list A) (k : nat) (x : A) :
  nth_error l k = Some x -> firstn (S k) l = firstn k l ++ [x].
Proof.
  revert k. induction l as [|y l IH]; intros [|k] H; simpl in *; try discriminate.
  - now injection H as ->.
  - f_equal. apply IH, H.
Qed.

(** The loop that fills an attribute writes every entry: what the engine
    left in them does not show. *)
Lemma setEach_map {B : Type} (value : SliceVertex -> B)
    (vertices : list SliceVertex) (data : list B) :
  length data = length vertices ->
  setEach value vertices data = map value vertices.
Proof.
  intro Hlen. unfold setEach.
  assert (Hk : forall k, (k <= length vertices)%nat ->
             fold_left
               (fun data i =>
                  match nth_error vertices i with
                  | Some v => setAt data i (value v)
                  | None => data
                  end) (seq 0 k) data
             = map value (firstn k vertices) ++ skipn k data).
  { induction k as [|k IH]; intro Hle; [reflexivity|].
    rewrite seq_S, fold_left_app, IH by lia. cbn [fold_left Nat.add].
    destruct (nth_error vertices k) as [v|] eqn:Hv;
      [|apply nth_error_None in Hv; lia].
    destruct (nth_error data k) as [x|] eqn:Hx;
      [|apply nth_error_None in Hx; lia].
    rewrite (skipn_head data k x Hx), (firstn_snoc vertices k v Hv), map_app.
    assert (Hpre : length (map value (firstn k vertices)) = k)
      by (rewrite length_map, length_firstn; lia).
    pose proof (setAt_middle (map value (firstn k vertices)) x (value v)
                  (skipn (S k) data)) as Hm.
    rewrite Hpre in Hm. rewrite Hm, <- app_assoc. reflexivity. }
  rewrite (Hk (length vertices) (Nat.le_refl _)).
  rewrite firstn_all, skipn_all2 by lia. apply app_nil_r.
Qed.

Section CreatedMeshes.

Variable hasPosition hasNormal hasTextureCoordinate : bool.
Variable blank3 : Vec3.
Variable blank2 : Vec2.

(** The data of the mesh that [createMeshObject] creates. *)
Lemma createMeshObject_data (vertices : list SliceVertex) (indices : list nat) :
  (N.of_nat (length vertices) < 4294967296)%N ->
  Forall (fun k => (k < length vertices)%nat) indices ->
  let mesh := createMeshObject hasPosition hasNormal hasTextureCoordinate
                               blank3 blank2 vertices indices in
  vertexCount mesh = length vertices /\
  elementsOf (createdIndexData mesh) = map N.of_nat indices /\
  (createdIndexData mesh
   = if (65535 <? N.of_nat (length vertices))%N
     then Uint32Array (map N.of_nat indices) else Uint16Array (map N.of_nat indices)) /\
  positionData mesh
  = (if hasPosition then Some (map position vertices) else None) /\
  normalData mesh
  = (if hasNormal
     then Some (map (fun v => match normal v with Some n => n | None => mkVec3 0 1 0 end)
                    vertices)
     else None) /\
  textureCoordinateData mesh
  = (if hasTextureCoordinate
     then Some (map (fun v => match texCoord v with Some uv => uv | None => mkVec2 0 0 end)
                    vertices)
     else None).
Proof.
  intros Hsize Hrange mesh.
  assert (Hix : createdIndexData mesh
                = if (65535 <? N.of_nat (length vertices))%N
                  then Uint32Array (map N.of_nat indices)
                  else Uint16Array (map N.of_nat indices)).
  { subst mesh. unfold createMeshObject. cbn [createdIndexData].
    destruct (N.ltb_spec 65535 (N.of_nat (length vertices))) as [Hbig|Hsmall];
      f_equal; apply map_ext_in; intros k Hk;
      pose proof (proj1 (Forall_forall _ _) Hrange k Hk) as Hlt; cbv beta in Hlt.
    - unfold ToUint32. apply N.mod_small. lia.
    - unfold ToUint16. apply N.mod_small. lia. }
  split; [reflexivity|].
  split; [rewrite Hix; destruct (65535 <? _)%N; reflexivity|].
  split; [exact Hix|].
  subst mesh. unfold createMeshObject.
  cbn [positionData normalData textureCoordinateData].
  rewrite !setEach_map by apply repeat_length.
  repeat split; reflexivity.
Qed.

(** X9.  [createMeshObject] hands every index to the engine unchanged: a
    buffer of at most 65535 vertices is stored in 16 bits and a larger one
    in 32 bits, and no index of a triangle list wraps around.  Every
    attribute the created mesh has gets one value per vertex: the vertex's
    own, or [0, 1, 0] for a missing normal and [0, 0] for a missing texture
    coordinate. *)
Theorem X9_created_mesh (vertices : list SliceVertex) (indices : list nat) :
  (N.of_nat (length vertices) < 4294967296)%N ->
  Forall (fun k => (k < length vertices)%nat) indices ->
  let mesh := createMeshObject hasPosition hasNormal hasTextureCoordinate
                               blank3 blank2 vertices indices in
  vertexCount mesh = length vertices /\
  elementsOf (createdIndexData mesh) = map N.of_nat indices /\
  (createdIndexData mesh
   = if (65535 <? N.of_nat (length vertices))%N
     then Uint32Array (map N.of_nat indices) else Uint16Array (map N.of_nat indices)) /\
  positionData mesh
  = (if hasPosition then Some (map position vertices) else None) /\
  normalData mesh
  = (if hasNormal
     then Some (map (fun v => match normal v with Some n => n | None => mkVec3 0 1 0 end)
                    vertices)
     else None) /\
  textureCoordinateData mesh
  = (if hasTextureCoordinate
     then Some (map (fun v => match texCoord v with Some uv => uv | None => mkVec2 0 0 end)
                    vertices)
     else None).
Proof. exact (createMeshObject_data vertices indices). Qed.

End CreatedMeshes.

Lemma X9_witness :
  ((N.of_nat (length BufferSample.vertices) < 4294967296)%N /\
   Forall (fun k => (k < length BufferSample.vertices)%nat) BufferSample.indices) /\
  let mesh := createMeshObject true true false Sample.origin (mkVec2 0 0)
                               BufferSample.vertices BufferSample.indices in
  vertexCount mesh = length BufferSample.vertices /\
  elementsOf (createdIndexData mesh) = map N.of_nat BufferSample.indices /\
  (createdIndexData mesh
   = if (65535 <? N.of_nat (length BufferSample.vertices))%N
     then Uint32Array (map N.of_nat BufferSample.indices)
     else Uint16Array (map N.of_nat BufferSample.indices)) /\
  positionData mesh = Some (map position BufferSample.vertices) /\
  normalData mesh
  = Some (map (fun v => match normal v with Some n => n | None => mkVec3 0 1 0 end)
              BufferSample.vertices) /\
  textureCoordinateData mesh = None.
Proof.
  assert (H1 : (N.of_nat (length BufferSample.vertices) < 4294967296)%N)
    by (vm_compute; reflexivity).
  assert (H2 : Forall (fun k => (k < length BufferSample.vertices)%nat) BufferSample.indices)
    by (repeat constructor).
  split; [split; assumption|].
  exact (X9_created_mesh true true false Sample.origin (mkVec2 0 0)
           BufferSample.vertices BufferSample.indices H1 H2).
Defined.

(** * The properties of the whole slicing at the tetrahedron *)


Lemma X5_witness :
  (exists positions indices,
      attrPosition Tetrahedron.bareMesh = Some positions /\
      indexData Tetrahedron.bareMesh = Some indices) /\
  (forall Math_sqrt : Q -> Q,
      exists upperHull lowerHull : Hull,
        returned (sliceMesh Math_sqrt Sample.up Sample.origin Tetrahedron.bareMesh)
        = Some (upperHull, lowerHull) /\
        exists (positions : MeshAttributeAccessor Vec3) (indices : list nat)
               (capU capL : list SliceVertex),
          attrPosition Tetrahedron.bareMesh = Some positions /\
          indexData Tetrahedron.bareMesh = Some indices /\
          let st := sliceLoop Math_sqrt Sample.up positions
                              (attrNormal Tetrahedron.bareMesh)
                              (attrTextureCoordinate Tetrahedron.bareMesh)
                              Sample.origin indices in
          hullVertices upperHull = upperVertices st ++ capU /\
          hullVertices lowerHull = lowerVertices st ++ capL /\
          Forall (fun pt => sideOfPoint Sample.up Sample.origin pt == 0) (upperContour st) /\
          Forall (fun v => sideOf Sample.up Sample.origin v == 0) (capU ++ capL)).
Proof.
  split; [do 2 eexists; split; reflexivity|]. intro Math_sqrt.
  assert (H : exists upperHull lowerHull : Hull,
             returned (sliceMesh Math_sqrt Sample.up Sample.origin Tetrahedron.bareMesh)
             = Some (upperHull, lowerHull)).
  { do 2 eexists. vm_compute. reflexivity. }
  destruct H as (upperHull & lowerHull & H).
  exists upperHull, lowerHull. split; [exact H|].
  exact (X5_planar_cap Math_sqrt Sample.up Sample.origin Tetrahedron.bareMesh
           upperHull lowerHull H).
Defined.

Lemma X6_witness :
  (exists positions indices,
      attrPosition Tetrahedron.fullMesh = Some positions /\
      indexData Tetrahedron.fullMesh = Some indices) /\
  (forall Math_sqrt : Q -> Q,
      exists upperHull lowerHull : Hull,
        returned (sliceMesh Math_sqrt Sample.up Sample.origin Tetrahedron.fullMesh)
        = Some (upperHull, lowerHull) /\
        (triangleList (hullVertices upperHull) (hullIndices upperHull) /\
         (3 <= length (hullVertices upperHull))%nat /\
         (3 <= length (hullIndices upperHull))%nat) /\
        (triangleList (hullVertices lowerHull) (hullIndices lowerHull) /\
         (3 <= length (hullVertices lowerHull))%nat /\
         (3 <= length (hullIndices lowerHull))%nat) /\
        warnings (sliceMesh Math_sqrt Sample.up Sample.origin Tetrahedron.fullMesh) = []).
Proof.
  split; [do 2 eexists; split; reflexivity|]. intro Math_sqrt.
  assert (H : exists upperHull lowerHull : Hull,
             returned (sliceMesh Math_sqrt Sample.up Sample.origin Tetrahedron.fullMesh)
             = Some (upperHull, lowerHull)).
  { do 2 eexists. vm_compute. reflexivity. }
  destruct H as (upperHull & lowerHull & H).
  exists upperHull, lowerHull. split; [exact H|].
  exact (X6_hulls_are_triangle_lists Math_sqrt Sample.up Sample.origin Tetrahedron.fullMesh
           upperHull lowerHull H).
Defined.

Lemma X7_witness :
  (exists positions indices,
      attrPosition Tetrahedron.fullMesh = Some positions /\
      indexData Tetrahedron.fullMesh = Some indices) /\
  (forall Math_sqrt : Q -> Q,
      exists upperHull lowerHull : Hull,
        returned (sliceMesh Math_sqrt Sample.up Sample.origin Tetrahedron.fullMesh)
        = Some (upperHull, lowerHull) /\
        exists (positions : MeshAttributeAccessor Vec3) (indices : list nat)
               (capU capL : list SliceVertex),
          attrPosition Tetrahedron.fullMesh = Some positions /\
          indexData Tetrahedron.fullMesh = Some indices /\
          let st := sliceLoop Math_sqrt Sample.up positions
                              (attrNormal Tetrahedron.fullMesh)
                              (attrTextureCoordinate Tetrahedron.fullMesh)
                              Sample.origin indices in
          hullVertices upperHull = upperVertices st ++ capU /\
          hullVertices lowerHull = lowerVertices st ++ capL /\
          map position capU = map position capL /\
          map texCoord capU = map texCoord capL /\
          Forall (fun v => normal v = Some Sample.up) capU /\
          Forall (fun v => normal v = Some (negated Sample.up)) capL).
Proof.
  split; [do 2 eexists; split; reflexivity|]. intro Math_sqrt.
  assert (H : exists upperHull lowerHull : Hull,
             returned (sliceMesh Math_sqrt Sample.up Sample.origin Tetrahedron.fullMesh)
             = Some (upperHull, lowerHull)).
  { do 2 eexists. vm_compute. reflexivity. }
  destruct H as (upperHull & lowerHull & H).
  exists upperHull, lowerHull. split; [exact H|].
  exact (X7_caps_are_twins Math_sqrt Sample.up Sample.origin Tetrahedron.fullMesh
           upperHull lowerHull H).
Defined.

(** * The fruit and the sword *)

(** ** [onHit] *)

Lemma onHit_destroyed (c : Fruit.t) (object : nat) (objectPosition : Vec3)
    (hitPosition : option Vec3) :
  Fruit.isDestroyed c = true ->
  onHit c object objectPosition hitPosition
  = (c, if Fruit.showDebug c then [ConsoleLog FruitAlreadyDestroyed] else []).
Proof. intro H. unfold onHit. rewrite H. reflexivity. Qed.

Lemma onHit_fresh (c : Fruit.t) (object : nat) (objectPosition : Vec3)
    (hitPosition : option Vec3) :
  Fruit.isDestroyed c = false ->
  let r := onHit c object objectPosition hitPosition in
  Fruit.isDestroyed (fst r) = true /\
  Fruit.hitPosition (fst r)
  = match hitPosition with Some p => p | None => objectPosition end /\
  filter isScore (snd r) = [AddScore (Fruit.pointValue c)] /\
  filter isDestroy (snd r) = [DestroyObject object].
Proof.
  intro H. unfold onHit. rewrite H.
  destruct c as [d dbg pv snd_ fx hp def]. cbn in H. subst d.
  destruct hitPosition as [p|]; cbn;
    destruct dbg, (truthy snd_), fx; cbn; repeat split; reflexivity.
Qed.

Lemma onHitEach_destroyed (object : nat) (objectPosition : Vec3)
    (hits : list (option Vec3)) (c : Fruit.t) :
  Fruit.isDestroyed c = true ->
  fst (onHitEach c object objectPosition hits) = c /\
  filter isScore (snd (onHitEach c object objectPosition hits)) = [] /\
  filter isDestroy (snd (onHitEach c object objectPosition hits)) = [].
Proof.
  intro H. induction hits as [|hp hits IH]; [repeat split; reflexivity|].
  cbn [onHitEach]. rewrite (onHit_destroyed c object objectPosition hp H).
  destruct (onHitEach c object objectPosition hits) as [c' ev'].
  cbn [fst snd] in IH |- *. destruct IH as (-> & Hs & Hd).
  rewrite !filter_app, Hs, Hd.
  destruct (Fruit.showDebug c); repeat split; reflexivity.
Qed.



(** ** [hitFruit] *)

Lemma store_same (h : Heap) (address : nat) (c : Fruit.t) :
  store h address c address = c.
Proof. unfold store. rewrite Nat.eqb_refl. reflexivity. Qed.

Lemma hitFruit_heap (s : Sword.t) (fruit : Cached.t) (w : World) (c : nat) :
  heap (hitFruit s fruit w) c
  = if Nat.eqb c (Cached.component fruit)
    then Fruit.setIsDestroyed (heap w (Cached.component fruit)) true
    else heap w c.
Proof.
  unfold hitFruit. cbv zeta. rewrite !store_same.
  cbn [Fruit.onHitDefined Fruit.setIsDestroyed].
  destruct (Fruit.onHitDefined (heap w (Cached.component fruit))).
  - rewrite onHit_destroyed by reflexivity.
    destruct (Sword.showDebug s); cbn [heap]; unfold store;
      destruct (Nat.eqb c (Cached.component fruit)); reflexivity.
  - destruct (Sword.showDebug s); cbn [heap]; unfold store;
      destruct (Nat.eqb c (Cached.component fruit)); reflexivity.
Qed.

Lemma hitFruit_events (s : Sword.t) (fruit : Cached.t) (w : World) :
  exists new : list Event,
    events (hitFruit s fruit w) = events w ++ new /\
    Forall (fun ev =>
              isLog ev = true \/
              ev = DestroyObject (idOf (Cached.object fruit)) /\
              Fruit.onHitDefined (heap w (Cached.component fruit)) = false) new.
Proof.
  unfold hitFruit. cbv zeta. rewrite !store_same.
  cbn [Fruit.onHitDefined Fruit.setIsDestroyed].
  destruct (Fruit.onHitDefined (heap w (Cached.component fruit))) eqn:Hdef.
  - rewrite onHit_destroyed by reflexivity.
    cbn [Fruit.showDebug Fruit.setIsDestroyed].
    destruct (Sword.showDebug s), (Fruit.showDebug (heap w (Cached.component fruit)));
      cbn [events]; rewrite <- ?app_assoc; eexists; (split; [reflexivity|]);
      repeat constructor.
  - destruct (Sword.showDebug s); cbn [events]; rewrite <- ?app_assoc;
      eexists; (split; [reflexivity|]).
    + constructor; [right; split; reflexivity|]. repeat constructor.
    + constructor; [right; split; reflexivity|]. constructor.
Qed.

(** ** [checkForHits] *)

Lemma splice1_middle {A : Type} (pre : list A) (x : A) (rest : list A) :
  splice1 (pre ++ x :: rest) (length pre) = pre ++ rest.
Proof.
  unfold splice1. induction pre as [|y pre IH]; simpl; [reflexivity|].
  f_equal. exact IH.
Qed.

Lemma nth_error_middle {A : Type} (pre : list A) (x : A) (rest : list A) :
  nth_error (pre ++ x :: rest) (length pre) = Some x.
Proof. induction pre as [|y pre IH]; simpl; [reflexivity | exact IH]. Qed.

Section CheckAt.

Variable Math_sqrt : Q -> Q.

(** What one round of the loop of [checkForHits] does to the sword and to
    the heap. *)
Lemma checkAt_fst (s : Sword.t) (w : World) (i : nat) (e : Cached.t) :
  nth_error (Sword.sliceableFruits s) i = Some e ->
  fst (checkAt Math_sqrt i (s, w))
  = if live (heap w) e && negb (inReach Math_sqrt s e)
    then s
    else Sword.setSliceableFruits s (splice1 (Sword.sliceableFruits s) i).
Proof.
  intro H. unfold checkAt. rewrite H. unfold live, inReach.
  destruct (activeOf (Cached.object e)),
    (Fruit.isDestroyed (heap w (Cached.component e))); cbn [negb andb orb fst];
    try reflexivity.
  destruct (Qle_bool _ _); reflexivity.
Qed.

Lemma checkAt_heap (s : Sword.t) (w : World) (i : nat) (e : Cached.t) (c : nat) :
  nth_error (Sword.sliceableFruits s) i = Some e ->
  heap (snd (checkAt Math_sqrt i (s, w))) c
  = if live (heap w) e && inReach Math_sqrt s e
    then if Nat.eqb c (Cached.component e)
         then Fruit.setIsDestroyed (heap w (Cached.component e)) true
         else heap w c
    else heap w c.
Proof.
  intro H. unfold checkAt. rewrite H. unfold live, inReach.
  destruct (activeOf (Cached.object e)),
    (Fruit.isDestroyed (heap w (Cached.component e))); cbn [negb andb orb snd];
    try reflexivity.
  destruct (Qle_bool _ _); cbn [snd]; rewrite ?hitFruit_heap;
    destruct (_ && _); reflexivity.
Qed.

End CheckAt.

Section HitLoop.

Variable Math_sqrt : Q -> Q.
Variable s0 : Sword.t.
Variable w0 : World.

Let cache0 := Sword.sliceableFruits s0.
Let h0 := heap w0.
Let stay := stays Math_sqrt s0 h0.
Let hit := wasHit Math_sqrt s0 h0.

(** The state when the counter of the loop of [checkForHits] is about to
    go below [i]. *)
Let Inv (i : nat) (sw : Sword.t * World) : Prop :=
  fst sw = Sword.setSliceableFruits s0 (firstn i cache0 ++ filter stay (skipn i cache0)) /\
  forall c : nat,
    heap (snd sw) c
    = if hit (skipn i cache0) c then Fruit.setIsDestroyed (h0 c) true else h0 c.

Lemma hit_same (e : Cached.t) (rest : list Cached.t) :
  oneObjectPerComponent cache0 ->
  In e cache0 -> incl rest cache0 ->
  hit rest (Cached.component e) = true ->
  live h0 e = true /\ inReach Math_sqrt s0 e = true.
Proof.
  intros Hone He Hrest Hhit. unfold hit, wasHit in Hhit.
  apply existsb_exists in Hhit. destruct Hhit as (e' & He' & Hc).
  rewrite !andb_true_iff in Hc. destruct Hc as [[Hc Hl] Hr].
  apply Nat.eqb_eq in Hc.
  pose proof (Hone e' e (Hrest e' He') He Hc) as Ho.
  destruct e as [o c], e' as [o' c']. cbn in Hc, Ho. subst o' c'.
  split; assumption.
Qed.

Lemma checkAt_step (i : nat) (sw : Sword.t * World) :
  oneObjectPerComponent cache0 ->
  (i < length cache0)%nat ->
  Inv (S i) sw -> Inv i (checkAt Math_sqrt i sw).
Proof.
  intros Hone Hi [Hs Hh]. destruct sw as [s w]. cbn [fst snd] in Hs, Hh.
  destruct (nth_error cache0 i) as [e|] eqn:He;
    [|apply nth_error_None in He; lia].
  pose proof (skipn_head cache0 i e He) as Hskip.
  pose proof (firstn_snoc cache0 i e He) as Hfirst.
  assert (Hin : In e cache0) by (eapply nth_error_In; exact He).
  assert (Hrest : incl (skipn (S i) cache0) cache0).
  { intros x Hx. rewrite <- (firstn_skipn (S i) cache0). apply in_or_app. right. exact Hx. }
  assert (Hpre : length (firstn i cache0) = i) by (rewrite length_firstn; lia).
  unfold Inv. rewrite Hskip. rewrite Hfirst, <- app_assoc in Hs. cbn [app] in Hs.
  set (pre := firstn i cache0) in *. set (rest := skipn (S i) cache0) in *.
  pose proof (nth_error_middle pre e (filter stay rest)) as Hnth.
  pose proof (splice1_middle pre e (filter stay rest)) as Hsplice.
  rewrite Hpre in Hnth, Hsplice.
  assert (Hat : nth_error (Sword.sliceableFruits s) i = Some e)
    by (rewrite Hs; exact Hnth).
  assert (Hreach : inReach Math_sqrt s e = inReach Math_sqrt s0 e)
    by (rewrite Hs; reflexivity).
  assert (Hcons : forall c : nat,
             hit (e :: rest) c
             = (Nat.eqb (Cached.component e) c && live h0 e && inReach Math_sqrt s0 e)
               || hit rest c) by reflexivity.
  assert (Hfilter : filter stay (e :: rest)
                    = if live h0 e && negb (inReach Math_sqrt s0 e)
                      then e :: filter stay rest else filter stay rest)
    by reflexivity.
  assert (Hlive : live (heap w) e
                  = live h0 e && negb (hit rest (Cached.component e))).
  { unfold live. rewrite Hh. destruct (hit rest (Cached.component e));
      cbn [Fruit.isDestroyed Fruit.setIsDestroyed negb];
      rewrite ?andb_false_r, ?andb_true_r; reflexivity. }
  assert (Hsame : hit rest (Cached.component e) = true ->
                  live h0 e = true /\ inReach Math_sqrt s0 e = true)
    by (apply hit_same; assumption).
  split.
  - rewrite (checkAt_fst Math_sqrt s w i e Hat), Hfilter, Hlive, Hreach, Hs.
    cbn [Sword.sliceableFruits Sword.setSliceableFruits]. rewrite Hsplice.
    destruct (hit rest (Cached.component e)).
    + destruct (Hsame eq_refl) as [-> ->]. reflexivity.
    + destruct (live h0 e), (inReach Math_sqrt s0 e); reflexivity.
  - intro c. rewrite (checkAt_heap Math_sqrt s w i e c Hat), Hcons, Hlive, Hreach, !Hh.
    destruct (hit rest (Cached.component e)) eqn:Hw.
    + destruct (Hsame eq_refl) as [-> ->]. cbn [andb negb].
      destruct (Nat.eqb_spec (Cached.component e) c) as [<-|Hne];
        [rewrite Hw; reflexivity | reflexivity].
    + rewrite Nat.eqb_sym.
      destruct (live h0 e), (inReach Math_sqrt s0 e); cbn [andb negb orb];
        rewrite ?andb_false_r; cbn [orb]; try reflexivity.
      destruct (Nat.eqb_spec (Cached.component e) c) as [<-|Hne];
        [rewrite Hw; reflexivity | reflexivity].
Qed.

Lemma checkFrom_inv (n : nat) (sw : Sword.t * World) :
  oneObjectPerComponent cache0 ->
  (n <= length cache0)%nat ->
  Inv n sw -> Inv 0 (checkFrom Math_sqrt n sw).
Proof.
  intros Hone. revert sw. induction n as [|i IH]; intros sw Hn Hinv; [exact Hinv|].
  cbn [checkFrom]. apply IH; [lia|]. apply checkAt_step; [exact Hone | lia | exact Hinv].
Qed.

(** What [checkForHits] leaves of the cache and of the heap. *)
Lemma checkForHits_filter :
  oneObjectPerComponent (Sword.sliceableFruits s0) ->
  let r := checkForHits Math_sqrt s0 w0 in
  fst r
  = Sword.setSliceableFruits s0
      (filter (stays Math_sqrt s0 (heap w0)) (Sword.sliceableFruits s0)) /\
  forall c : nat,
    heap (snd r) c
    = if wasHit Math_sqrt s0 (heap w0) (Sword.sliceableFruits s0) c
      then Fruit.setIsDestroyed (heap w0 c) true
      else heap w0 c.
Proof.
  intros Hone r.
  assert (Hstart : Inv (length cache0) (s0, w0)).
  { split; cbn [fst snd].
    - rewrite firstn_all, skipn_all. cbn [filter]. rewrite app_nil_r.
      destruct s0; reflexivity.
    - intro c. rewrite skipn_all. reflexivity. }
  exact (checkFrom_inv (length cache0) (s0, w0) Hone (Nat.le_refl _) Hstart).
Qed.


End HitLoop.

Lemma splice1_incl {A : Type} (l : list A) (i : nat) : incl (splice1 l i) l.
Proof.
  unfold splice1. revert i. induction l as [|x l IH]; intros [|i] y Hy.
  - exact Hy.
  - exact Hy.
  - right. exact Hy.
  - cbn [firstn skipn app] in Hy. destruct Hy as [<-|Hy]; [left; reflexivity|].
    right. apply (IH i). destruct l; exact Hy.
Qed.

Section QuietHits.

Variable Math_sqrt : Q -> Q.

(** One round of the loop of [checkForHits] adds only quiet events, takes
    entries out of the cache and adds none, and gives no component an
    [onHit] it did not have. *)
Lemma checkAt_quiet (h0 : Heap) (cache0 : list Cached.t) (i : nat) (sw : Sword.t * World) :
  incl (Sword.sliceableFruits (fst sw)) cache0 ->
  (forall c, Fruit.onHitDefined (heap (snd sw) c) = Fruit.onHitDefined (h0 c)) ->
  incl (Sword.sliceableFruits (fst (checkAt Math_sqrt i sw))) cache0 /\
  (forall c, Fruit.onHitDefined (heap (snd (checkAt Math_sqrt i sw)) c)
             = Fruit.onHitDefined (h0 c)) /\
  exists new : list Event,
    events (snd (checkAt Math_sqrt i sw)) = events (snd sw) ++ new /\
    Forall (quiet h0 cache0) new.
Proof.
  destruct sw as [s w]. cbn [fst snd]. intros Hincl Hdef.
  assert (Hnone : exists new : list Event,
             events w = events w ++ new /\ Forall (quiet h0 cache0) new)
    by (exists []; rewrite app_nil_r; split; [reflexivity | constructor]).
  assert (Hspl : incl (Sword.sliceableFruits
                         (Sword.setSliceableFruits s (splice1 (Sword.sliceableFruits s) i)))
                      cache0).
  { cbn [Sword.sliceableFruits Sword.setSliceableFruits].
    intros x Hx. apply Hincl. exact (splice1_incl _ _ x Hx). }
  unfold checkAt.
  destruct (nth_error (Sword.sliceableFruits s) i) as [e|] eqn:He;
    [|cbn [fst snd]; repeat split; assumption].
  assert (Hin : In e cache0) by (apply Hincl; eapply nth_error_In; exact He).
  destruct (negb (activeOf (Cached.object e))
            || Fruit.isDestroyed (heap w (Cached.component e)));
    [cbn [fst snd]; repeat split; assumption|].
  cbv zeta.
  set (near := Sword.showDebug s && JS.lt _ _).
  set (w1 := if near then mkWorld (heap w) (events w ++ [ConsoleLog NearFruit]) else w).
  assert (Hheap : heap w1 = heap w) by (subst w1; destruct near; reflexivity).
  assert (Hw1 : exists new : list Event,
             events w1 = events w ++ new /\ Forall (quiet h0 cache0) new).
  { subst w1. destruct near; [|exact Hnone].
    exists [ConsoleLog NearFruit]. split; [reflexivity|].
    constructor; [left; reflexivity | constructor]. }
  destruct (Qle_bool _ _); cbn [fst snd].
  - split; [exact Hspl|]. split.
    + intro c. rewrite hitFruit_heap, Hheap.
      destruct (Nat.eqb_spec c (Cached.component e)) as [->|_]; [|apply Hdef].
      cbn [Fruit.onHitDefined Fruit.setIsDestroyed]. apply Hdef.
    + destruct Hw1 as (new1 & Hev1 & Hq1).
      destruct (hitFruit_events s e w1) as (new2 & Hev2 & Hq2).
      exists (new1 ++ new2). rewrite Hev2, Hev1, app_assoc. split; [reflexivity|].
      apply Forall_app. split; [exact Hq1|].
      eapply Forall_impl; [|exact Hq2]. cbv beta.
      intros ev [Hlog|[-> Hno]]; [left; exact Hlog|].
      right. exists e. split; [exact Hin|]. split; [reflexivity|].
      rewrite <- Hdef, <- Hheap. exact Hno.
  - split; [exact Hincl|]. split; [intro c; rewrite Hheap; apply Hdef | exact Hw1].
Qed.

Lemma checkFrom_quiet (h0 : Heap) (cache0 : list Cached.t) (n : nat) :
  forall sw : Sword.t * World,
  incl (Sword.sliceableFruits (fst sw)) cache0 ->
  (forall c, Fruit.onHitDefined (heap (snd sw) c) = Fruit.onHitDefined (h0 c)) ->
  exists new : list Event,
    events (snd (checkFrom Math_sqrt n sw)) = events (snd sw) ++ new /\
    Forall (quiet h0 cache0) new.
Proof.
  induction n as [|i IH]; intros sw Hincl Hdef; cbn [checkFrom].
  - exists []. rewrite app_nil_r. split; [reflexivity | constructor].
  - destruct (checkAt_quiet h0 cache0 i sw Hincl Hdef)
      as (Hincl' & Hdef' & new1 & Hev1 & Hq1).
    destruct (IH (checkAt Math_sqrt i sw) Hincl' Hdef') as (new2 & Hev2 & Hq2).
    exists (new1 ++ new2). rewrite Hev2, Hev1, app_assoc. split; [reflexivity|].
    apply Forall_app. split; assumption.
Qed.


End QuietHits.

(** ** [collectActiveFruits] and [updateFruitCache] *)

Lemma reached_incl (l l' : list Object3D) (x : Object3D) :
  incl l l' -> reached l x -> reached l' x.
Proof.
  intros Hincl H. induction H as [o Ho | p o _ IH Hp Ho].
  - apply reached_root, Hincl, Ho.
  - exact (reached_child l' p o IH Hp Ho).
Qed.

Lemma reached_cons (o : Object3D) (rest : list Object3D) (x : Object3D) :
  reached (o :: rest) x <-> reached [o] x \/ reached rest x.
Proof.
  split.
  - intro H. induction H as [y [<-|Hy] | p y _ [IH|IH] Hp Hy].
    + left. apply reached_root. left. reflexivity.
    + right. apply reached_root, Hy.
    + left. exact (reached_child _ p y IH Hp Hy).
    + right. exact (reached_child _ p y IH Hp Hy).
  - intros [H|H]; revert H; apply reached_incl.
    + intros y [<-|[]]. left. reflexivity.
    + intros y Hy. right. exact Hy.
Qed.

Lemma reached_single (o x : Object3D) :
  reached [o] x <-> x = o \/ (activeOf o = true /\ reached (childrenOf o) x).
Proof.
  split.
  - intro H. induction H as [y [<-|[]] | p y _ [->|[Ha IH]] Hp Hy].
    + left. reflexivity.
    + right. split; [exact Hp|]. apply reached_root, Hy.
    + right. split; [exact Ha|]. exact (reached_child _ p y IH Hp Hy).
  - intros [->|[Ha H]]; [apply reached_root; left; reflexivity|].
    induction H as [y Hy | p y _ IH Hp Hy].
    + apply (reached_child _ o y); [apply reached_root; left; reflexivity | exact Ha | exact Hy].
    + exact (reached_child _ p y IH Hp Hy).
Qed.

Lemma reached_nil (x : Object3D) : ~ reached [] x.
Proof. intro H. induction H as [y [] | p y _ IH _ _]; exact IH. Qed.

Section Collect.

Variable h : Heap.

(** What [collectActiveFruits] pushes for the object itself. *)
Let own (obj : Object3D) : list Cached.t :=
  match sliceableOf obj with
  | Some c => if negb (Fruit.isDestroyed (h c)) then [Cached.mk obj c] else []
  | None => []
  end.

Lemma collectObject_eq (obj : Object3D) (cache : list Cached.t) :
  collectObject h obj cache
  = if activeOf obj
    then collectActiveFruits h (childrenOf obj) (cache ++ own obj)
    else cache.
Proof.
  destruct obj as [id active p sliceable children].
  cbn [collectObject activeOf childrenOf]. destruct active; [|reflexivity].
  unfold own. cbn [sliceableOf].
  set (o := mkObject3D id true p sliceable children).
  assert (Hcache : match sliceable with
                   | Some c => if negb (Fruit.isDestroyed (h c))
                               then cache ++ [Cached.mk o c] else cache
                   | None => cache
                   end
                   = cache ++ match sliceable with
                              | Some c => if negb (Fruit.isDestroyed (h c))
                                          then [Cached.mk o c] else []
                              | None => []
                              end).
  { destruct sliceable as [c|]; [destruct (negb _)|]; rewrite ?app_nil_r; reflexivity. }
  rewrite Hcache. generalize (cache ++ match sliceable with
                                       | Some c => if negb (Fruit.isDestroyed (h c))
                                                   then [Cached.mk o c] else []
                                       | None => []
                                       end).
  intro cache'.
  assert (Hloop : forall l acc,
             (fix loop (objects : list Object3D) (cache : list Cached.t) : list Cached.t :=
                match objects with
                | [] => cache
                | o :: rest => loop rest (collectObject h o cache)
                end) l acc = collectActiveFruits h l acc).
  { induction l as [|x l IH]; intro acc; [reflexivity | exact (IH _)]. }
  destruct children as [|x children]; [reflexivity|].
  replace (0 <? length (x :: children))%nat with true by reflexivity.
  rewrite Hloop. reflexivity.
Qed.

Lemma own_iff (obj : Object3D) (e : Cached.t) :
  activeOf obj = true ->
  (In e (own obj) <-> collectable h e /\ Cached.object e = obj).
Proof.
  intro Ha. unfold own, collectable. split.
  - destruct (sliceableOf obj) as [c|] eqn:Hs; [|intros []].
    destruct (Fruit.isDestroyed (h c)) eqn:Hd; [intros []|].
    intros [<-|[]]. cbn [Cached.object Cached.component]. repeat split; assumption.
  - intros [(_ & Hs & Hd) <-]. rewrite Hs, Hd. left. destruct e; reflexivity.
Qed.

Lemma collect_list (objects : list Object3D) :
  Forall (fun o => forall cache, exists found,
              collectObject h o cache = cache ++ found /\
              forall e, In e found <-> collectable h e /\ reached [o] (Cached.object e))
         objects ->
  forall cache, exists found,
    collectActiveFruits h objects cache = cache ++ found /\
    forall e, In e found <-> collectable h e /\ reached objects (Cached.object e).
Proof.
  induction 1 as [|o rest Ho _ IH]; intro cache.
  - exists []. rewrite app_nil_r. split; [reflexivity|].
    intro e. split; [intros [] | intros [_ H]; exact (reached_nil _ H)].
  - destruct (Ho cache) as (f1 & H1 & Hf1).
    destruct (IH (cache ++ f1)) as (f2 & H2 & Hf2).
    exists (f1 ++ f2). unfold collectActiveFruits in *. cbn [fold_left].
    rewrite H1, H2, app_assoc. split; [reflexivity|].
    intro e. rewrite (reached_cons o rest), in_app_iff, Hf1, Hf2. tauto.
Qed.

Lemma collect_object (o : Object3D) :
  forall cache, exists found,
    collectObject h o cache = cache ++ found /\
    forall e, In e found <-> collectable h e /\ reached [o] (Cached.object e).
Proof.
  induction o as [id active p sliceable children IH] using Object3D_tree_ind.
  intro cache. rewrite collectObject_eq. cbn [activeOf childrenOf].
  destruct active.
  - set (o := mkObject3D id true p sliceable children).
    destruct (collect_list children IH (cache ++ own o)) as (found & Hf & Hiff).
    exists (own o ++ found). rewrite Hf, app_assoc. split; [reflexivity|].
    intro e. rewrite in_app_iff, (own_iff o e eq_refl), Hiff, (reached_single o).
    cbn [activeOf childrenOf o]. tauto.
  - exists []. rewrite app_nil_r. split; [reflexivity|].
    intro e. split; [intros []|]. intros [(Hact & _) Hr].
    apply reached_single in Hr. cbn [activeOf] in Hr.
    destruct Hr as [He|[Hf _]]; [|discriminate Hf].
    rewrite He in Hact. discriminate Hact.
Qed.

(** What [collectActiveFruits] pushes. *)
Lemma collectActiveFruits_found (objects : list Object3D) (cache : list Cached.t) :
  exists found : list Cached.t,
    collectActiveFruits h objects cache = cache ++ found /\
    forall e : Cached.t,
      In e found <-> collectable h e /\ reached objects (Cached.object e).
Proof.
  apply collect_list. apply Forall_forall. intros o _. apply collect_object.
Qed.

(** X13.  [collectActiveFruits] keeps what the cache held and pushes after
    it exactly the entries of the fruit it can reach: active objects with a
    [sliceable-fruit] component that is not destroyed, all of whose
    ancestors below the given objects are active.  A fruit under an
    inactive object is never cached. *)
Theorem X13_collected (objects : list Object3D) (cache : list Cached.t) :
  exists found : list Cached.t,
    collectActiveFruits h objects cache = cache ++ found /\
    forall e : Cached.t,
      In e found <-> collectable h e /\ reached objects (Cached.object e).
Proof. exact (collectActiveFruits_found objects cache). Qed.

End Collect.

(** Objects that are listed with the children of the active ones among
    them are all that is reached. *)
Lemma reached_listed (objects all : list Object3D) (x : Object3D) :
  incl objects all ->
  (forall p, In p all -> activeOf p = true -> incl (childrenOf p) all) ->
  reached objects x -> In x all.
Proof.
  intros Hroot Hclosed H. induction H as [o Ho | p o _ IH Hp Ho].
  - apply Hroot, Ho.
  - exact (Hclosed p IH Hp o Ho).
Qed.

Section RefreshThenHit.

Variable Math_sqrt : Q -> Q.


End RefreshThenHit.

(** ** The sword at the sample scene *)



(** * The hulls stay inside the mesh *)

Section Inside.

Variable Math_sqrt : Q -> Q.
Variable slicePlaneNormal : Vec3.
Variable worldPos : Vec3.
Variable wallNormal : Vec3.
Variable wallPoint : Vec3.

Let behind (v : SliceVertex) : Prop := sideOf wallNormal wallPoint v <= 0.
Let behindPt (pt : ContourPoint.t) : Prop := sideOfPoint wallNormal wallPoint pt <= 0.

Lemma cut_inside (x y : E.t) :
  behind (E.v x) -> behind (E.v y) -> behind (edgeCut Math_sqrt x y).
Proof.
  unfold behind, sideOf, edgeCut. intros Hx Hy.
  rewrite interpolate_distance.
  destruct (edgeParameter_range x y) as [H0 H1].
  set (t := edgeParameter x y) in *.
  set (a := getSideOfPlane wallNormal (position (E.v x)) wallPoint) in *.
  set (b := getSideOfPlane wallNormal (position (E.v y)) wallPoint) in *.
  assert (Ha : a * (1 - t) <= 0) by nra.
  assert (Hb : b * t <= 0) by nra.
  lra.
Qed.

Lemma sum_inside (pts : list ContourPoint.t) :
  Forall behindPt pts ->
  c0 wallNormal * sumOf c0 pts + c1 wallNormal * sumOf c1 pts + c2 wallNormal * sumOf c2 pts
  <= inject_Z (Z.of_nat (length pts))
     * (c0 wallNormal * c0 wallPoint + c1 wallNormal * c1 wallPoint
        + c2 wallNormal * c2 wallPoint).
Proof.
  induction 1 as [|pt pts Hpt _ IH].
  - apply Qle_lteq. right. simpl. ring.
  - cbn [length sumOf fold_right]. fold (sumOf c0 pts) (sumOf c1 pts) (sumOf c2 pts).
    rewrite count_succ.
    unfold behindPt, sideOfPoint, getSideOfPlane in Hpt. cbv zeta in Hpt. nra.
Qed.

Lemma centroid_inside (pts : list ContourPoint.t) :
  pts <> [] ->
  Forall behindPt pts ->
  getSideOfPlane wallNormal (centroidOf pts) wallPoint <= 0.
Proof.
  intros Hne Hall.
  destruct (centroidOf_isMean pts) as (H0 & H1 & H2). cbv zeta in H0, H1, H2.
  pose proof (sum_inside pts Hall) as Hsum.
  pose proof (count_nonzero pts Hne) as Hn.
  assert (Hpos : 0 < inject_Z (Z.of_nat (length pts))).
  { destruct pts as [|pt pts]; [congruence|]. unfold Qlt. simpl. lia. }
  unfold getSideOfPlane. cbv zeta. rewrite H0, H1, H2.
  set (n := inject_Z (Z.of_nat (length pts))) in *.
  set (k := c0 wallNormal * c0 wallPoint + c1 wallNormal * c1 wallPoint
            + c2 wallNormal * c2 wallPoint) in *.
  set (sum := c0 wallNormal * sumOf c0 pts + c1 wallNormal * sumOf c1 pts
              + c2 wallNormal * sumOf c2 pts) in *.
  assert (E : c0 wallNormal * (sumOf c0 pts / n - c0 wallPoint)
              + c1 wallNormal * (sumOf c1 pts / n - c1 wallPoint)
              + c2 wallNormal * (sumOf c2 pts / n - c2 wallPoint)
              == (sum - n * k) / n)
    by (subst sum k; field; exact Hn).
  rewrite E. apply Qle_shift_div_r; [exact Hpos | lra].
Qed.

(** A cap over contour points behind the wall lies behind the wall. *)
Lemma generateCap_inside (vertices : list SliceVertex) (indices : list nat)
    (contour : list ContourPoint.t) (isUpper : bool) :
  Forall behind vertices ->
  Forall behindPt contour ->
  Forall behind (fst (generateCap slicePlaneNormal vertices indices contour isUpper)).
Proof.
  intros Hvs Hall.
  assert (Hunique : Forall behindPt (removeDuplicates contour)).
  { apply Forall_forall. intros pt Hpt.
    apply (proj1 (Forall_forall _ _) Hall), removeDuplicates_incl, Hpt. }
  destruct (Nat.lt_ge_cases (length (removeDuplicates contour)) 3) as [Hlt|Hge].
  - rewrite (generateCap_small slicePlaneNormal vertices indices contour isUpper Hlt).
    exact Hvs.
  - rewrite (generateCap_fan slicePlaneNormal vertices indices contour isUpper Hge).
    cbn [fst]. apply Forall_app. split; [exact Hvs|].
    constructor.
    + change (getSideOfPlane wallNormal (centroidOf (removeDuplicates contour)) wallPoint
              <= 0).
      apply centroid_inside; [|exact Hunique].
      intro Hnil. rewrite Hnil in Hge. simpl in Hge. lia.
    + apply Forall_forall. intros v Hv. apply in_map_iff in Hv.
      destruct Hv as (pt & <- & Hpt).
      exact (proj1 (Forall_forall _ _) Hunique pt Hpt).
Qed.

Variable positions : MeshAttributeAccessor Vec3.
Variable normals : option (MeshAttributeAccessor Vec3).
Variable texCoords : option (MeshAttributeAccessor Vec2).
Variable indices : list nat.

Let vertex := vertexAt positions normals texCoords indices.
Let distance := distanceAt slicePlaneNormal positions normals texCoords worldPos indices.
Let entry (k : nat) : E.t := E.mk (vertex k) (distance k) (JS.at_ indices k).
Let inside := insideAt wallNormal wallPoint positions normals texCoords indices.

Lemma split_inside (i : nat) (two one : list SliceVertex) (pts : list ContourPoint.t) :
  inside i ->
  SplitShape Math_sqrt (entry i) (entry (i + 1)) (entry (i + 2)) two one pts ->
  Forall behind two /\ Forall behind one /\ Forall behindPt pts.
Proof.
  intros Hin Hshape.
  assert (Hentry : forall e, In e [entry i; entry (i + 1); entry (i + 2)] -> behind (E.v e)).
  { unfold inside, insideAt in Hin.
    inversion Hin as [|? ? A0 Hin1]. inversion Hin1 as [|? ? A1 Hin2].
    inversion Hin2 as [|? ? A2 _].
    intros e [<-|[<-|[<-|[]]]]; [exact A0 | exact A1 | exact A2]. }
  destruct Hshape as [p q r Harr _ _ _ | p q r Harr _ _ _];
    destruct (arranged_In _ _ _ _ _ _ Harr) as (H1 & H2 & H3);
    pose proof (Hentry _ H1); pose proof (Hentry _ H2); pose proof (Hentry _ H3);
    repeat split; repeat (apply Forall_cons || apply Forall_nil);
    try assumption; try (apply cut_inside; assumption);
    unfold behindPt, sideOfPoint, edgePoint; cbn [ContourPoint.position];
    apply cut_inside; assumption.
Qed.

(** What the loop pushes lies behind every wall that the triangles lie
    behind. *)
Lemma sliceLoop_inside :
  (forall i, In i (loopCounters (length indices)) -> inside i) ->
  let st := sliceLoop Math_sqrt slicePlaneNormal positions normals texCoords
                      worldPos indices in
  Forall behind (upperVertices st) /\ Forall behind (lowerVertices st) /\
  Forall behindPt (upperContour st) /\ Forall behindPt (lowerContour st).
Proof.
  intros Hall st.
  destruct (sliceLoop_property Math_sqrt slicePlaneNormal positions normals texCoords
              worldPos indices
              (fun cs up lo pts =>
                 (forall i, In i cs -> inside i) ->
                 Forall behind up /\ Forall behind lo /\ Forall behindPt pts))
    as (up & lo & pts & Hst & HP).
  - intros _. repeat split; constructor.
  - intros i cs u l p u' l' p' H H' Hin.
    destruct H as (Hu & Hl & Hp); [intros j [<-|[]]; apply Hin; left; reflexivity|].
    destruct H' as (Hu' & Hl' & Hp'); [intros j Hj; apply Hin; right; exact Hj|].
    repeat split; apply Forall_app; split; assumption.
  - intros st0 i.
    assert (Hwhole : (forall j, In j [i] -> inside j) ->
                     Forall behind [vertex i; vertex (i + 1); vertex (i + 2)]).
    { intro Hin. pose proof (Hin i (or_introl eq_refl)) as Hi.
      unfold inside, insideAt in Hi.
      inversion Hi as [|? ? A0 Hi1]. inversion Hi1 as [|? ? A1 Hi2].
      inversion Hi2 as [|? ? A2 _].
      apply Forall_cons; [exact A0|]. apply Forall_cons; [exact A1|].
      apply Forall_cons; [exact A2|]. apply Forall_nil. }
    destruct (step_cases Math_sqrt slicePlaneNormal positions normals texCoords
                worldPos indices st0 i)
      as [(_ & [(Hst & _)|(Hst & _)])|(_ & _ & two & one & pts & Hshape & Hst)].
    + do 3 eexists. split; [exact Hst|]. intro Hin.
      split; [exact (Hwhole Hin)|]. split; constructor.
    + do 3 eexists. split; [exact Hst|]. intro Hin.
      split; [constructor|]. split; [exact (Hwhole Hin) | constructor].
    + assert (Hsplit : (forall j, In j [i] -> inside j) ->
                       Forall behind two /\ Forall behind one /\ Forall behindPt pts)
        by (intro Hin; apply (split_inside i); [apply Hin; left; reflexivity | exact Hshape]).
      destruct Hst as [Hst|Hst]; do 3 eexists; (split; [exact Hst|]); intro Hin;
        destruct (Hsplit Hin) as (H2 & H1 & Hp); repeat split; assumption.
  - subst st. rewrite Hst.
    cbn [upperVertices lowerVertices upperContour lowerContour].
    destruct (HP Hall) as (Hu & Hl & Hp). repeat split; assumption.
Qed.

End Inside.

Section InsideHulls.

Variable Math_sqrt : Q -> Q.
Variable slicePlaneNormal : Vec3.
Variable worldPos : Vec3.


End InsideHulls.


(** * From the slicing to the created meshes *)

Section CreatedHulls.

Variable Math_sqrt : Q -> Q.
Variable slicePlaneNormal : Vec3.
Variable worldPos : Vec3.
Variable hasPosition hasNormal hasTextureCoordinate : bool.
Variable blank3 : Vec3.
Variable blank2 : Vec2.

(** X16.  The meshes created for the two hulls that [sliceMesh] returns
    hold the indices of the hulls unchanged, whichever width the index
    array has, as long as a hull has fewer than 2^32 vertices: every index
    of a hull is below its number of vertices, so none is cut to 16
    bits. *)
Theorem X16_created_hulls (originalMesh : Mesh) (upperHull lowerHull : Hull) :
  returned (sliceMesh Math_sqrt slicePlaneNormal worldPos originalMesh)
  = Some (upperHull, lowerHull) ->
  (N.of_nat (length (hullVertices upperHull)) < 4294967296)%N ->
  (N.of_nat (length (hullVertices lowerHull)) < 4294967296)%N ->
  let create (hull : Hull) :=
    createMeshObject hasPosition hasNormal hasTextureCoordinate blank3 blank2
                     (hullVertices hull) (hullIndices hull) in
  elementsOf (createdIndexData (create upperHull)) = map N.of_nat (hullIndices upperHull) /\
  elementsOf (createdIndexData (create lowerHull)) = map N.of_nat (hullIndices lowerHull) /\
  (3 <= vertexCount (create upperHull))%nat /\ (3 <= vertexCount (create lowerHull))%nat.
Proof.
  intros H HU HL create.
  destruct (sliceMesh_triangleLists Math_sqrt slicePlaneNormal worldPos originalMesh
              upperHull lowerHull H)
    as (([_ HrU] & HvU & _) & ([_ HrL] & HvL & _) & _).
  destruct (createMeshObject_data hasPosition hasNormal hasTextureCoordinate blank3 blank2
              (hullVertices upperHull) (hullIndices upperHull) HU HrU)
    as (HcU & HiU & _).
  destruct (createMeshObject_data hasPosition hasNormal hasTextureCoordinate blank3 blank2
              (hullVertices lowerHull) (hullIndices lowerHull) HL HrL)
    as (HcL & HiL & _).
  subst create. cbv beta.
  split; [exact HiU|]. split; [exact HiL|].
  rewrite HcU, HcL. split; assumption.
Qed.

End CreatedHulls.

Lemma X16_witness :
  (exists positions indices,
      attrPosition Tetrahedron.fullMesh = Some positions /\
      indexData Tetrahedron.fullMesh = Some indices) /\
  (forall Math_sqrt : Q -> Q,
      exists upperHull lowerHull : Hull,
        returned (sliceMesh Math_sqrt Sample.up Sample.origin Tetrahedron.fullMesh)
        = Some (upperHull, lowerHull) /\
        (N.of_nat (length (hullVertices upperHull)) < 4294967296)%N /\
        (N.of_nat (length (hullVertices lowerHull)) < 4294967296)%N /\
        let create (hull : Hull) :=
          createMeshObject true true true Sample.origin (mkVec2 0 0)
                           (hullVertices hull) (hullIndices hull) in
        elementsOf (createdIndexData (create upperHull))
        = map N.of_nat (hullIndices upperHull) /\
        elementsOf (createdIndexData (create lowerHull))
        = map N.of_nat (hullIndices lowerHull) /\
        (3 <= vertexCount (create upperHull))%nat /\
        (3 <= vertexCount (create lowerHull))%nat).
Proof.
  split; [do 2 eexists; split; reflexivity|]. intro Math_sqrt.
  assert (H : exists upperHull lowerHull : Hull,
             returned (sliceMesh Math_sqrt Sample.up Sample.origin Tetrahedron.fullMesh)
             = Some (upperHull, lowerHull) /\
             (N.of_nat (length (hullVertices upperHull)) < 4294967296)%N /\
             (N.of_nat (length (hullVertices lowerHull)) < 4294967296)%N).
  { do 2 eexists. split; [vm_compute; reflexivity|]. split; vm_compute; reflexivity. }
  destruct H as (upperHull & lowerHull & H & HU & HL).
  exists upperHull, lowerHull.
  split; [exact H|]. split; [exact HU|]. split; [exact HL|].
  exact (X16_created_hulls Math_sqrt Sample.up Sample.origin true true true
           Sample.origin (mkVec2 0 0) Tetrahedron.fullMesh upperHull lowerHull H HU HL).
Defined.
